(** * Table commands of prosemirror-tables-sections: a shallow embedding

    The development follows [src/commands.ts] and the table utilities
    ([cellAround], [selectionCell], [removeColSpan], [getRow], ...).
    Documents are trees of nodes addressed by integer positions, as in
    the host document model; commands return a boolean and hand at most
    one transaction to the dispatch callback. *)

From stdpp Require Import gmap strings list fin_maps.
From Stdlib Require Import ZArith Lia.

Set Warnings "-register-all".

Local Open Scope Z_scope.

(** ** JavaScript values and attribute objects *)

Inductive Value :=
| VUndefined
| VNull
| VBool (b : bool)
| VNum (z : Z)
| VStr (s : string)
| VArr (l : list Z).

(** A node's [attrs] object: string keys, looked up as [attrs[name]]. *)
Abbreviation Attrs := (gmap string Value).

Definition attr (a : Attrs) (name : string) : Value :=
  default VUndefined (a !! name).

(** The [CellAttrs] view of a cell's attributes: [colspan] and
    [rowspan] are numbers, [colwidth] is [number[] | null]. *)
Definition num (v : Value) : Z :=
  match v with VNum z => z | _ => 0 end.

Definition colspan (a : Attrs) : Z := num (attr a "colspan").
Definition rowspan (a : Attrs) : Z := num (attr a "rowspan").

(** ** Arrays *)

(** [Array.prototype.splice(start, deleteCount, ...items)]: the start
    index counts from the end when negative and is clamped to the
    array, the delete count is clamped to what is left. *)
Definition splice_start (len start : Z) : Z :=
  if start <? 0 then Z.max (len + start) 0 else Z.min start len.

Definition splice (l : list Z) (start deleteCount : Z) (items : list Z) : list Z :=
  let len := Z.of_nat (length l) in
  let s := splice_start len start in
  let d := Z.min (Z.max deleteCount 0) (len - s) in
  take (Z.to_nat s) l ++ items ++ drop (Z.to_nat (s + d)) l.

(** [arr.some((w) => w > 0)] *)
Definition some_positive (l : list Z) : bool :=
  existsb (fun w => 0 <? w) l.

(** ** Column spans ([removeColSpan], [addColSpan])

    [CellAttrs] types the arguments: [colwidth] is an array of numbers
    or null, and only an array is truthy. *)

Definition removeColSpan (attrs : Attrs) (pos : Z) (n : Z) : Attrs :=
  let result := <["colspan" := VNum (colspan attrs - n)]> attrs in
  match attr result "colwidth" with
  | VArr cw =>
      let cw' := splice cw pos n [] in
      if negb (some_positive cw')
      then <["colwidth" := VNull]> result
      else <["colwidth" := VArr cw']> result
  | _ => result
  end.

Definition addColSpan (attrs : Attrs) (pos : Z) (n : Z) : Attrs :=
  let result := <["colspan" := VNum (colspan attrs + n)]> attrs in
  match attr result "colwidth" with
  | VArr cw =>
      <["colwidth" := VArr (Nat.iter (Z.to_nat n) (fun a => splice a pos 0 [0]) cw)]>
        result
  | _ => result
  end.

(** ** The document tree

    Node types carry the [tableRole] of their spec; a node is a text
    node of some length, a leaf, or an element with attributes and
    children. [nodeSize] is the host's token count: a text node counts
    its characters, a leaf one token, an element its content plus an
    opening and a closing token. *)

Inductive TableRole :=
| Rtable | Rcaption | Rhead | Rbody | Rfoot | Rrow | Rcell | Rheader_cell.

Record NodeType := mkNodeType {
  type_name : string;
  tableRole : option TableRole;
  isTextblock : bool
}.

Global Instance TableRole_eq_dec : EqDecision TableRole.
Proof. solve_decision. Defined.

Global Instance NodeType_eq_dec : EqDecision NodeType.
Proof. solve_decision. Defined.

Inductive Node :=
| Text (len : Z)
| Leaf (type : NodeType) (attrs : Attrs)
| Elem (type : NodeType) (attrs : Attrs) (content : list Node).

Definition textType : NodeType := mkNodeType "text" None false.

Definition nodeType (n : Node) : NodeType :=
  match n with Text _ => textType | Leaf t _ | Elem t _ _ => t end.

Definition nodeAttrs (n : Node) : Attrs :=
  match n with Text _ => ∅ | Leaf _ a | Elem _ a _ => a end.

Definition children (n : Node) : list Node :=
  match n with Elem _ _ c => c | _ => [] end.

Definition role (n : Node) : option TableRole := tableRole (nodeType n).

Fixpoint nodeSize (n : Node) : Z :=
  match n with
  | Text len => len
  | Leaf _ _ => 1
  | Elem _ _ c =>
      2 + (fix sizes (l : list Node) : Z :=
             match l with
             | [] => 0
             | x :: xs => nodeSize x + sizes xs
             end) c
  end.

(** [fragment.size] *)
Fixpoint fragmentSize (l : list Node) : Z :=
  match l with
  | [] => 0
  | x :: xs => nodeSize x + fragmentSize xs
  end.

Definition childCount (n : Node) : Z := Z.of_nat (length (children n)).

(** Modelled from the spec: [isTableSection] of the schema module, which
    is not part of the sources at hand; a section is a node whose role is
    head, body or foot (spec, data model). *)
Definition isTableSection (n : Node) : bool :=
  match role n with
  | Some Rhead | Some Rbody | Some Rfoot => true
  | _ => false
  end.

(** ** Row addressing ([rowsCount], [getRow], [rowPos], [rowAtPos]) *)

Definition rowsCount (table : Node) : Z :=
  fold_left
    (fun count section =>
       if isTableSection section then count + childCount section else count)
    (children table) 0.

Record RowRef := mkRowRef {
  row_node : option Node;
  row_pos : Z;
  row_section : Z
}.

(** The [while] loop of [getRow] over the rows of the section that
    holds the row: [r] is the loop counter, the list what is left of the
    section from [r] on. *)
Fixpoint getRow_rows (rows : list Node) (row prevSectionsRows r rPos : Z)
  : option Node * Z :=
  match rows with
  | [] => (None, rPos + 1)
  | x :: rest =>
      if prevSectionsRows + r =? row then (Some x, rPos)
      else getRow_rows rest row prevSectionsRows (r + 1) (rPos + nodeSize x)
  end.

(** The [for] loop of [getRow] over the children of the table from index
    [tc] on; [tc === table.childCount - 1] holds when nothing follows. *)
Fixpoint getRow_loop (tcs : list Node) (row rPos prevSectionsRows sectionIndex : Z)
  : RowRef :=
  match tcs with
  | [] => mkRowRef None rPos sectionIndex
  | section :: rest =>
      if isTableSection section then
        let sectionIndex := sectionIndex + 1 in
        let sectionRows := childCount section in
        if 0 <? sectionRows then
          if prevSectionsRows + sectionRows <=? row then
            match rest with
            | [] => mkRowRef None (rPos + nodeSize section - 1) sectionIndex
            | _ => getRow_loop rest row (rPos + nodeSize section)
                     (prevSectionsRows + sectionRows) sectionIndex
            end
          else
            let '(node, pos) :=
              getRow_rows (children section) row prevSectionsRows 0 (rPos + 1) in
            mkRowRef node pos sectionIndex
        else getRow_loop rest row rPos prevSectionsRows sectionIndex
      else getRow_loop rest row (rPos + nodeSize section) prevSectionsRows sectionIndex
  end.

Definition getRow (table : Node) (row : Z) (offset : Z) : RowRef :=
  getRow_loop (children table) row offset 0 (-1).

Definition rowPos (table : Node) (row : Z) (pos : Z) : Z :=
  row_pos (getRow table row pos).

(** The inner loop of [rowAtPos]: [inl row] when the position falls in a
    row of the section, else the counters after the section's rows. *)
Fixpoint rowAtPos_rows (rows : list Node) (pos rpos row : Z) : Z + (Z * Z) :=
  match rows with
  | [] => inr (rpos, row)
  | x :: rest =>
      let rpos := rpos + nodeSize x in
      if pos <? rpos then inl row else rowAtPos_rows rest pos rpos (row + 1)
  end.

Fixpoint rowAtPos_loop (cs : list Node) (pos rpos row : Z) : Z :=
  match cs with
  | [] => row
  | section :: rest =>
      if isTableSection section then
        match rowAtPos_rows (children section) pos (rpos + 1) row with
        | inl found => found
        | inr (rpos, row) => rowAtPos_loop rest pos (rpos + 1) row
        end
      else rowAtPos_loop rest pos (rpos + nodeSize section) row
  end.

Definition rowAtPos (table : Node) (pos : Z) : Z :=
  rowAtPos_loop (children table) pos 0 0.

(** ** Results of code that may raise

    [Throw] is a raised exception, [Diverge] a loop that would not end
    (a span attribute below one makes some loops of the source stand
    still); the loops of the embedding carry fuel and report it. *)

Inductive Error :=
| RangeError (msg : string)
| TypeError (msg : string).

Inductive result (A : Type) :=
| Ok (a : A)
| Throw (e : Error)
| Diverge.
Arguments Ok {A} a.
Arguments Throw {A} e.
Arguments Diverge {A}.

Global Instance result_ret : MRet result := fun A a => Ok a.
Global Instance result_bind : MBind result := fun A B f m =>
  match m with
  | Ok a => f a
  | Throw e => Throw e
  | Diverge => Diverge
  end.

(** [x!] and property access on a value that may be null *)
Definition nonNull {A} (o : option A) : result A :=
  match o with
  | Some a => Ok a
  | None => Throw (TypeError "null")
  end.

(** ** Positions in the tree: [nodeAt] and resolved positions

    These follow the host's documented behaviour: [nodeAt] finds the
    node that starts at a position of the node's content, [resolve] the
    chain of ancestors of a position with, at each depth, the index of
    the child and the offset before it. *)

Fixpoint nodeAt_in (n : Node) (pos : Z) : result (option Node) :=
  match n with
  | Text _ | Leaf _ _ => Ok None
  | Elem _ _ c =>
      (fix find (l : list Node) (p : Z) : result (option Node) :=
         match l with
         | [] => if p =? 0 then Ok None else Throw (RangeError "Position outside of fragment")
         | x :: xs =>
             if p =? 0 then Ok (Some x)
             else if p <? nodeSize x then
               match x with
               | Text _ => Ok (Some x)
               | _ => nodeAt_in x (p - 1)
               end
             else find xs (p - nodeSize x)
         end) c pos
  end.

Definition nodeAt (n : Node) (pos : Z) : result (option Node) :=
  if pos <? 0 then Throw (RangeError "Position outside of fragment")
  else nodeAt_in n pos.

(** [map[i]] of a number array: [None] is [undefined]. *)
Definition arrayGet (l : list Z) (i : Z) : option Z :=
  if i <? 0 then None else l !! Z.to_nat i.

(** [table.nodeAt(map[i])]: an index outside the array gives
    [undefined], on which the host's lookup raises. *)
Definition nodeAtSlot (table : Node) (slot : option Z) : result (option Node) :=
  match slot with
  | Some pos => nodeAt table pos
  | None => Throw (RangeError "Index out of range")
  end.

Record ResolvedPos := mkResolvedPos {
  rp_pos : Z;
  rp_path : list (Node * Z * Z);
  rp_parentOffset : Z
}.

Fixpoint resolve_path (n : Node) (start parentOffset : Z) : list (Node * Z * Z) * Z :=
  match n with
  | Text _ | Leaf _ _ => ([], parentOffset)
  | Elem _ _ c =>
      (fix find (l : list Node) (i curPos : Z) : list (Node * Z * Z) * Z :=
         match l with
         | [] => ([(n, i, start + curPos)], parentOffset)
         | x :: xs =>
             let e := curPos + nodeSize x in
             if parentOffset <=? e then
               if e =? parentOffset then ([(n, i + 1, start + e)], parentOffset)
               else if parentOffset =? curPos then ([(n, i, start + curPos)], parentOffset)
               else
                 match x with
                 | Text _ => ([(n, i, start + curPos)], parentOffset)
                 | _ =>
                     let '(p, po) :=
                       resolve_path x (start + curPos + 1) (parentOffset - curPos - 1) in
                     ((n, i, start + curPos) :: p, po)
                 end
             else find xs (i + 1) e
         end) c 0 0
  end.

Definition resolve (doc : Node) (pos : Z) : result ResolvedPos :=
  if (0 <=? pos) && (pos <=? fragmentSize (children doc)) then
    let '(p, po) := resolve_path doc 0 pos in Ok (mkResolvedPos pos p po)
  else Throw (RangeError "Position out of range").

Definition rp_depth (r : ResolvedPos) : Z := Z.of_nat (length (rp_path r)) - 1.

(** [resolveDepth]: a negative depth counts from the position's own. *)
Definition resolveDepth (r : ResolvedPos) (d : Z) : Z :=
  if d <? 0 then rp_depth r + d else d.

Definition pathEntry (r : ResolvedPos) (d : Z) : option (Node * Z * Z) :=
  if d <? 0 then None else rp_path r !! Z.to_nat d.

(** [$pos.node(d)] *)
Definition rp_node (r : ResolvedPos) (d : Z) : option Node :=
  fst ∘ fst <$> pathEntry r (resolveDepth r d).

(** [$pos.index(d)] *)
Definition rp_index (r : ResolvedPos) (d : Z) : option Z :=
  snd ∘ fst <$> pathEntry r (resolveDepth r d).

(** [$pos.start(d)] *)
Definition rp_start (r : ResolvedPos) (d : Z) : option Z :=
  let d := resolveDepth r d in
  if d =? 0 then Some 0 else (fun e => snd e + 1) <$> pathEntry r (d - 1).

(** [$pos.before(d)] *)
Definition rp_before (r : ResolvedPos) (d : Z) : result Z :=
  let d := resolveDepth r d in
  if d =? 0 then Throw (RangeError "There is no position before the top-level node")
  else if d =? rp_depth r + 1 then Ok (rp_pos r)
  else nonNull (snd <$> pathEntry r (d - 1)).

Definition childAt (n : Node) (i : Z) : option Node :=
  if i <? 0 then None else children n !! Z.to_nat i.

Definition lastEntry (r : ResolvedPos) : option (Node * Z * Z) :=
  pathEntry r (rp_depth r).

(** [$pos.nodeAfter]; inside a text node it is the rest of the text. *)
Definition rp_nodeAfter (r : ResolvedPos) : option Node :=
  match lastEntry r with
  | Some (parent, index, offset) =>
      match childAt parent index with
      | Some child =>
          let dOff := rp_pos r - offset in
          if dOff =? 0 then Some child else Some (Text (nodeSize child - dOff))
      | None => None
      end
  | None => None
  end.

(** [$pos.nodeBefore] *)
Definition rp_nodeBefore (r : ResolvedPos) : option Node :=
  match lastEntry r with
  | Some (parent, index, offset) =>
      let dOff := rp_pos r - offset in
      if dOff =? 0 then childAt parent (index - 1) else Some (Text dOff)
  | None => None
  end.

Definition firstChild (n : Node) : option Node := head (children n).
Definition lastChild (n : Node) : option Node := last (children n).

(** ** Selections and the editor state

    Every selection has an anchor and a head; a cell selection also has
    the resolved positions of its anchor and head cells, a node
    selection its node. *)

Inductive Selection :=
| CellSelection (anchor head anchorCell headCell : ResolvedPos)
| NodeSelection (anchor head : ResolvedPos) (node : Node)
| OtherSelection (anchor head : ResolvedPos).

Definition sel_anchor (s : Selection) : ResolvedPos :=
  match s with
  | CellSelection a _ _ _ | NodeSelection a _ _ | OtherSelection a _ => a
  end.

Definition sel_head (s : Selection) : ResolvedPos :=
  match s with
  | CellSelection _ h _ _ | NodeSelection _ h _ | OtherSelection _ h => h
  end.

(** [sel.$from]: the lower end of the first range. *)
Definition sel_from (s : Selection) : ResolvedPos :=
  if rp_pos (sel_anchor s) <? rp_pos (sel_head s) then sel_anchor s else sel_head s.

Record EditorState := mkEditorState {
  doc : Node;
  selection : Selection
}.

(** [$pos.node(d).type.spec.tableRole]; raises when there is no node. *)
Definition roleAt (r : ResolvedPos) (d : Z) : result (option TableRole) :=
  n ← nonNull (rp_node r d); Ok (role n).

Definition isRole (o : option TableRole) (x : TableRole) : bool :=
  bool_decide (o = Some x).

Definition isCellRole (o : option TableRole) : bool :=
  isRole o Rcell || isRole o Rheader_cell.

(** ** Finding the cell of a position ([cellAround], [cellWrapping],
    [isInTable], [cellNear], [selectionCell]) *)

Fixpoint cellAround_loop (p : ResolvedPos) (d : nat) : result (option ResolvedPos) :=
  match d with
  | O => Ok None
  | S d' =>
      r ← roleAt p (Z.of_nat d);
      if isRole r Rrow then
        top ← nonNull (rp_node p 0);
        b ← rp_before p (Z.of_nat d + 1);
        c ← resolve top b;
        Ok (Some c)
      else cellAround_loop p d'
  end.

Definition cellAround (p : ResolvedPos) : result (option ResolvedPos) :=
  cellAround_loop p (Z.to_nat (rp_depth p - 1)).

Fixpoint cellWrapping_loop (p : ResolvedPos) (d : nat) : result (option Node) :=
  match d with
  | O => Ok None
  | S d' =>
      r ← roleAt p (Z.of_nat d);
      if isCellRole r then Ok (rp_node p (Z.of_nat d))
      else cellWrapping_loop p d'
  end.

Definition cellWrapping (p : ResolvedPos) : result (option Node) :=
  cellWrapping_loop p (Z.to_nat (rp_depth p)).

Fixpoint isInTable_loop (p : ResolvedPos) (d : nat) : result bool :=
  match d with
  | O => Ok false
  | S d' =>
      r ← roleAt p (Z.of_nat d);
      if isRole r Rrow then Ok true else isInTable_loop p d'
  end.

Definition isInTable (state : EditorState) : result bool :=
  let head := sel_head (selection state) in
  isInTable_loop head (Z.to_nat (rp_depth head)).

(** The two loops of [cellNear] walk down the first (last) children of
    the node after (before) the position. *)
Fixpoint cellNear_after (fuel : nat) (after : option Node) (pos : Z) : option Z :=
  match after, fuel with
  | None, _ => None
  | Some a, O => None
  | Some a, S fuel' =>
      if isCellRole (role a) then Some pos
      else cellNear_after fuel' (firstChild a) (pos + 1)
  end.

Fixpoint cellNear_before (fuel : nat) (before : option Node) (pos : Z) : option Z :=
  match before, fuel with
  | None, _ => None
  | Some b, O => None
  | Some b, S fuel' =>
      if isCellRole (role b) then Some (pos - nodeSize b)
      else cellNear_before fuel' (lastChild b) (pos - 1)
  end.

(** The depth of a tree bounds the walks of [cellNear]. *)
Fixpoint nodeDepth (n : Node) : nat :=
  match n with
  | Text _ | Leaf _ _ => 1%nat
  | Elem _ _ c =>
      S ((fix deepest (l : list Node) : nat :=
            match l with
            | [] => O
            | x :: xs => Nat.max (nodeDepth x) (deepest xs)
            end) c)
  end.

Definition optDepth (o : option Node) : nat :=
  match o with Some n => nodeDepth n | None => O end.

Definition cellNear (p : ResolvedPos) : result (option ResolvedPos) :=
  let resolved (pos : Z) : result (option ResolvedPos) :=
    top ← nonNull (rp_node p 0); c ← resolve top pos; Ok (Some c) in
  match cellNear_after (optDepth (rp_nodeAfter p)) (rp_nodeAfter p) (rp_pos p) with
  | Some pos => resolved pos
  | None =>
      match cellNear_before (optDepth (rp_nodeBefore p)) (rp_nodeBefore p) (rp_pos p) with
      | Some pos => resolved pos
      | None => Ok None
      end
  end.

Definition selectionCell (state : EditorState) : result ResolvedPos :=
  match selection state with
  | CellSelection _ _ anchorCell headCell =>
      Ok (if rp_pos headCell <? rp_pos anchorCell then anchorCell else headCell)
  | sel =>
      let fallback :=
        around ← cellAround (sel_head sel);
        found ← match around with
                | Some c => Ok (Some c)
                | None => cellNear (sel_head sel)
                end;
        match found with
        | Some c => Ok c
        | None => Throw (RangeError "No cell found around position")
        end in
      match sel with
      | NodeSelection anchor _ node =>
          if isRole (role node) Rcell then Ok anchor else fallback
      | _ => fallback
      end
  end.

(** ** The grid map

    [TableMap] is the grid view of a table: [map] holds, row by row, for
    each slot the offset (from the table start) of the cell that covers
    it; [sectionRows] the row count of each section. *)

Record Rect := mkRect {
  left : Z;
  top : Z;
  right : Z;
  bottom : Z
}.

Record TableMap := mkTableMap {
  width : Z;
  height : Z;
  map : list Z;
  sectionRows : list Z
}.

Record TableRect := mkTableRect {
  rect : Rect;
  tableStart : Z;
  tmap : TableMap;
  table : Node
}.

Definition slot (m : TableMap) (index : Z) : option Z := arrayGet (map m) index.

(** JavaScript's [a == b] on two array reads: [undefined] equals only
    [undefined]. *)
Definition sameSlot (a b : option Z) : bool := bool_decide (a = b).

(** Modelled from the spec: [TableMap.findCell], the grid-map module is
    not part of the sources at hand. The rectangle of the cell at an
    offset: its first slot in the map, extended right and down while the
    slots hold the same offset; no slot with that offset is an error. *)
Fixpoint firstIndex (l : list Z) (pos : Z) (i : Z) : option Z :=
  match l with
  | [] => None
  | x :: xs => if x =? pos then Some i else firstIndex xs pos (i + 1)
  end.

Fixpoint extend (fuel : nat) (holds : Z -> bool) (i : Z) : Z :=
  match fuel with
  | O => i
  | S fuel' => if holds i then extend fuel' holds (i + 1) else i
  end.

Definition findCell (m : TableMap) (pos : Z) : result Rect :=
  match firstIndex (map m) pos 0 with
  | None => Throw (RangeError "No cell with offset found")
  | Some i =>
      let l := i mod width m in
      let t := i / width m in
      let r := extend (Z.to_nat (width m)) (fun c =>
                 (c <? width m) && sameSlot (slot m (t * width m + c)) (Some pos)) (l + 1) in
      let b := extend (Z.to_nat (height m)) (fun w =>
                 (w <? height m) && sameSlot (slot m (w * width m + l)) (Some pos)) (t + 1) in
      Ok (mkRect l t r b)
  end.

(** Modelled from the spec: [TableMap.rectBetween], the bounding box of
    the rectangles of the two cells. *)
Definition rectBetween (m : TableMap) (a b : Z) : result Rect :=
  ra ← findCell m a;
  rb ← findCell m b;
  Ok (mkRect (Z.min (left ra) (left rb)) (Z.min (top ra) (top rb))
             (Z.max (right ra) (right rb)) (Z.max (bottom ra) (bottom rb))).

(** The integers [from], [from + 1], ..., below [to]. *)
Definition range (from to : Z) : list Z :=
  (fun i => from + Z.of_nat i) <$> seq 0 (Z.to_nat (to - from)).

(** Modelled from the spec: [TableMap.cellsInRect], the offsets of the
    cells whose top-left slot lies in the rectangle, in row-major order,
    each once. *)
Definition isAnchor (m : TableMap) (row col : Z) : bool :=
  let index := row * width m + col in
  negb ((0 <? col) && sameSlot (slot m (index - 1)) (slot m index)) &&
  negb ((0 <? row) && sameSlot (slot m (index - width m)) (slot m index)).

Fixpoint dedup (seen : list Z) (l : list Z) : list Z :=
  match l with
  | [] => []
  | x :: xs =>
      if bool_decide (x ∈ seen) then dedup seen xs else x :: dedup (x :: seen) xs
  end.

Definition cellsInRect (m : TableMap) (r : Rect) : list Z :=
  dedup []
    (row ← range (top r) (bottom r);
     col ← range (left r) (right r);
     if isAnchor m row col
     then match slot m (row * width m + col) with Some p => [p] | None => [] end
     else []).

(** The index of the section that holds a row, from the row counts. *)
Fixpoint sectionOfRow (counts : list Z) (row : Z) (s : Z) : Z :=
  match counts with
  | [] => s
  | c :: rest => if row <? c then s else sectionOfRow rest (row - c) (s + 1)
  end.

(** Modelled from the spec: [TableMap.rectOverOneSection], true when all
    rows of the rectangle belong to the same section. *)
Definition rectOverOneSection (m : TableMap) (r : Rect) : bool :=
  sectionOfRow (sectionRows m) (top r) 0 =? sectionOfRow (sectionRows m) (bottom r - 1) 0.

(** Modelled from the spec: [TableMap.get], the grid-map builder. The
    sections are walked in order and the cells of each row from left to
    right; a per-column counter tracks the columns still claimed by a
    rowspan from an earlier row, and a cell writes its offset into every
    slot of its footprint. The width is the longest row, the height the
    total of the sections' row counts. *)
Fixpoint rowCells (cells : list Node) (pos : Z) : list (Z * Node) :=
  match cells with
  | [] => []
  | c :: cs => (pos, c) :: rowCells cs (pos + nodeSize c)
  end.

Fixpoint sectionCells (rows : list Node) (pos : Z) : list (list (Z * Node)) :=
  match rows with
  | [] => []
  | r :: rs => rowCells (children r) (pos + 1) :: sectionCells rs (pos + nodeSize r)
  end.

Fixpoint tableCells (cs : list Node) (pos : Z) : list (list (Z * Node)) :=
  match cs with
  | [] => []
  | s :: rest =>
      (if isTableSection s then sectionCells (children s) (pos + 1) else [])
        ++ tableCells rest (pos + nodeSize s)
  end.

(** One row of the walk: [open] holds per column the number of rows the
    column is still claimed for and the offset of the claiming cell. *)
Fixpoint placeRow (cells : list (Z * Node)) (open : list (Z * Z)) : list (Z * Z) :=
  match cells with
  | [] => open
  | (off, c) :: rest =>
      let placed := replicate (Z.to_nat (colspan (nodeAttrs c))) (rowspan (nodeAttrs c), off) in
      (fix skip (open : list (Z * Z)) : list (Z * Z) :=
         match open with
         | [] => placed ++ placeRow rest []
         | (claimed, o) :: open' =>
             if 0 <? claimed then (claimed, o) :: skip open'
             else placed ++ placeRow rest (drop (length placed) open)
         end) open
  end.

Definition nextOpen (st : list (Z * Z)) : list (Z * Z) :=
  (fun e => if 1 <? fst e then (fst e - 1, snd e) else (0, 0)) <$> st.

Fixpoint placeRows (rows : list (list (Z * Node))) (open : list (Z * Z)) : list (list Z) :=
  match rows with
  | [] => []
  | r :: rs =>
      let st := placeRow r open in
      (snd <$> st) :: placeRows rs (nextOpen st)
  end.

Definition padRow (w : Z) (r : list Z) : list Z :=
  take (Z.to_nat w) (r ++ replicate (Z.to_nat w) 0).

Definition TableMap_get (table : Node) : TableMap :=
  let rows := placeRows (tableCells (children table) 0) [] in
  let w := foldr Z.max 0 ((fun r => Z.of_nat (length r)) <$> rows) in
  let counts := childCount <$> filter (fun n => Is_true (isTableSection n)) (children table) in
  mkTableMap w (foldr Z.add 0 counts) (concat (padRow w <$> rows)) counts.

(** ** Transactions

    A transaction is the ordered log of the mutations queued so far and
    the selection set last. A step of the log is the call as it is
    written, and positions are mapped through the range of the call. The
    host records a call after fitting it to the document: over a
    well-nested range the recorded step is the call and the maps agree;
    the deletion of [removeRow], which stops before the closing token of
    the row, is recorded by the host over the whole row, one token more
    than the log maps. The statements below name no position mapped
    through such a call. *)

Inductive Step :=
| StepInsert (pos : Z) (node : Node)
| StepDelete (from to : Z)
| StepReplaceWith (from to : Z) (content : list Node)
| StepSetNodeMarkup (pos : Z) (type : option NodeType) (attrs : Attrs).

Inductive SelectionSpec :=
| SelectNode (pos : Z)
| SelectCells (anchorCell : Z) (headCell : option Z)
| SelectTextBetween (a b : Z).

Record Transaction := mkTransaction {
  steps : list Step;
  tr_selection : option SelectionSpec;
  scrolledIntoView : bool
}.

Definition emptyTr : Transaction := mkTransaction [] None false.

Definition addStep (tr : Transaction) (s : Step) : Transaction :=
  mkTransaction (steps tr ++ [s]) (tr_selection tr) (scrolledIntoView tr).

Definition setSelection (tr : Transaction) (s : SelectionSpec) : Transaction :=
  mkTransaction (steps tr) (Some s) (scrolledIntoView tr).

(** The replaced range of a step: start, old size, new size. A markup
    change replaces the two tokens of a node by two tokens. *)
Definition stepRange (s : Step) : option (Z * Z * Z) :=
  match s with
  | StepInsert pos node => Some (pos, 0, nodeSize node)
  | StepDelete from to => Some (from, to - from, 0)
  | StepReplaceWith from to content => Some (from, to - from, fragmentSize content)
  | StepSetNodeMarkup _ _ _ => None
  end.

Definition mapThroughStep (assoc : Z) (pos : Z) (s : Step) : Z :=
  match stepRange s with
  | None => pos
  | Some (start, oldSize, newSize) =>
      if pos <? start then pos
      else if start + oldSize <? pos then pos + (newSize - oldSize)
      else
        let side :=
          if oldSize =? 0 then assoc
          else if pos =? start then -1
          else if pos =? start + oldSize then 1
          else assoc in
        start + (if side <? 0 then 0 else newSize)
  end.

(** [tr.mapping.slice(from).map(pos, assoc)] *)
Definition mappingMap (tr : Transaction) (from : nat) (pos : Z) (assoc : Z) : Z :=
  fold_left (mapThroughStep assoc) (drop from (steps tr)) pos.

(** ** What the commands take from their collaborators

    The schema's node types by role, node creation and the document
    after the queued steps belong to the host; [colCount], [positionAt],
    [isRowLastInSection] and the enumeration of the cells of a cell
    selection are functions of this library whose sources are not at
    hand; [strictEq] is JavaScript's [===] on attribute values (identity
    on arrays, which the values here do not carry). The commands are
    written against this interface. *)

Class Collaborators := {
  tableNodeTypes : TableRole -> option NodeType;
  createAndFill : NodeType -> option Attrs -> option Node;
  defaultAttrs : NodeType -> Attrs;
  docAfter : Node -> list Step -> result Node;
  colCount : TableMap -> Z -> result Z;
  positionAt : TableMap -> Z -> Z -> Node -> result Z;
  isRowLastInSection : Node -> Z -> bool;
  forEachCell : EditorState -> list (Node * Z);
  strictEq : Value -> Value -> bool
}.

(** ** The commands ([src/commands.ts])

    A command takes the state and whether a dispatch callback was
    supplied; it returns its boolean and the transaction it handed to the
    callback, if it called it. *)

Definition Outcome : Type := bool * option Transaction.

Definition refuse : result Outcome := Ok (false, None).
Definition accept : result Outcome := Ok (true, None).
Definition dispatched (tr : Transaction) : result Outcome := Ok (true, Some tr).

Section Commands.
Context `{Collaborators}.

Definition selectedRect (state : EditorState) : result TableRect :=
  let sel := selection state in
  p ← selectionCell state;
  table ← nonNull (rp_node p (-2));
  tableStart ← nonNull (rp_start p (-2));
  let map := TableMap_get table in
  rect ← match sel with
         | CellSelection _ _ anchorCell headCell =>
             rectBetween map (rp_pos anchorCell - tableStart) (rp_pos headCell - tableStart)
         | _ => findCell map (rp_pos p - tableStart)
         end;
  Ok (mkTableRect rect tableStart map table).

(** [table.nodeAt(map.map[i])!]: the node of a slot, raising when there
    is none. *)
Definition cellAtSlot (table : Node) (m : TableMap) (index : Z) : result Node :=
  o ← nodeAtSlot table (slot m index); nonNull o.

Definition isType (t : NodeType) (o : option NodeType) : bool :=
  bool_decide (Some t = o).

Fixpoint columnIsHeader_loop (m : TableMap) (table : Node) (col : Z)
    (rows : list Z) : result bool :=
  match rows with
  | [] => Ok true
  | row :: rest =>
      c ← cellAtSlot table m (col + row * width m);
      if negb (isType (nodeType c) (tableNodeTypes Rheader_cell)) then Ok false
      else columnIsHeader_loop m table col rest
  end.

Definition columnIsHeader (m : TableMap) (table : Node) (col : Z) : result bool :=
  columnIsHeader_loop m table col (range 0 (height m)).

(** The loop of [addColumn] from [row] on; [refColumn] is [None] for
    [null]. A row inside a column-spanning cell widens it and skips the
    rows it spans, any other row gets a new cell. *)
Fixpoint addColumn_loop (fuel : nat) (tr : Transaction) (r : TableRect)
    (col : Z) (refColumn : option Z) (row : Z) : result Transaction :=
  let m := tmap r in
  if height m <=? row then Ok tr
  else
    match fuel with
    | O => Diverge
    | S fuel' =>
        let index := row * width m + col in
        if (0 <? col) && (col <? width m)
           && sameSlot (slot m (index - 1)) (slot m index) then
          cell ← cellAtSlot (table r) m index;
          pos ← nonNull (slot m index);
          cc ← colCount m pos;
          let tr := addStep tr
            (StepSetNodeMarkup (mappingMap tr 0 (tableStart r + pos) 1) None
               (addColSpan (nodeAttrs cell) (col - cc) 1)) in
          addColumn_loop fuel' tr r col refColumn (row + (rowspan (nodeAttrs cell) - 1) + 1)
        else
          type ← match refColumn with
                 | None => nonNull (tableNodeTypes Rcell)
                 | Some ref => c ← cellAtSlot (table r) m (index + ref); Ok (nodeType c)
                 end;
          pos ← positionAt m row col (table r);
          node ← nonNull (createAndFill type None);
          let tr := addStep tr (StepInsert (mappingMap tr 0 (tableStart r + pos) 1) node) in
          addColumn_loop fuel' tr r col refColumn (row + 1)
    end.

Definition addColumn_refColumn (r : TableRect) (col : Z) : result (option Z) :=
  let refColumn := if 0 <? col then -1 else 0 in
  hdr ← columnIsHeader (tmap r) (table r) (col + refColumn);
  if (hdr : bool) then
    Ok (if (col =? 0) || (col =? width (tmap r)) then None else Some 0)
  else Ok (Some refColumn).

Definition addColumn (tr : Transaction) (r : TableRect) (col : Z) : result Transaction :=
  refColumn ← addColumn_refColumn r col;
  addColumn_loop (Z.to_nat (height (tmap r))) tr r col refColumn 0.

Definition addColumnBefore (state : EditorState) (dispatch : bool) : result Outcome :=
  inTable ← isInTable state;
  if negb inTable then refuse
  else if dispatch then
    r ← selectedRect state;
    tr ← addColumn emptyTr r (left (rect r));
    dispatched tr
  else accept.

Definition addColumnAfter (state : EditorState) (dispatch : bool) : result Outcome :=
  inTable ← isInTable state;
  if negb inTable then refuse
  else if dispatch then
    r ← selectedRect state;
    tr ← addColumn emptyTr r (right (rect r));
    dispatched tr
  else accept.

(** The loop of [removeColumn]; [mapStart] is the number of steps the
    transaction had on entry. Each turn moves down by the rowspan of the
    cell it met, so the height bounds the turns when spans are at least
    one. *)
Fixpoint removeColumn_loop (fuel : nat) (tr : Transaction) (r : TableRect)
    (col : Z) (mapStart : nat) (row : Z) : result Transaction :=
  let m := tmap r in
  if height m <=? row then Ok tr
  else
    match fuel with
    | O => Diverge
    | S fuel' =>
        let index := row * width m + col in
        cell ← cellAtSlot (table r) m index;
        pos ← nonNull (slot m index);
        let attrs := nodeAttrs cell in
        tr ← (if ((0 <? col) && sameSlot (slot m (index - 1)) (Some pos))
                 || ((col <? width m - 1) && sameSlot (slot m (index + 1)) (Some pos)) then
                cc ← colCount m pos;
                Ok (addStep tr
                      (StepSetNodeMarkup (mappingMap tr mapStart (tableStart r + pos) 1) None
                         (removeColSpan attrs (col - cc) 1)))
              else
                let start := mappingMap tr mapStart (tableStart r + pos) 1 in
                Ok (addStep tr (StepDelete start (start + nodeSize cell))));
        removeColumn_loop fuel' tr r col mapStart (row + rowspan attrs)
    end.

Definition removeColumn (tr : Transaction) (r : TableRect) (col : Z) : result Transaction :=
  removeColumn_loop (Z.to_nat (height (tmap r))) tr r col (length (steps tr)) 0.

(** [tr.doc.nodeAt(tableStart - 1)], or the document itself when the
    table starts at 0; no node there is the "No table found" error. *)
Definition tableAfter (state : EditorState) (tr : Transaction) (tableStart : Z)
  : result Node :=
  d ← docAfter (doc state) (steps tr);
  if tableStart =? 0 then Ok d
  else
    o ← nodeAt d (tableStart - 1);
    match o with
    | Some t => Ok t
    | None => Throw (RangeError "No table found")
    end.

(** The loop of [deleteColumn] from column [i] down to the left edge of
    the rectangle, with the table and its map read again from the
    document after each column; a rectangle has its left edge before
    its right one, which bounds the turns. *)
Fixpoint deleteColumn_loop (fuel : nat) (state : EditorState) (tr : Transaction)
    (r : TableRect) (i : Z) : result Transaction :=
  match fuel with
  | O => Diverge
  | S fuel' =>
      tr ← removeColumn tr r i;
      if i =? left (rect r) then Ok tr
      else
        table ← tableAfter state tr (tableStart r);
        deleteColumn_loop fuel' state tr
          (mkTableRect (rect r) (tableStart r) (TableMap_get table) table) (i - 1)
  end.

Definition deleteColumn (state : EditorState) (dispatch : bool) : result Outcome :=
  inTable ← isInTable state;
  if negb inTable then refuse
  else if dispatch then
    r ← selectedRect state;
    if (left (rect r) =? 0) && (right (rect r) =? width (tmap r)) then refuse
    else
      tr ← deleteColumn_loop (Z.to_nat (right (rect r) - left (rect r))) state emptyTr r
             (right (rect r) - 1);
      dispatched tr
  else accept.

Fixpoint rowIsHeader_loop (m : TableMap) (table : Node) (row : Z)
    (cols : list Z) : result bool :=
  match cols with
  | [] => Ok true
  | col :: rest =>
      o ← nodeAtSlot table (slot m (col + row * width m));
      if negb (bool_decide (nodeType <$> o = tableNodeTypes Rheader_cell)) then Ok false
      else rowIsHeader_loop m table row rest
  end.

Definition rowIsHeader (m : TableMap) (table : Node) (row : Z) : result bool :=
  rowIsHeader_loop m table row (range 0 (width m)).

(** The in-place update of [map.sectionRows] in [addRow]: the count of
    the first section whose running total exceeds [row], or of the last
    section, goes up by one. *)
Fixpoint bumpSectionRows (srows : list Z) (row acc : Z) : list Z :=
  match srows with
  | [] => []
  | c :: rest =>
      let acc := acc + c in
      if (row <? acc) || bool_decide (rest = []) then (c + 1) :: rest
      else c :: bumpSectionRows rest row acc
  end.

(** The loop of [addRow] over the columns; [index] advances by one per
    turn also when [col] jumps over a spanning cell, as in the source. *)
Fixpoint addRow_loop (fuel : nat) (tr : Transaction) (r : TableRect) (row : Z)
    (refRow : option Z) (col index : Z) (cells : list Node)
  : result (Transaction * list Node) :=
  let m := tmap r in
  if width m <=? col then Ok (tr, cells)
  else
    match fuel with
    | O => Diverge
    | S fuel' =>
        if (0 <? row) && (row <? height m)
           && sameSlot (slot m index) (slot m (index - width m)) then
          cell ← cellAtSlot (table r) m index;
          pos ← nonNull (slot m index);
          let attrs := nodeAttrs cell in
          let tr := addStep tr
            (StepSetNodeMarkup (tableStart r + pos) None
               (<["rowspan" := VNum (rowspan attrs + 1)]> attrs)) in
          addRow_loop fuel' tr r row refRow (col + (colspan attrs - 1) + 1) (index + 1) cells
        else
          type ← match refRow with
                 | None => Ok (tableNodeTypes Rcell)
                 | Some ref =>
                     o ← nodeAtSlot (table r) (slot m (index + ref * width m));
                     Ok (nodeType <$> (o : option Node))
                 end;
          let node := t ← type; createAndFill t None in
          let cells := match node with Some n => cells ++ [n] | None => cells end in
          addRow_loop fuel' tr r row refRow (col + 1) (index + 1) cells
    end.

Definition addRow_refRow (r : TableRect) (row : Z) : result (option Z) :=
  let refRow := if 0 <? row then -1 else 0 in
  hdr ← rowIsHeader (tmap r) (table r) (row + refRow);
  if (hdr : bool) then
    Ok (if (row =? 0) || (row =? height (tmap r)) then None else Some 0)
  else Ok (Some refRow).

(** Where [addRow] inserts the row. *)
Definition addRow_pos (r : TableRect) (row : Z) : Z :=
  let rPos := rowPos (table r) row 0 + tableStart r in
  if (bottom (rect r) =? row) && isRowLastInSection (table r) (row - 1)
  then rPos - 2 else rPos.

(** [addRow] returns the transaction; the second component is the grid
    map of the rectangle after the in-place update of its [sectionRows]. *)
Definition addRow (tr : Transaction) (r : TableRect) (row : Z)
  : result (Transaction * TableMap) :=
  let m := tmap r in
  let rPos := addRow_pos r row in
  refRow ← addRow_refRow r row;
  let m' := mkTableMap (width m) (height m) (map m) (bumpSectionRows (sectionRows m) row 0) in
  '(tr, cells) ← addRow_loop (Z.to_nat (width m)) tr r row refRow 0 (width m * row) [];
  rowType ← nonNull (tableNodeTypes Rrow);
  Ok (addStep tr (StepInsert rPos (Elem rowType (defaultAttrs rowType) cells)), m').

Definition addRowBefore (state : EditorState) (dispatch : bool) : result Outcome :=
  inTable ← isInTable state;
  if negb inTable then refuse
  else if dispatch then
    r ← selectedRect state;
    '(tr, _) ← addRow emptyTr r (top (rect r));
    dispatched tr
  else accept.

Definition addRowAfter (state : EditorState) (dispatch : bool) : result Outcome :=
  inTable ← isInTable state;
  if negb inTable then refuse
  else if dispatch then
    r ← selectedRect state;
    '(tr, _) ← addRow emptyTr r (bottom (rect r));
    dispatched tr
  else accept.

(** The loop of [removeRow] over the columns of the removed row: a cell
    that starts above loses one from its rowspan, a cell that goes on
    below is copied to the next row. *)
Fixpoint removeRow_loop (fuel : nat) (tr : Transaction) (r : TableRect) (row : Z)
    (mapFrom : nat) (col index : Z) : result Transaction :=
  let m := tmap r in
  if width m <=? col then Ok tr
  else
    match fuel with
    | O => Diverge
    | S fuel' =>
        let pos := slot m index in
        if (0 <? row) && sameSlot pos (slot m (index - width m)) then
          cell ← cellAtSlot (table r) m index;
          p ← nonNull pos;
          let attrs := nodeAttrs cell in
          let tr := addStep tr
            (StepSetNodeMarkup (mappingMap tr mapFrom (p + tableStart r) 1) None
               (<["rowspan" := VNum (rowspan attrs - 1)]> attrs)) in
          removeRow_loop fuel' tr r row mapFrom (col + (colspan attrs - 1) + 1) (index + 1)
        else if (row <? height m) && sameSlot pos (slot m (index + width m)) then
          cell ← cellAtSlot (table r) m index;
          let attrs := nodeAttrs cell in
          let copy := Elem (nodeType cell)
                        (<["rowspan" := VNum (rowspan attrs - 1)]> attrs) (children cell) in
          newPos ← positionAt m (row + 1) col (table r);
          let tr := addStep tr
            (StepInsert (mappingMap tr mapFrom (tableStart r + newPos) 1) copy) in
          removeRow_loop fuel' tr r row mapFrom (col + (colspan attrs - 1) + 1) (index + 1)
        else removeRow_loop fuel' tr r row mapFrom (col + 1) (index + 1)
    end.

Definition removeRow (tr : Transaction) (r : TableRect) (row : Z) : result Transaction :=
  let found := getRow (table r) row 0 in
  let mapFrom := length (steps tr) in
  let from := row_pos found + tableStart r in
  rNode ← nonNull (row_node found);
  let to := from + nodeSize rNode - 1 in
  let tr := addStep tr (StepDelete from to) in
  removeRow_loop (Z.to_nat (width (tmap r))) tr r row mapFrom 0 (row * width (tmap r)).

(** The loop of [removeSection]: [s] counts the sections met, [pos] the
    tokens passed. *)
Fixpoint removeSection_loop (tr : Transaction) (tableStart : Z) (section : Z)
    (cs : list Node) (pos s : Z) : Transaction :=
  match cs with
  | [] => tr
  | child :: rest =>
      let s := if isTableSection child then s + 1 else s in
      if isTableSection child && (s =? section) then
        addStep tr (StepDelete (tableStart + pos) (tableStart + pos + nodeSize child))
      else removeSection_loop tr tableStart section rest (pos + nodeSize child) s
  end.

Definition removeSection (tr : Transaction) (r : TableRect) (section : Z) : Transaction :=
  removeSection_loop tr (tableStart r) section (children (table r)) 0 (-1).

(** [sectionBottom] of [deleteRow]: the running totals of the row
    counts, [[0]] for a table without sections. *)
Fixpoint runningTotals (l : list Z) (acc : Z) : list Z :=
  match l with
  | [] => []
  | x :: xs => (acc + x) :: runningTotals xs (acc + x)
  end.

Definition sectionBottoms (sectionRows : list Z) : list Z :=
  match sectionRows with
  | [] => [0]
  | _ => runningTotals sectionRows 0
  end.

(** [while (s > 0 && sectionBottom[s] > rect.bottom) s--] *)
Fixpoint lastSectionAbove (fuel : nat) (sectionBottom : list Z) (bottom s : Z) : Z :=
  match fuel with
  | O => s
  | S fuel' =>
      match arrayGet sectionBottom s with
      | Some sb =>
          if (0 <? s) && (bottom <? sb) then lastSectionAbove fuel' sectionBottom bottom (s - 1)
          else s
      | None => s
      end
  end.

(** The loop of [deleteRow] from row [i] up to the top of the
    rectangle: a section whose rows all fall in the rectangle goes as a
    whole, any other row alone. [sectionRows] and [sectionBottom] are
    those of the map the command started with. *)
Fixpoint deleteRow_loop (fuel : nat) (state : EditorState) (tr : Transaction)
    (r : TableRect) (sectionRows sectionBottom : list Z) (s i : Z)
  : result Transaction :=
  match fuel with
  | O => Diverge
  | S fuel' =>
      let whole :=
        match arrayGet sectionBottom s, arrayGet sectionRows s with
        | Some sb, Some sr =>
            let firstRowOfSection := sb - sr in
            if (i + 1 =? sb) && (top (rect r) <=? firstRowOfSection)
            then Some firstRowOfSection else None
        | _, _ => None
        end in
      '(tr, i, s) ← match whole with
                    | Some firstRowOfSection =>
                        Ok (removeSection tr r s, firstRowOfSection, s - 1)
                    | None => tr ← removeRow tr r i; Ok (tr, i, s)
                    end;
      if i <=? top (rect r) then Ok tr
      else
        table ← tableAfter state tr (tableStart r);
        deleteRow_loop fuel' state tr
          (mkTableRect (rect r) (tableStart r) (TableMap_get table) table)
          sectionRows sectionBottom s (i - 1)
  end.

Definition deleteRow (state : EditorState) (dispatch : bool) : result Outcome :=
  inTable ← isInTable state;
  if negb inTable then refuse
  else if dispatch then
    r ← selectedRect state;
    if (top (rect r) =? 0) && (bottom (rect r) =? height (tmap r)) then refuse
    else
      let sectionRows := sectionRows (tmap r) in
      let sectionBottom := sectionBottoms sectionRows in
      let last := Z.of_nat (length sectionRows) - 1 in
      let s := lastSectionAbove (length sectionRows) sectionBottom (bottom (rect r)) last in
      tr ← deleteRow_loop
             (Z.to_nat (bottom (rect r) - top (rect r)) + length sectionRows + 1)
             state emptyTr r sectionRows sectionBottom s (bottom (rect r) - 1);
      dispatched tr
  else accept.

(** [node.copy(content)] *)
Definition copyNode (n : Node) (content : list Node) : Node :=
  Elem (nodeType n) (nodeAttrs n) content.

Definition fixRowCells (row : Node) (headerCellType : NodeType) : Node :=
  copyNode row
    ((fun cell =>
        if isRole (role cell) Rheader_cell then cell
        else Elem headerCellType (nodeAttrs cell) (children cell)) <$> children row).

(** The variables of the loop of [makeSection]. *)
Record SectionAcc := mkSectionAcc {
  newTableContents : list Node;
  refSection : option Node;
  rowIndex : Z;
  inSelection : bool;
  accSectionRows : list Node
}.

(** The inner loop of [makeSection] over the rows of a section that
    overlaps the selection; [ref] is [refSection], set by then. *)
Fixpoint makeSection_rows (sectionRole : TableRole) (newSectionType : NodeType)
    (fixCellsType : option NodeType) (top bottom : Z) (section : Node)
    (rows : list Node) (j : Z) (contents : list Node) (ref : Node)
    (rowIndex : Z) (inSel : bool) (acc : list Node)
  : list Node * Node * bool * list Node :=
  match rows with
  | [] => (contents, ref, inSel, acc)
  | child :: rest =>
      let starts := rowIndex + j =? top in
      let contents := if starts && (0 <? Z.of_nat (length acc))
                      then contents ++ [copyNode ref acc] else contents in
      let acc := if starts && (0 <? Z.of_nat (length acc)) then [] else acc in
      let inSel := if starts then true else inSel in
      let row := match inSel, fixCellsType with
                 | true, Some headerCell => fixRowCells child headerCell
                 | _, _ => child
                 end in
      let acc := acc ++ [row] in
      if rowIndex + j =? bottom - 1 then
        let ref := if negb (isRole (role ref) sectionRole) then section else ref in
        let newSection :=
          if negb (isRole (role ref) sectionRole)
          then Elem newSectionType (defaultAttrs newSectionType) acc
          else copyNode ref acc in
        makeSection_rows sectionRole newSectionType fixCellsType top bottom section
          rest (j + 1) (contents ++ [newSection]) section rowIndex false []
      else
        makeSection_rows sectionRole newSectionType fixCellsType top bottom section
          rest (j + 1) contents ref rowIndex inSel acc
  end.

(** The outer loop of [makeSection]; [None] is its [return false]. *)
Fixpoint makeSection_loop (sectionRole : TableRole) (newSectionType : NodeType)
    (fixCellsType : option NodeType) (top bottom : Z) (cs : list Node)
    (a : SectionAcc) : option SectionAcc :=
  match cs with
  | [] => Some a
  | section :: rest =>
      if isTableSection section then
        let sectionRowsCount := childCount section in
        let lastRow := rowIndex a + sectionRowsCount - 1 in
        if (rowIndex a =? top) && (lastRow + 1 =? bottom)
           && isRole (role section) sectionRole then None
        else if (bottom <=? rowIndex a) || (lastRow <? top) then
          makeSection_loop sectionRole newSectionType fixCellsType top bottom rest
            (mkSectionAcc (newTableContents a ++ [section]) (refSection a)
               (lastRow + 1) (inSelection a) (accSectionRows a))
        else
          let ref := default section (refSection a) in
          let '(contents, ref, inSel, acc) :=
            makeSection_rows sectionRole newSectionType fixCellsType top bottom section
              (children section) 0 (newTableContents a) ref (rowIndex a)
              (inSelection a) (accSectionRows a) in
          let flush := negb inSel && (0 <? Z.of_nat (length acc)) in
          makeSection_loop sectionRole newSectionType fixCellsType top bottom rest
            (mkSectionAcc (if flush then contents ++ [copyNode ref acc] else contents)
               (Some ref) (lastRow + 1) inSel (if flush then [] else acc))
      else
        makeSection_loop sectionRole newSectionType fixCellsType top bottom rest
          (mkSectionAcc (newTableContents a ++ [section]) (refSection a)
             (rowIndex a) (inSelection a) (accSectionRows a))
  end.

Definition makeSection (sectionRole : TableRole) (state : EditorState) (dispatch : bool)
  : result Outcome :=
  inTable ← isInTable state;
  if negb inTable then refuse
  else
    r ← selectedRect state;
    let top := top (rect r) in
    let bottom := bottom (rect r) in
    if bool_decide (sectionRole = Rhead) && (0 <? top) then refuse
    else if bool_decide (sectionRole = Rfoot) && (bottom <? height (tmap r)) then refuse
    else
      match tableNodeTypes sectionRole with
      | None => refuse
      | Some newSectionType =>
          let fixCellsType :=
            if bool_decide (sectionRole = Rhead) || bool_decide (sectionRole = Rfoot)
            then match tableNodeTypes Rcell with
                 | Some _ => tableNodeTypes Rheader_cell
                 | None => None
                 end
            else None in
          if dispatch then
            match makeSection_loop sectionRole newSectionType fixCellsType top bottom
                    (children (table r)) (mkSectionAcc [] None 0 false []) with
            | None => refuse
            | Some a =>
                let newTable := copyNode (table r) (newTableContents a) in
                let tr := addStep emptyTr
                  (StepReplaceWith (tableStart r - 1)
                     (tableStart r - 1 + nodeSize (table r)) [newTable]) in
                let cellsPositions := cellsInRect (TableMap_get newTable) (rect r) in
                match head cellsPositions, last cellsPositions with
                | Some first, Some final =>
                    dispatched
                      (setSelection tr
                         (SelectCells (tableStart r + first) (Some (tableStart r + final))))
                | _, _ => Throw (RangeError "Position out of range")
                end
            end
          else accept
      end.

Definition makeBody (state : EditorState) (dispatch : bool) : result Outcome :=
  makeSection Rbody state dispatch.

Definition makeHead (state : EditorState) (dispatch : bool) : result Outcome :=
  makeSection Rhead state dispatch.

Definition makeFoot (state : EditorState) (dispatch : bool) : result Outcome :=
  makeSection Rfoot state dispatch.

(** [attrs[i]] of an array of attribute objects. *)
Definition arrayGetAttrs (l : list Attrs) (i : Z) : option Attrs :=
  if i <? 0 then None else l !! Z.to_nat i.

Definition isEmpty (cell : Node) : bool :=
  match children cell with
  | [c] => isTextblock (nodeType c) && (childCount c =? 0)
  | _ => false
  end.

(** [cellsOverlapRectangle]: the two loops walk the left and right
    edges row by row, then the top and bottom edges column by column;
    the [k]-th turn reads the indices advanced [k] times. *)
Definition cellsOverlapRectangle (m : TableMap) (r : Rect) : bool :=
  let indexTop := top r * width m + left r in
  let indexLeft := indexTop in
  let indexBottom := (bottom r - 1) * width m + left r in
  let indexRight := indexTop + (right r - left r - 1) in
  existsb (fun k =>
      let indexLeft := indexLeft + k * width m in
      let indexRight := indexRight + k * width m in
      ((0 <? left r) && sameSlot (slot m indexLeft) (slot m (indexLeft - 1)))
      || ((right r <? width m) && sameSlot (slot m indexRight) (slot m (indexRight + 1))))
    (range 0 (bottom r - top r))
  || existsb (fun k =>
      let indexTop := indexTop + k in
      let indexBottom := indexBottom + k in
      ((0 <? top r) && sameSlot (slot m indexTop) (slot m (indexTop - width m)))
      || ((bottom r <? height m)
          && sameSlot (slot m indexBottom) (slot m (indexBottom + width m))))
    (range 0 (right r - left r)).

(** The variables of the loops of [mergeCells]. *)
Record MergeAcc := mkMergeAcc {
  m_tr : Transaction;
  m_seen : list Z;
  m_content : list Node;
  m_merged : option (Z * Node)
}.

Fixpoint mergeCells_loop (r : TableRect) (slots : list Z) (a : MergeAcc)
  : result MergeAcc :=
  match slots with
  | [] => Ok a
  | index :: rest =>
      let cellPos := slot (tmap r) index in
      cell ← nodeAtSlot (table r) cellPos;
      match cellPos, cell with
      | Some cellPos, Some cell =>
          if bool_decide (cellPos ∈ m_seen a) then mergeCells_loop r rest a
          else
            let seen := cellPos :: m_seen a in
            match m_merged a with
            | None =>
                mergeCells_loop r rest
                  (mkMergeAcc (m_tr a) seen (m_content a) (Some (cellPos, cell)))
            | Some _ =>
                let content := if negb (isEmpty cell)
                               then m_content a ++ children cell else m_content a in
                let mapped := mappingMap (m_tr a) 0 (cellPos + tableStart r) 1 in
                mergeCells_loop r rest
                  (mkMergeAcc (addStep (m_tr a) (StepDelete mapped (mapped + nodeSize cell)))
                     seen content (m_merged a))
            end
      | _, _ => mergeCells_loop r rest a
      end
  end.

Definition rectSlots (m : TableMap) (r : Rect) : list Z :=
  row ← range (top r) (bottom r);
  col ← range (left r) (right r);
  [row * width m + col].

Definition isCellSelection (s : Selection) : bool :=
  match s with CellSelection _ _ _ _ => true | _ => false end.

Definition mergeCells (state : EditorState) (dispatch : bool) : result Outcome :=
  match selection state with
  | CellSelection _ _ anchorCell headCell =>
      if rp_pos anchorCell =? rp_pos headCell then refuse
      else
        r ← selectedRect state;
        if negb (rectOverOneSection (tmap r) (rect r)) then refuse
        else if cellsOverlapRectangle (tmap r) (rect r) then refuse
        else if dispatch then
          a ← mergeCells_loop r (rectSlots (tmap r) (rect r)) (mkMergeAcc emptyTr [] [] None);
          match m_merged a with
          | None => accept
          | Some (mergedPos, mergedCell) =>
              let attrs := nodeAttrs mergedCell in
              let tr := addStep (m_tr a)
                (StepSetNodeMarkup (mergedPos + tableStart r) None
                   (<["rowspan" := VNum (bottom (rect r) - top (rect r))]>
                      (addColSpan attrs (colspan attrs)
                         (right (rect r) - left (rect r) - colspan attrs)))) in
              let tr :=
                if 0 <? fragmentSize (m_content a) then
                  let e := mergedPos + 1 + fragmentSize (children mergedCell) in
                  let start := if isEmpty mergedCell then mergedPos + 1 else e in
                  addStep tr
                    (StepReplaceWith (start + tableStart r) (e + tableStart r) (m_content a))
                else tr in
              dispatched (setSelection tr (SelectCells (mergedPos + tableStart r) None))
          end
        else accept
  | _ => refuse
  end.

(** The cell [splitCellWithType] works on: its node and position, or
    [None] where the command returns false for want of one. *)
Definition splitTarget (state : EditorState) : result (option (Node * Z)) :=
  match selection state with
  | CellSelection _ _ anchorCell headCell =>
      if negb (rp_pos anchorCell =? rp_pos headCell) then Ok None
      else Ok (n ← rp_nodeAfter anchorCell; Some (n, rp_pos anchorCell))
  | sel =>
      cellNode ← cellWrapping (sel_from sel);
      match cellNode with
      | None => Ok None
      | Some n =>
          around ← cellAround (sel_from sel);
          Ok (c ← around; Some (n, rp_pos c))
      end
  end.

Definition truthyWidth (colwidth : Value) (i : Z) : option Z :=
  match colwidth with
  | VArr l => match arrayGet l i with
              | Some w => if w =? 0 then None else Some w
              | None => None
              end
  | _ => None
  end.

Definition isArray (v : Value) : bool :=
  match v with VArr _ => true | _ => false end.

(** The two nested loops of [splitCellWithType]; [lastCell] is [None]
    while unset. *)
Fixpoint splitCell_cols (getCellType : Node -> Z -> Z -> option NodeType) (cellNode : Node)
    (r : TableRect) (attrs : list Attrs) (row pos : Z) (cols : list Z)
    (tr : Transaction) (lastCell : option Z) : result (Transaction * option Z) :=
  match cols with
  | [] => Ok (tr, lastCell)
  | col :: rest =>
      if (col =? left (rect r)) && (row =? top (rect r)) then
        splitCell_cols getCellType cellNode r attrs row pos rest tr lastCell
      else
        let at_ := mappingMap tr 0 (pos + tableStart r) 1 in
        type ← nonNull (getCellType cellNode row col);
        node ← nonNull (createAndFill type (arrayGetAttrs attrs (col - left (rect r))));
        splitCell_cols getCellType cellNode r attrs row pos rest
          (addStep tr (StepInsert at_ node)) (Some at_)
  end.

Fixpoint splitCell_rows (getCellType : Node -> Z -> Z -> option NodeType) (cellNode : Node)
    (r : TableRect) (attrs : list Attrs) (rows : list Z)
    (tr : Transaction) (lastCell : option Z) : result (Transaction * option Z) :=
  match rows with
  | [] => Ok (tr, lastCell)
  | row :: rest =>
      pos ← positionAt (tmap r) row (left (rect r)) (table r);
      let pos := if row =? top (rect r) then pos + nodeSize cellNode else pos in
      '(tr, lastCell) ← splitCell_cols getCellType cellNode r attrs row pos
                          (range (left (rect r)) (right (rect r))) tr lastCell;
      splitCell_rows getCellType cellNode r attrs rest tr lastCell
  end.

Definition splitCellWithType (getCellType : Node -> Z -> Z -> option NodeType)
    (state : EditorState) (dispatch : bool) : result Outcome :=
  target ← splitTarget state;
  match target with
  | None => refuse
  | Some (cellNode, cellPos) =>
      if (colspan (nodeAttrs cellNode) =? 1) && (rowspan (nodeAttrs cellNode) =? 1)
      then refuse
      else if dispatch then
        let baseAttrs := nodeAttrs cellNode in
        let colwidth := attr baseAttrs "colwidth" in
        let baseAttrs := if 1 <? rowspan baseAttrs
                         then <["rowspan" := VNum 1]> baseAttrs else baseAttrs in
        let baseAttrs := if 1 <? colspan baseAttrs
                         then <["colspan" := VNum 1]> baseAttrs else baseAttrs in
        r ← selectedRect state;
        let attrs :=
          (fun i =>
             if isArray colwidth then
               <["colwidth" := match truthyWidth colwidth i with
                               | Some w => VArr [w]
                               | None => VNull
                               end]> baseAttrs
             else baseAttrs) <$> range 0 (right (rect r) - left (rect r)) in
        '(tr, lastCell) ← splitCell_rows getCellType cellNode r attrs
                            (range (top (rect r)) (bottom (rect r))) emptyTr None;
        let type := getCellType cellNode (top (rect r)) (left (rect r)) in
        let tr := addStep tr
          (StepSetNodeMarkup cellPos type
             (default (defaultAttrs (default (nodeType cellNode) type))
                (arrayGetAttrs attrs 0))) in
        let tr :=
          match selection state with
          | CellSelection _ _ anchorCell _ =>
              setSelection tr
                (SelectCells (rp_pos anchorCell)
                   (match lastCell with
                    | Some p => if p =? 0 then None else Some p
                    | None => None
                    end))
          | _ => tr
          end in
        dispatched tr
      else accept
  end.

(** The type chooser of [splitCell]: the schema's type for the role of
    the cell that is split. *)
Definition splitCell (state : EditorState) (dispatch : bool) : result Outcome :=
  splitCellWithType
    (fun node _ _ => r ← role node; tableNodeTypes r)
    state dispatch.

Definition setCellAttr (name : string) (value : Value)
    (state : EditorState) (dispatch : bool) : result Outcome :=
  inTable ← isInTable state;
  if negb inTable then refuse
  else
    cell ← selectionCell state;
    after ← nonNull (rp_nodeAfter cell);
    if strictEq (attr (nodeAttrs after) name) value then refuse
    else if dispatch then
      let tr :=
        if isCellSelection (selection state) then
          fold_left
            (fun tr '(node, pos) =>
               if negb (strictEq (attr (nodeAttrs node) name) value)
               then addStep tr
                      (StepSetNodeMarkup pos None (<[name := value]> (nodeAttrs node)))
               else tr)
            (forEachCell state) emptyTr
        else
          addStep emptyTr
            (StepSetNodeMarkup (rp_pos cell) None (<[name := value]> (nodeAttrs after))) in
      dispatched tr
    else accept.

Inductive ToggleHeaderType := ToggleColumn | ToggleRow | ToggleCell.

(** The rectangle [deprecated_toggleHeader] acts on: the whole columns,
    the whole rows, or the selected rectangle itself. *)
Definition toggleTarget (type : ToggleHeaderType) (r : TableRect) : Rect :=
  match type with
  | ToggleColumn => mkRect (left (rect r)) 0 (right (rect r)) (height (tmap r))
  | ToggleRow => mkRect 0 (top (rect r)) (width (tmap r)) (bottom (rect r))
  | ToggleCell => rect r
  end.

(** [cells.map((pos) => table.nodeAt(pos)!)]; a missing node raises
    later, when the loop reads its type. *)
Fixpoint nodesAt (table : Node) (cells : list Z) : result (list (option Node)) :=
  match cells with
  | [] => Ok []
  | pos :: rest =>
      o ← nodeAt table pos;
      ns ← nodesAt table rest;
      Ok (o :: ns)
  end.

Fixpoint allNonNull (l : list (option Node)) : result (list Node) :=
  match l with
  | [] => Ok []
  | o :: rest =>
      n ← nonNull o;
      ns ← allNonNull rest;
      Ok (n :: ns)
  end.

Definition deprecated_toggleHeader (type : ToggleHeaderType)
    (state : EditorState) (dispatch : bool) : result Outcome :=
  inTable ← isInTable state;
  if negb inTable then refuse
  else if dispatch then
    r ← selectedRect state;
    let cells := cellsInRect (tmap r) (toggleTarget type r) in
    found ← nodesAt (table r) cells;
    nodes ← allNonNull found;
    let tr :=
      fold_left
        (fun tr '(pos, node) =>
           if isType (nodeType node) (tableNodeTypes Rheader_cell)
           then addStep tr
                  (StepSetNodeMarkup (tableStart r + pos) (tableNodeTypes Rcell)
                     (nodeAttrs node))
           else tr)
        (zip cells nodes) emptyTr in
    let tr :=
      if Z.of_nat (length (steps tr)) =? 0 then
        fold_left
          (fun tr '(pos, node) =>
             addStep tr
               (StepSetNodeMarkup (tableStart r + pos) (tableNodeTypes Rheader_cell)
                  (nodeAttrs node)))
          (zip cells nodes) tr
      else tr in
    dispatched tr
  else accept.

Fixpoint allHeaders (table : Node) (cellPositions : list Z) : result bool :=
  match cellPositions with
  | [] => Ok true
  | pos :: rest =>
      cell ← nodeAt table pos;
      match cell with
      | Some c =>
          if negb (isType (nodeType c) (tableNodeTypes Rheader_cell)) then Ok false
          else allHeaders table rest
      | None => allHeaders table rest
      end
  end.

(** [isHeaderEnabledByType]; the type is ['row'] or ['column']. *)
Definition isHeaderEnabledByType (forRow : bool) (r : TableRect) : result bool :=
  allHeaders (table r)
    (cellsInRect (tmap r)
       (mkRect 0 0 (if forRow then width (tmap r) else 1)
                   (if forRow then 1 else height (tmap r)))).

Fixpoint toggleHeader_cells (d : Node) (newType : option NodeType) (tableStart : Z)
    (cells : list Z) (tr : Transaction) : result Transaction :=
  match cells with
  | [] => Ok tr
  | relativeCellPos :: rest =>
      let cellPos := relativeCellPos + tableStart in
      now ← docAfter d (steps tr);
      cell ← nodeAt now cellPos;
      toggleHeader_cells d newType tableStart rest
        match cell with
        | Some c => addStep tr (StepSetNodeMarkup cellPos newType (nodeAttrs c))
        | None => tr
        end
  end.

Definition toggleHeader (type : ToggleHeaderType) (useDeprecatedLogic : bool)
    (state : EditorState) (dispatch : bool) : result Outcome :=
  if useDeprecatedLogic then deprecated_toggleHeader type state dispatch
  else
    inTable ← isInTable state;
    if negb inTable then refuse
    else if dispatch then
      r ← selectedRect state;
      isHeaderRowEnabled ← isHeaderEnabledByType true r;
      isHeaderColumnEnabled ← isHeaderEnabledByType false r;
      let isHeaderEnabled : bool :=
        match type with
        | ToggleColumn => isHeaderRowEnabled
        | ToggleRow => isHeaderColumnEnabled
        | ToggleCell => false
        end in
      let selectionStartsAt := if isHeaderEnabled then 1 else 0 in
      let cellsRect :=
        match type with
        | ToggleColumn => mkRect 0 selectionStartsAt 1 (height (tmap r))
        | ToggleRow => mkRect selectionStartsAt 0 (width (tmap r)) 1
        | ToggleCell => rect r
        end in
      let newType :=
        match type with
        | ToggleColumn =>
            if (isHeaderColumnEnabled : bool)
            then tableNodeTypes Rcell else tableNodeTypes Rheader_cell
        | ToggleRow =>
            if (isHeaderRowEnabled : bool)
            then tableNodeTypes Rcell else tableNodeTypes Rheader_cell
        | ToggleCell => tableNodeTypes Rcell
        end in
      tr ← toggleHeader_cells (doc state) newType (tableStart r)
             (cellsInRect (tmap r) cellsRect) emptyTr;
      dispatched tr
    else accept.

Definition toggleHeaderRow : EditorState -> bool -> result Outcome :=
  toggleHeader ToggleRow true.

Definition toggleHeaderColumn : EditorState -> bool -> result Outcome :=
  toggleHeader ToggleColumn true.

Definition toggleHeaderCell : EditorState -> bool -> result Outcome :=
  toggleHeader ToggleCell true.

End Commands.

(** ** The host's fit of an inserted node

    [tr.insert(pos, node)] is a replace step, and the host fits a
    replace step to the document before it records it. Where the parent
    of the position can hold the node, the step is the call as written.
    Where it does not, the host tries the ancestors of the position from
    the innermost one outward; when nothing but closing tokens lies
    between the position and the end of the ancestors it leaves, the
    node is placed directly after them. From any other position the host
    would split the ancestors it leaves, which is not followed here: no
    place is given. [holds] tells which parents can hold the node, the
    content expressions of the schema being the host's; [outward] holds
    the ancestors of the position from its parent outward, each with the
    position before its child on the way. *)
Fixpoint fitInsert_up (holds : Node -> bool) (outward : list (Node * Z * Z)) (pos : Z)
  : option Z :=
  match outward with
  | [] => None
  | (n, _, _) :: rest =>
      if holds n then Some pos
      else
        match rest with
        | [] => None
        | (_, _, before) :: _ =>
            if pos =? before + nodeSize n - 1 then fitInsert_up holds rest (pos + 1)
            else None
        end
  end.

Definition fitInsert (holds : Node -> bool) (top : Node) (pos : Z) : result (option Z) :=
  p ← resolve top pos;
  Ok (fitInsert_up holds (reverse (rp_path p)) pos).

(** ** Deleting sections ([deleteSection])

    [sectionsInRect], [tableSectionsCount] and [tableHasCaption] are
    functions of this library whose sources are not at hand; the command
    is written against them. *)

Section SectionCommands.
Context `{Collaborators}.
Variable sectionsInRect : TableMap -> Rect -> list Z.
Variable tableSectionsCount : Node -> Z.
Variable tableHasCaption : Node -> bool.

(** [sectionPosAndSize]: position and size of every child of the table
    from index [firstSectionIndex] on; [i] is the index of the first
    child of the list. *)
Fixpoint sectionPosAndSize (cs : list Node) (firstSectionIndex i pos : Z) : list (Z * Z) :=
  match cs with
  | [] => []
  | c :: rest =>
      let size := nodeSize c in
      (if firstSectionIndex <=? i then [(pos, size)] else [])
        ++ sectionPosAndSize rest firstSectionIndex (i + 1) (pos + size)
  end.

Definition arrayGetPair (l : list (Z * Z)) (i : Z) : option (Z * Z) :=
  if i <? 0 then None else l !! Z.to_nat i.

(** The loop over the touched sections, from the last to the first; an
    index without an entry raises when the entry is taken apart. *)
Fixpoint deleteSection_loop (posAndSize : list (Z * Z)) (sections : list Z)
    (tr : Transaction) : result Transaction :=
  match sections with
  | [] => Ok tr
  | s :: rest =>
      '(pos, size) ← nonNull (arrayGetPair posAndSize s);
      deleteSection_loop posAndSize rest (addStep tr (StepDelete pos (pos + size)))
  end.

Definition deleteSection (state : EditorState) (dispatch : bool) : result Outcome :=
  inTable ← isInTable state;
  if negb inTable then refuse
  else
    r ← selectedRect state;
    if (top (rect r) =? 0) && (bottom (rect r) =? height (tmap r)) then refuse
    else if dispatch then
      let sections := sectionsInRect (tmap r) (rect r) in
      if (tableSectionsCount (table r) <=? Z.of_nat (length sections))
         || (Z.of_nat (length sections) =? 0) then refuse
      else
        let firstSectionIndex := if tableHasCaption (table r) then 1 else 0 in
        let posAndSize :=
          sectionPosAndSize (children (table r)) firstSectionIndex 0 (tableStart r) in
        tr ← deleteSection_loop posAndSize (reverse sections) emptyTr;
        dispatched tr
    else accept.

End SectionCommands.

(** ** Deleting the table ([deleteTable]) *)

(** [$pos.after(d)] *)
Definition rp_after (r : ResolvedPos) (d : Z) : result Z :=
  let d := resolveDepth r d in
  if d =? 0 then Throw (RangeError "There is no position after the top-level node")
  else if d =? rp_depth r + 1 then Ok (rp_pos r)
  else
    before ← nonNull (snd <$> pathEntry r (d - 1));
    n ← nonNull (fst ∘ fst <$> pathEntry r d);
    Ok (before + nodeSize n).

(** [tr.scrollIntoView()] *)
Definition scrollIntoView (tr : Transaction) : Transaction :=
  mkTransaction (steps tr) (tr_selection tr) true.

(** The loop of [deleteTable] over the ancestors of the anchor, from
    the innermost one. *)
Fixpoint deleteTable_loop (p : ResolvedPos) (dispatch : bool) (d : nat) : result Outcome :=
  match d with
  | O => refuse
  | S d' =>
      r ← roleAt p (Z.of_nat d);
      if isRole r Rtable then
        if dispatch then
          before ← rp_before p (Z.of_nat d);
          after ← rp_after p (Z.of_nat d);
          dispatched (scrollIntoView (addStep emptyTr (StepDelete before after)))
        else accept
      else deleteTable_loop p dispatch d'
  end.

Definition deleteTable (state : EditorState) (dispatch : bool) : result Outcome :=
  let pos := sel_anchor (selection state) in
  deleteTable_loop pos dispatch (Z.to_nat (rp_depth pos)).

(** ** Moving between cells ([pointsAtCell], [moveCellForward],
    [findNextCell], [goToNextCell]) *)

(** [$pos.parent] *)
Definition rp_parent (r : ResolvedPos) : option Node := rp_node r (rp_depth r).

(** [$pos.indexAfter(d)] *)
Definition rp_indexAfter (r : ResolvedPos) (d : Z) : option Z :=
  let d' := resolveDepth r d in
  let textOffset := rp_pos r - default 0 ((fun e => snd e) <$> lastEntry r) in
  (fun i => i + (if (d' =? rp_depth r) && (textOffset =? 0) then 0 else 1)) <$> rp_index r d.

Definition pointsAtCell (p : ResolvedPos) : result bool :=
  parent ← nonNull (rp_parent p);
  Ok (isRole (role parent) Rrow
      && match rp_nodeAfter p with Some _ => true | None => false end).

Definition moveCellForward (p : ResolvedPos) : result ResolvedPos :=
  top ← nonNull (rp_node p 0);
  after ← nonNull (rp_nodeAfter p);
  resolve top (rp_pos p + nodeSize after).

(** [node.child(i)], which raises outside the node's children. *)
Definition childOf (n : Node) (i : Z) : result Node :=
  match childAt n i with
  | Some c => Ok c
  | None => Throw (RangeError "Index out of range")
  end.

Inductive Direction := Backward | Forward.

(** The two loops of [findNextCell] over the children of the node two
    levels up: backward from the child before the position's, forward
    from the child after it. *)
Fixpoint findNextCell_backward (table : Node) (row : nat) (rowEnd : Z) : result (option Z) :=
  match row with
  | O => Ok None
  | S row' =>
      rowNode ← childOf table (Z.of_nat row');
      match lastChild rowNode with
      | Some last => Ok (Some (rowEnd - 1 - nodeSize last))
      | None => findNextCell_backward table row' (rowEnd - nodeSize rowNode)
      end
  end.

Fixpoint findNextCell_forward (rows : list Node) (rowStart : Z) : option Z :=
  match rows with
  | [] => None
  | rowNode :: rest =>
      if 0 <? childCount rowNode then Some (rowStart + 1)
      else findNextCell_forward rest (rowStart + nodeSize rowNode)
  end.

Definition findNextCell (cell : ResolvedPos) (dir : Direction) : result (option Z) :=
  match dir with
  | Backward =>
      match rp_nodeBefore cell with
      | Some before => Ok (Some (rp_pos cell - nodeSize before))
      | None =>
          rowEnd ← rp_before cell (rp_depth cell);
          match rp_index cell (-2), rp_node cell (-2) with
          | Some index, Some table =>
              findNextCell_backward table (Z.to_nat index) rowEnd
          | _, _ => Ok None
          end
      end
  | Forward =>
      index ← nonNull (rp_index cell (rp_depth cell));
      parent ← nonNull (rp_parent cell);
      if index <? childCount parent - 1 then
        after ← nonNull (rp_nodeAfter cell);
        Ok (Some (rp_pos cell + nodeSize after))
      else
        rowStart ← rp_after cell (rp_depth cell);
        table ← nonNull (rp_node cell (-2));
        match rp_indexAfter cell (-2) with
        | Some row => Ok (findNextCell_forward (drop (Z.to_nat row) (children table)) rowStart)
        | None => Ok None
        end
  end.

Definition goToNextCell (direction : Direction) (state : EditorState) (dispatch : bool)
  : result Outcome :=
  inTable ← isInTable state;
  if negb inTable then refuse
  else
    c ← selectionCell state;
    cell ← findNextCell c direction;
    match cell with
    | None => refuse
    | Some cell =>
        if dispatch then
          rc ← resolve (doc state) cell;
          moved ← moveCellForward rc;
          dispatched
            (scrollIntoView
               (setSelection emptyTr (SelectTextBetween (rp_pos rc) (rp_pos moved))))
        else accept
    end.

(** ** An example host and example documents

    The theorems below hold for any collaborators; the examples run the
    commands with the ones defined here. The example host applies a step
    that replaces whole children of one parent and raises on any other;
    [positionAt] gives the offset of the first cell from a slot on that
    starts in the row, or the position before the row's closing token;
    [colCount] the column of the first slot that holds an offset. *)

Module Example.

Definition docT := mkNodeType "doc" None false.
Definition paragraphT := mkNodeType "paragraph" None true.
Definition tableT := mkNodeType "table" (Some Rtable) false.
Definition captionT := mkNodeType "table_caption" (Some Rcaption) true.
Definition headT := mkNodeType "table_head" (Some Rhead) false.
Definition bodyT := mkNodeType "table_body" (Some Rbody) false.
Definition footT := mkNodeType "table_foot" (Some Rfoot) false.
Definition rowT := mkNodeType "table_row" (Some Rrow) false.
Definition cellT := mkNodeType "table_cell" (Some Rcell) false.
Definition headerT := mkNodeType "table_header" (Some Rheader_cell) false.

Definition schema (r : TableRole) : option NodeType :=
  Some match r with
       | Rtable => tableT | Rcaption => captionT | Rhead => headT | Rbody => bodyT
       | Rfoot => footT | Rrow => rowT | Rcell => cellT | Rheader_cell => headerT
       end.

Definition spans (c r : Z) : Attrs :=
  <["colspan" := VNum c]> (<["rowspan" := VNum r]> (<["colwidth" := VNull]> ∅)).

Definition defaults (t : NodeType) : Attrs :=
  if isCellRole (tableRole t) then spans 1 1 else ∅.

Definition par : Node := Elem paragraphT ∅ [].
Definition td : Node := Elem cellT (spans 1 1) [par].
Definition th : Node := Elem headerT (spans 1 1) [par].
Definition tdSpan (c r : Z) : Node := Elem cellT (spans c r) [par].
Definition tr_ (cells : list Node) : Node := Elem rowT ∅ cells.
Definition tbody (rows : list Node) : Node := Elem bodyT ∅ rows.
Definition thead (rows : list Node) : Node := Elem headT ∅ rows.
Definition caption : Node := Elem captionT ∅ [Text 5].
Definition tableOf (sections : list Node) : Node := Elem tableT ∅ sections.
Definition docOf (t : Node) : Node := Elem docT ∅ [t].

Definition fill (t : NodeType) (a : option Attrs) : option Node :=
  Some (Elem t (default (defaults t) a)
          (if isCellRole (tableRole t) then [par] else [])).

Fixpoint dropSize (l : list Node) (k : Z) : option (list Node) :=
  match l with
  | [] => if k =? 0 then Some [] else None
  | x :: xs =>
      if k =? 0 then Some l
      else if nodeSize x <=? k then dropSize xs (k - nodeSize x) else None
  end.

Fixpoint replaceIn (n : Node) (from to : Z) (content : list Node) : option Node :=
  match n with
  | Text _ | Leaf _ _ => None
  | Elem t a c =>
      Elem t a <$>
        (fix walk (l : list Node) (f e : Z) : option (list Node) :=
           match l with
           | [] => if (f =? 0) && (e =? 0) then Some content else None
           | x :: xs =>
               if f =? 0 then app content <$> dropSize l e
               else if f <? nodeSize x then
                 if e <? nodeSize x
                 then (fun x' => x' :: xs) <$> replaceIn x (f - 1) (e - 1) content
                 else None
               else cons x <$> walk xs (f - nodeSize x) (e - nodeSize x)
           end) c from to
  end.

Fixpoint markupIn (n : Node) (pos : Z) (ty : option NodeType) (attrs : Attrs)
  : option Node :=
  match n with
  | Text _ | Leaf _ _ => None
  | Elem t a c =>
      Elem t a <$>
        (fix walk (l : list Node) (p : Z) : option (list Node) :=
           match l with
           | [] => None
           | x :: xs =>
               if p =? 0 then
                 match x with
                 | Elem tx _ cx => Some (Elem (default tx ty) attrs cx :: xs)
                 | Leaf tx _ => Some (Leaf (default tx ty) attrs :: xs)
                 | Text _ => None
                 end
               else if p <? nodeSize x
               then (fun x' => x' :: xs) <$> markupIn x (p - 1) ty attrs
               else cons x <$> walk xs (p - nodeSize x)
           end) c pos
  end.

(** The example host applies a call over a well-nested range as it is
    written, and fits the two calls of this library that are not: a row
    handed to a position whose parent holds no rows is placed where
    [fitInsert] finds a section for it, and a deletion that stops before
    the closing token of the last node of its range takes that token
    too. *)
Definition applyStep (d : Node) (s : Step) : option Node :=
  match s with
  | StepInsert pos node =>
      if isRole (role node) Rrow then
        match fitInsert isTableSection d pos with
        | Ok (Some fitted) => replaceIn d fitted fitted [node]
        | _ => None
        end
      else replaceIn d pos pos [node]
  | StepDelete from to =>
      match replaceIn d from to [] with
      | Some d' => Some d'
      | None => replaceIn d from (to + 1) []
      end
  | StepReplaceWith from to content => replaceIn d from to content
  | StepSetNodeMarkup pos ty attrs => markupIn d pos ty attrs
  end.

Fixpoint applySteps (d : Node) (l : list Step) : result Node :=
  match l with
  | [] => Ok d
  | s :: rest =>
      match applyStep d s with
      | Some d' => applySteps d' rest
      | None => Throw (RangeError "step not applied by the example host")
      end
  end.

Definition colCountOf (m : TableMap) (pos : Z) : result Z :=
  match firstIndex (map m) pos 0 with
  | Some i => Ok (i mod width m)
  | None => Throw (RangeError "No cell with offset found")
  end.

Definition positionAtOf (m : TableMap) (row col : Z) (table : Node) : result Z :=
  let found := getRow table row 0 in
  r ← nonNull (row_node found);
  let rowStart := row_pos found in
  let fromRow := filter (fun p => rowStart <= p)
                   (omap (slot m) (range (row * width m + col) ((row + 1) * width m))) in
  Ok (default (rowStart + nodeSize r - 1) (head fromRow)).

(** Modelled from the spec: [isRowLastInSection], not part of the
    sources at hand; the row is the last row of a section. *)
Definition isRowLastInSectionOf (table : Node) (row : Z) : bool :=
  bool_decide (row + 1 ∈
    runningTotals (childCount <$> filter (fun n => Is_true (isTableSection n))
                                   (children table)) 0).

Definition primStrictEq (a b : Value) : bool :=
  match a, b with
  | VUndefined, VUndefined | VNull, VNull => true
  | VBool x, VBool y => bool_decide (x = y)
  | VNum x, VNum y => x =? y
  | VStr x, VStr y => bool_decide (x = y)
  | _, _ => false
  end.

(** The cells of a cell selection: those of the rectangle between its
    two cells, with their positions in the document. *)
Definition cellsOfSelection (state : EditorState) : list (Node * Z) :=
  match selection state with
  | CellSelection _ _ anchorCell headCell =>
      match rp_node anchorCell (-2), rp_start anchorCell (-2) with
      | Some table, Some tableStart =>
          let m := TableMap_get table in
          match rectBetween m (rp_pos anchorCell - tableStart)
                  (rp_pos headCell - tableStart) with
          | Ok r =>
              omap (fun pos =>
                      match nodeAt table pos with
                      | Ok (Some n) => Some (n, tableStart + pos)
                      | _ => None
                      end) (cellsInRect m r)
          | _ => []
          end
      | _, _ => []
      end
  | _ => []
  end.

Global Instance host : Collaborators := {|
  tableNodeTypes := schema;
  createAndFill := fill;
  defaultAttrs := defaults;
  docAfter := applySteps;
  colCount := colCountOf;
  positionAt := positionAtOf;
  isRowLastInSection := isRowLastInSectionOf;
  forEachCell := cellsOfSelection;
  strictEq := primStrictEq
|}.

(** Resolved positions and selections of the examples. *)
Definition at_ (d : Node) (pos : Z) : ResolvedPos :=
  match resolve d pos with
  | Ok r => r
  | _ => mkResolvedPos pos [] 0
  end.

Definition cursor (d : Node) (pos : Z) : EditorState :=
  mkEditorState d (OtherSelection (at_ d pos) (at_ d pos)).

Definition cellSelection (d : Node) (anchorCell headCell : Z) : EditorState :=
  let inside := at_ d (headCell + 1) in
  let size := match rp_nodeAfter (at_ d headCell) with
              | Some n => nodeSize n
              | None => 2
              end in
  mkEditorState d
    (CellSelection (at_ d (headCell + size - 1)) inside (at_ d anchorCell) (at_ d headCell)).

End Example.

(** ** Predicates of the statements *)

(** The attribute object carries a numeric [colspan], as [CellAttrs]
    declares. *)
Definition typedCellAttrs (attrs : Attrs) : Prop :=
  exists c, attrs !! "colspan" = Some (VNum c).

(** A section that holds at least one row. *)
Definition isRowsSection (s : Node) : Prop :=
  isTableSection s = true /\ 0 < childCount s.

(** A valid table: an optional caption, then one or more sections, each
    holding at least one row. *)
Definition valid_table (t : Node) : Prop :=
  exists cap secs,
    children t = cap ++ secs
    /\ (length cap <= 1)%nat
    /\ Forall (fun c => isTableSection c = false) cap
    /\ secs <> []
    /\ Forall isRowsSection secs.

Definition sectionsCount (t : Node) : Z :=
  Z.of_nat (length (filter (fun n => Is_true (isTableSection n)) (children t))).

(** The rows held by the sections among some children of a table. *)
Fixpoint rowsOf (l : list Node) : Z :=
  match l with
  | [] => 0
  | s :: rest => (if isTableSection s then childCount s else 0) + rowsOf rest
  end.

(** Slots of the grid and of a rectangle. *)
Definition cellOf (m : TableMap) (row col : Z) : option Z :=
  slot m (row * width m + col).

Definition inGrid (m : TableMap) (row col : Z) : Prop :=
  0 <= row < height m /\ 0 <= col < width m.

Definition inRect (r : Rect) (row col : Z) : Prop :=
  top r <= row < bottom r /\ left r <= col < right r.

Definition validRect (m : TableMap) (r : Rect) : Prop :=
  0 <= left r < right r /\ right r <= width m
  /\ 0 <= top r < bottom r /\ bottom r <= height m.

(** A cell partially overlaps the rectangle: it covers a slot inside it
    and a slot of the grid outside it. *)
Definition straddles (m : TableMap) (r : Rect) : Prop :=
  exists row col row' col',
    inRect r row col /\ inGrid m row' col' /\ ~ inRect r row' col'
    /\ cellOf m row col = cellOf m row' col'.

(** Every cell covers a rectangle of slots: two slots of one cell span a
    box whose slots all belong to it. *)
Definition rectangular (m : TableMap) : Prop :=
  forall r1 c1 r2 c2, inGrid m r1 c1 -> inGrid m r2 c2 ->
    cellOf m r1 c1 = cellOf m r2 c2 ->
    forall row col,
      Z.min r1 r2 <= row <= Z.max r1 r2 -> Z.min c1 c2 <= col <= Z.max c1 c2 ->
      cellOf m row col = cellOf m r1 c1.

Definition rectangularb (m : TableMap) : bool :=
  let rows := range 0 (height m) in
  let cols := range 0 (width m) in
  forallb (fun r1 => forallb (fun c1 => forallb (fun r2 => forallb (fun c2 =>
    implb (sameSlot (cellOf m r1 c1) (cellOf m r2 c2))
      (forallb (fun row =>
         forallb (fun col => sameSlot (cellOf m row col) (cellOf m r1 c1))
           (range (Z.min c1 c2) (Z.max c1 c2 + 1)))
         (range (Z.min r1 r2) (Z.max r1 r2 + 1))))
    cols) rows) cols) rows.

(** All rows of the rectangle lie in one section. *)
Definition oneSection (m : TableMap) (r : Rect) : Prop :=
  forall i j, top r <= i < bottom r -> top r <= j < bottom r ->
    sectionOfRow (sectionRows m) i 0 = sectionOfRow (sectionRows m) j 0.

(** The insertion column falls inside a column-spanning cell at a row. *)
Definition insideSpan (m : TableMap) (col row : Z) : bool :=
  (0 <? col) && (col <? width m)
  && sameSlot (slot m (row * width m + col - 1)) (slot m (row * width m + col)).

Definition noSpanAt (m : TableMap) (col : Z) : Prop :=
  forall row, 0 <= row < height m -> insideSpan m col row = false.

(** The column next to the insertion point that [addColumn] inspects:
    the left neighbour, or column 0 when inserting at the left edge. *)
Definition neighbourColumn (col : Z) : Z := if 0 <? col then col - 1 else col.

(** The column a new cell takes its type from; [None] stands for the
    plain cell type. [hdr] tells whether the neighbour column consists
    of header cells. *)
Definition inheritedColumn (hdr : bool) (col w : Z) : option Z :=
  if hdr then (if (col =? 0) || (col =? w) then None else Some col)
  else Some (neighbourColumn col).

Definition isMarkup (s : Step) : Prop :=
  match s with StepSetNodeMarkup _ _ _ => True | _ => False end.

Section Statements.
Context `{Collaborators}.

(** The selection is a cell selection whose two cells differ. *)
Definition manyCellsSelected (st : EditorState) : Prop :=
  exists a h ac hc, selection st = CellSelection a h ac hc /\ rp_pos ac <> rp_pos hc.

(** What [mergeCells] refuses: no cell selection of several cells, or a
    rectangle that leaves its section or that a cell straddles. *)
Definition notMergeable (st : EditorState) : Prop :=
  ~ manyCellsSelected st
  \/ exists r, selectedRect st = Ok r
       /\ rectangular (tmap r) /\ validRect (tmap r) (rect r)
       /\ ~ (oneSection (tmap r) (rect r) /\ ~ straddles (tmap r) (rect r)).

Definition spansPositive (r : TableRect) : Prop :=
  forall index cell, cellAtSlot (table r) (tmap r) index = Ok cell ->
    1 <= colspan (nodeAttrs cell).

Definition positionsReturn (r : TableRect) (col : Z) : Prop :=
  forall row, 0 <= row < height (tmap r) ->
    positionAt (tmap r) row col (table r) <> Diverge.

(** The step inserts a cell created for the type of the cell at
    [source] in the row, or for the plain cell type. *)
Definition newCellOf (r : TableRect) (source : option Z) (row : Z) (s : Step) : Prop :=
  exists pos node type,
    s = StepInsert pos node
    /\ createAndFill type None = Some node
    /\ match source with
       | None => tableNodeTypes Rcell = Some type
       | Some c => exists src,
           cellAtSlot (table r) (tmap r) (row * width (tmap r) + c) = Ok src
           /\ type = nodeType src
       end.

Definition toggleCommand (type : ToggleHeaderType) : EditorState -> bool -> result Outcome :=
  match type with
  | ToggleRow => toggleHeaderRow
  | ToggleColumn => toggleHeaderColumn
  | ToggleCell => toggleHeaderCell
  end.

Definition isHeader (n : Node) : bool :=
  isType (nodeType n) (tableNodeTypes Rheader_cell).

Definition demote (tableStart : Z) (c : Z * Node) : Step :=
  StepSetNodeMarkup (tableStart + c.1) (tableNodeTypes Rcell) (nodeAttrs c.2).

Definition promote (tableStart : Z) (c : Z * Node) : Step :=
  StepSetNodeMarkup (tableStart + c.1) (tableNodeTypes Rheader_cell) (nodeAttrs c.2).

Definition rewrites (name : string) (value : Value) (node : Node) (pos : Z) : Step :=
  StepSetNodeMarkup pos None (<[name := value]> (nodeAttrs node)).

End Statements.

(** Text nodes are never empty in the host's documents; every node then
    takes up at least one token. *)
Fixpoint wellSized (n : Node) : bool :=
  match n with
  | Text len => 0 <? len
  | Leaf _ _ => true
  | Elem _ _ c =>
      (fix all (l : list Node) : bool :=
         match l with
         | [] => true
         | x :: xs => wellSized x && all xs
         end) c
  end.

(** No section of the table is empty. *)
Definition rowsInEverySection (t : Node) : Prop :=
  Forall (fun c => isTableSection c = true -> 0 < childCount c) (children t).

(** The rows of the sections among some children of a table, in document
    order. *)
Fixpoint rowsList (l : list Node) : list Node :=
  match l with
  | [] => []
  | s :: rest => (if isTableSection s then children s else []) ++ rowsList rest
  end.

Definition tableRows (t : Node) : list Node := rowsList (children t).

(** Row number [row] among the children [cs] of a table is the node [r],
    found [p] tokens after the start of the table's content: [r] is a
    child of a section, [p] counts the children before the section, its
    opening token and the rows above [r]. *)
Definition rowAt (cs : list Node) (row : Z) (r : Node) (p : Z) : Prop :=
  exists pre s post above below,
    cs = pre ++ s :: post
    /\ isTableSection s = true
    /\ children s = above ++ r :: below
    /\ row = rowsOf pre + Z.of_nat (length above)
    /\ p = fragmentSize pre + 1 + fragmentSize above.

(** The sections among some children of a table. *)
Definition sectionsAmong (l : list Node) : Z :=
  Z.of_nat (length (filter (fun n => Is_true (isTableSection n)) l)).

(** The step that deletes the child [c] of a table found after the
    children [pre]. *)
Definition deletesChild (tableStart : Z) (pre : list Node) (c : Node) : Step :=
  StepDelete (tableStart + fragmentSize pre) (tableStart + fragmentSize pre + nodeSize c).

Definition total (l : list Z) : Z := foldr Z.add 0 l.

(** The roles of sections. *)
Definition isSectionRole (r : TableRole) : Prop := r = Rhead \/ r = Rbody \/ r = Rfoot.

(** What [makeSection] does to the cells of a selected row. *)
Definition fixWith (fixCellsType : option NodeType) (row : Node) : Node :=
  match fixCellsType with
  | Some headerCellType => fixRowCells row headerCellType
  | None => row
  end.

(** The rows from number [idx] on, those numbered from [top] up to
    [bottom] passed through [f]. *)
Fixpoint markRows (f : Node -> Node) (top bottom idx : Z) (rows : list Node) : list Node :=
  match rows with
  | [] => []
  | r :: rest =>
      (if (top <=? idx) && (idx <? bottom) then f r else r)
        :: markRows f top bottom (idx + 1) rest
  end.

(** The rows numbered from [top] up to [bottom]. *)
Definition rowsBetween (top bottom : Z) (rows : list Node) : list Node :=
  take (Z.to_nat (bottom - top)) (drop (Z.to_nat top) rows).

Definition notSection (n : Node) : Prop := isTableSection n = false.

Global Instance notSection_dec n : Decision (notSection n).
Proof. unfold notSection. apply _. Defined.

Section MoreStatements.
Context `{Collaborators}.

(** The schema's type for a role has that role. *)
Definition schemaCoherent : Prop :=
  forall r ty, tableNodeTypes r = Some ty -> tableRole ty = Some r.

(** [fixCellsType] of [makeSection]: the header cell type when a head
    or a foot is made and the schema has both cell types. *)
Definition fixCellsTypeFor (sectionRole : TableRole) : option NodeType :=
  if bool_decide (sectionRole = Rhead) || bool_decide (sectionRole = Rfoot)
  then match tableNodeTypes Rcell with
       | Some _ => tableNodeTypes Rheader_cell
       | None => None
       end
  else None.

(** One turn of the inner loop of [makeSection], for the row numbered
    [idx]. *)
Definition makeSection_row (sectionRole : TableRole) (newSectionType : NodeType)
    (fixCellsType : option NodeType) (top bottom : Z) (section child : Node) (idx : Z)
    (contents : list Node) (ref : Node) (inSel : bool) (acc : list Node)
  : list Node * Node * bool * list Node :=
  let starts := idx =? top in
  let flush := starts && (0 <? Z.of_nat (length acc)) in
  let contents := if flush then contents ++ [copyNode ref acc] else contents in
  let acc := if flush then [] else acc in
  let inSel := if starts then true else inSel in
  let acc := acc ++ [if inSel then fixWith fixCellsType child else child] in
  if idx =? bottom - 1 then
    let ref := if negb (isRole (role ref) sectionRole) then section else ref in
    (contents ++ [if negb (isRole (role ref) sectionRole)
                  then Elem newSectionType (defaultAttrs newSectionType) acc
                  else copyNode ref acc],
     section, false, [])
  else (contents, ref, inSel, acc).

(** What holds between the turns of the loops of [makeSection], [done]
    being the rows passed so far: the rows placed and those held back
    are the rows passed, the selected ones fixed; rows are held back
    inside the selection from its first row on; once the selection is
    passed, its rows are the rows of one section of the role asked for. *)
Definition sectionInvariant (sectionRole : TableRole) (fixCellsType : option NodeType)
    (top bottom : Z) (contents : list Node) (inSel : bool) (acc done : list Node) : Prop :=
  let idx := Z.of_nat (length done) in
  rowsList contents ++ acc = markRows (fixWith fixCellsType) top bottom 0 done
  /\ (inSel = true <-> top < idx < bottom)
  /\ (inSel = true -> acc = fixWith fixCellsType <$> drop (Z.to_nat top) done)
  /\ (bottom <= idx ->
      exists pre s post, contents = pre ++ s :: post
        /\ role s = Some sectionRole
        /\ children s = fixWith fixCellsType <$> rowsBetween top bottom done).

End MoreStatements.

Definition isDelete (s : Step) : Prop :=
  match s with StepDelete _ _ => True | _ => False end.

Section SplitStatements.
Context `{Collaborators}.

(** The step inserts a cell created with attributes of colspan 1 and
    rowspan 1. *)
Definition insertsSingle (s : Step) : Prop :=
  exists pos node type attrs,
    s = StepInsert pos node
    /\ createAndFill type (Some attrs) = Some node
    /\ colspan attrs = 1 /\ rowspan attrs = 1.

(** The rectangle and the type of the non-deprecated [toggleHeader]:
    [rowOn] and [colOn] tell whether the first row and the first column
    consist of header cells. *)
Definition toggledRect (type : ToggleHeaderType) (rowOn colOn : bool) (r : TableRect) : Rect :=
  match type with
  | ToggleColumn => mkRect 0 (if rowOn then 1 else 0) 1 (height (tmap r))
  | ToggleRow => mkRect (if colOn then 1 else 0) 0 (width (tmap r)) 1
  | ToggleCell => rect r
  end.

Definition toggledType (type : ToggleHeaderType) (rowOn colOn : bool) : option NodeType :=
  match type with
  | ToggleColumn => if colOn then tableNodeTypes Rcell else tableNodeTypes Rheader_cell
  | ToggleRow => if rowOn then tableNodeTypes Rcell else tableNodeTypes Rheader_cell
  | ToggleCell => tableNodeTypes Rcell
  end.

End SplitStatements.

Definition isInsert (s : Step) : Prop :=
  match s with StepInsert _ _ => True | _ => False end.

(** The position lies inside a row: an ancestor below the top node has
    the row role. *)
Definition inRow (p : ResolvedPos) : Prop :=
  exists (d : nat) n,
    (0 < d)%nat /\ Z.of_nat d <= rp_depth p
    /\ rp_node p (Z.of_nat d) = Some n /\ role n = Some Rrow.

(** No cell covers both the slot of the column in the row above the
    insertion row and the slot in the insertion row. *)
Definition coveredFromAbove (m : TableMap) (row col : Z) : bool :=
  (0 <? row) && (row <? height m)
  && sameSlot (slot m (width m * row + col)) (slot m (width m * row + col - width m)).

Definition noSpanAcross (m : TableMap) (row : Z) : Prop :=
  forall col, 0 <= col < width m -> coveredFromAbove m row col = false.

(** The row next to the insertion point that [addRow] inspects, and the
    row a new cell takes its type from; [None] stands for the plain cell
    type. *)
Definition neighbourRow (row : Z) : Z := if 0 <? row then row - 1 else row.

Definition inheritedRow (hdr : bool) (row h : Z) : option Z :=
  if hdr then (if (row =? 0) || (row =? h) then None else Some row)
  else Some (neighbourRow row).

Section RowStatements.
Context `{Collaborators}.

(** The cell [addRow] creates for a column: of the plain cell type, or
    of the type of the cell of the column in the row [source]; nothing
    where there is no such type or cell. *)
Definition newRowCell (r : TableRect) (source : option Z) (col : Z) : result (option Node) :=
  type ← match source with
         | None => Ok (tableNodeTypes Rcell)
         | Some src =>
             o ← nodeAtSlot (table r) (slot (tmap r) (width (tmap r) * src + col));
             Ok (nodeType <$> (o : option Node))
         end;
  Ok (t ← (type : option NodeType); createAndFill t None).

(** The commands that only test [isInTable] when no dispatch callback
    is supplied. *)
Definition tableCommands : list (EditorState -> bool -> result Outcome) :=
  [addColumnBefore; addColumnAfter; addRowBefore; addRowAfter; deleteColumn; deleteRow;
   toggleHeaderRow; toggleHeaderColumn; toggleHeaderCell].

End RowStatements.

(** The walk of [resolve] over the children [l] of the node [n], which
    start at index [i] and offset [curPos]. *)
Fixpoint resolve_children (n : Node) (start parentOffset : Z) (l : list Node) (i curPos : Z)
  : list (Node * Z * Z) * Z :=
  match l with
  | [] => ([(n, i, start + curPos)], parentOffset)
  | x :: xs =>
      let e := curPos + nodeSize x in
      if parentOffset <=? e then
        if e =? parentOffset then ([(n, i + 1, start + e)], parentOffset)
        else if parentOffset =? curPos then ([(n, i, start + curPos)], parentOffset)
        else
          match x with
          | Text _ => ([(n, i, start + curPos)], parentOffset)
          | _ =>
              let '(p, po) :=
                resolve_path x (start + curPos + 1) (parentOffset - curPos - 1) in
              ((n, i, start + curPos) :: p, po)
          end
      else resolve_children n start parentOffset xs (i + 1) e
  end.

(** A chain of ancestors from the node [n], whose content starts at
    [start]: every entry holds a node, the index of one of its children
    or of its end, and the position before that child; the node of the
    next entry is that child. *)
Fixpoint isChain (n : Node) (start : Z) (path : list (Node * Z * Z)) : Prop :=
  match path with
  | [] => True
  | (m, i, off) :: rest =>
      m = n
      /\ exists pre post,
           children n = pre ++ post
           /\ i = Z.of_nat (length pre)
           /\ off = start + fragmentSize pre
           /\ match rest with
              | [] => True
              | (x, _, _) :: _ =>
                  (exists t a c post', x = Elem t a c /\ post = x :: post')
                  /\ isChain x (off + 1) rest
              end
  end.

(** The position directly before the child a chain ends at. *)
Definition chainEnd (path : list (Node * Z * Z)) : Z :=
  match last path with Some e => snd e | None => 0 end.

(** ** Statements about removing a column *)

(** The cell at [pos], met at [index] in column [col], also fills the
    slot to the left or to the right of it in its row. *)
Definition spansBeyond (m : TableMap) (col index pos : Z) : bool :=
  ((0 <? col) && sameSlot (slot m (index - 1)) (Some pos))
  || ((col <? width m - 1) && sameSlot (slot m (index + 1)) (Some pos)).

(** A step that takes column [col] from one cell of the table: a markup
    change that lowers the colspan of a cell reaching beyond the column
    by one, or the deletion of a cell that fills the column only, over
    the size of the cell. *)
Definition removesFromColumn (r : TableRect) (col : Z) (s : Step) : Prop :=
  exists row pos cell,
    slot (tmap r) (row * width (tmap r) + col) = Some pos
    /\ nodeAt (table r) pos = Ok (Some cell)
    /\ if spansBeyond (tmap r) col (row * width (tmap r) + col) pos
       then exists p attrs,
              s = StepSetNodeMarkup p None attrs
              /\ colspan attrs = colspan (nodeAttrs cell) - 1
              /\ forall k, k <> "colspan" -> k <> "colwidth" ->
                   attrs !! k = nodeAttrs cell !! k
       else exists start, s = StepDelete start (start + nodeSize cell).

(** ** Statements about a row added after the end of a section *)

(** The position, in the content of the table, just before the closing
    token of the section [sec] that follows the children [pre]. *)
Definition sectionEnd (pre : list Node) (sec : Node) : Z :=
  fragmentSize pre + 1 + fragmentSize (children sec).

(** The last row of the section ends in a cell. *)
Definition endsInCell (sec : Node) : Prop :=
  exists rows row cells t a content,
    children sec = rows ++ [row]
    /\ role row = Some Rrow
    /\ children row = cells ++ [Elem t a content]
    /\ isCellRole (tableRole t) = true.

(** ** Sample documents *)

Module Samples.
Import Example.

(** Two rows of two plain cells in one body; in the document the cells
    sit at 3, 7, 13 and 17. *)
Definition t22 : Node := tableOf [tbody [tr_ [td; td]; tr_ [td; td]]].
Definition d22 : Node := docOf t22.
Definition r22 : TableRect := mkTableRect (mkRect 0 0 1 1) 1 (TableMap_get t22) t22.
Definition r22_second : TableRect := mkTableRect (mkRect 0 1 1 2) 1 (TableMap_get t22) t22.

(** A first row whose first cell spans two columns, over a row of three
    cells: the cells sit at 3, 7 and 13, 17, 21. *)
Definition tSpan : Node := tableOf [tbody [tr_ [tdSpan 2 1; td]; tr_ [td; td; td]]].
Definition dSpan : Node := docOf tSpan.
Definition rSpan : TableRect := mkTableRect (mkRect 1 0 3 2) 1 (TableMap_get tSpan) tSpan.

(** One row: a header cell, then a plain cell. *)
Definition tHeadCol : Node := tableOf [tbody [tr_ [th; td]]].
Definition rHeadCol : TableRect :=
  mkTableRect (mkRect 1 0 2 1) 1 (TableMap_get tHeadCol) tHeadCol.

(** A header cell and a plain cell over two plain cells. *)
Definition tHead1 : Node := tableOf [tbody [tr_ [th; td]; tr_ [td; td]]].
Definition dHead1 : Node := docOf tHead1.
Definition rHead1 : TableRect := mkTableRect (mkRect 1 0 2 1) 1 (TableMap_get tHead1) tHead1.

(** Two bodies of one row of one cell. *)
Definition tTwoBodies : Node := tableOf [tbody [tr_ [td]]; tbody [tr_ [td]]].
Definition rFirst : TableRect :=
  mkTableRect (mkRect 0 0 1 1) 1 (TableMap_get tTwoBodies) tTwoBodies.
Definition rSecond : TableRect :=
  mkTableRect (mkRect 0 1 1 2) 1 (TableMap_get tTwoBodies) tTwoBodies.

(** A caption, a head of one row and a body of two rows. *)
Definition tFull : Node :=
  tableOf [caption; thead [tr_ [th; th]]; tbody [tr_ [td; td]; tr_ [td; td]]].

(** One row of a plain cell and a cell with a background. *)
Definition tdGreen : Node :=
  Elem cellT (<["background" := VStr "#dfd"]> (spans 1 1)) [par].
Definition tGreen : Node := tableOf [tbody [tr_ [td; tdGreen]]].
Definition dGreen : Node := docOf tGreen.

End Samples.

(** * Properties *)

Import Example Samples.

(** ** Lists, ranges and attribute objects *)

Lemma match_nonempty {A B} (l : list A) (x y : B) :
  l <> [] -> match l with [] => x | _ :: _ => y end = y.
Proof. by destruct l. Qed.

Lemma elem_of_range a b k : k ∈ range a b <-> a <= k < b.
Proof.
  unfold range. rewrite list_elem_of_fmap. split.
  - intros (i & -> & Hi). apply elem_of_seq in Hi. lia.
  - intros Hk. exists (Z.to_nat (k - a)). split; [lia|]. apply elem_of_seq. lia.
Qed.

Lemma existsb_range f a b :
  existsb f (range a b) = true <-> exists k, a <= k < b /\ f k = true.
Proof.
  rewrite existsb_exists. split.
  - intros (k & Hin & Hf). exists k. split; [|done].
    apply elem_of_range. by apply list_elem_of_In.
  - intros (k & Hk & Hf). exists k. split; [|done].
    apply list_elem_of_In. by apply elem_of_range.
Qed.

Lemma forallb_range f a b :
  forallb f (range a b) = true -> forall k, a <= k < b -> f k = true.
Proof.
  rewrite forallb_forall. intros Hall k Hk. apply Hall.
  apply list_elem_of_In. by apply elem_of_range.
Qed.

Lemma sameSlot_true a b : sameSlot a b = true <-> a = b.
Proof. unfold sameSlot. apply bool_decide_eq_true. Qed.

Lemma attr_insert_eq (a : Attrs) k v : attr (<[k:=v]> a) k = v.
Proof. unfold attr. by rewrite lookup_insert_eq. Qed.

Lemma attr_insert_ne (a : Attrs) k k' v : k <> k' -> attr (<[k:=v]> a) k' = attr a k'.
Proof. intros. unfold attr. by rewrite lookup_insert_ne. Qed.

Lemma attr_array (a : Attrs) k cw : attr a k = VArr cw -> a !! k = Some (VArr cw).
Proof. unfold attr. destruct (a !! k); simpl; congruence. Qed.

(** ** [splice] inside the array *)

Lemma splice_insert_in_range (l : list Z) (pos : Z) (items : list Z) :
  0 <= pos <= Z.of_nat (length l) ->
  splice l pos 0 items = take (Z.to_nat pos) l ++ items ++ drop (Z.to_nat pos) l.
Proof.
  intros Hp. unfold splice, splice_start.
  destruct (Z.ltb_spec pos 0); [lia|].
  rewrite Z.min_l by lia.
  replace (Z.min (Z.max 0 0) (Z.of_nat (length l) - pos)) with 0 by lia.
  by rewrite Z.add_0_r.
Qed.

Lemma iter_splice_zeros (k : nat) (l : list Z) (pos : Z) :
  0 <= pos <= Z.of_nat (length l) ->
  Nat.iter k (fun a => splice a pos 0 [0]) l
  = take (Z.to_nat pos) l ++ replicate k 0 ++ drop (Z.to_nat pos) l.
Proof.
  intros Hp. induction k as [|k IH]; simpl.
  - by rewrite take_drop.
  - rewrite IH. rewrite splice_insert_in_range.
    + rewrite take_app_le by (rewrite length_take; lia).
      rewrite take_take, Nat.min_id.
      rewrite drop_app_le by (rewrite length_take; lia).
      rewrite drop_ge by (rewrite length_take; lia).
      simpl. done.
    + rewrite !length_app, length_take, length_replicate, length_drop. lia.
Qed.

Lemma splice_remove_zeros (k : nat) (l : list Z) (pos : Z) :
  0 <= pos <= Z.of_nat (length l) ->
  splice (take (Z.to_nat pos) l ++ replicate k 0 ++ drop (Z.to_nat pos) l)
    pos (Z.of_nat k) [] = l.
Proof.
  intros Hp. unfold splice, splice_start.
  destruct (Z.ltb_spec pos 0); [lia|].
  rewrite !length_app, length_take, length_replicate, length_drop.
  rewrite Z.min_l by lia.
  rewrite (Z.min_l (Z.max (Z.of_nat k) 0)) by lia.
  rewrite Z.max_l by lia.
  rewrite take_app_le by (rewrite length_take; lia).
  rewrite take_take, Nat.min_id. simpl.
  rewrite drop_app_ge by (rewrite length_take; lia).
  rewrite length_take.
  rewrite drop_app_ge by (rewrite length_replicate; lia).
  rewrite length_replicate, drop_drop.
  replace (Z.to_nat pos + (Z.to_nat (pos + Z.of_nat k) - Z.to_nat pos `min` length l - k))%nat
    with (Z.to_nat pos) by lia.
  apply take_drop.
Qed.

Lemma splice_nothing (l : list Z) (pos n : Z) : n <= 0 -> splice l pos n [] = l.
Proof.
  intros Hn. unfold splice.
  set (s := splice_start _ _).
  assert (0 <= s <= Z.of_nat (length l))
    by (unfold s, splice_start; destruct (Z.ltb_spec pos 0); lia).
  replace (Z.min (Z.max n 0) (Z.of_nat (length l) - s)) with 0 by lia.
  rewrite Z.add_0_r. simpl. apply take_drop.
Qed.

Lemma splice_roundtrip (l : list Z) (pos n : Z) :
  0 <= pos <= Z.of_nat (length l) ->
  splice (Nat.iter (Z.to_nat n) (fun a => splice a pos 0 [0]) l) pos n [] = l.
Proof.
  intros Hp. destruct (Z.le_gt_cases n 0) as [Hn|Hn].
  - replace (Z.to_nat n) with 0%nat by lia. simpl. by apply splice_nothing.
  - rewrite iter_splice_zeros by done.
    rewrite <- (Z2Nat.id n) at 2 by lia. by apply splice_remove_zeros.
Qed.

Lemma colspan_restored (a : Attrs) c n :
  a !! "colspan" = Some (VNum c) ->
  <["colspan" := VNum (c + n - n)]> (<["colspan" := VNum (c + n)]> a) = a.
Proof.
  intros Hc. rewrite insert_insert_eq. replace (c + n - n) with c by lia.
  by apply insert_id.
Qed.

(** ** Column spans *)

(** C9, as amended: for a cell attribute object with a numeric colspan
    whose colwidth, when it is an array, holds a positive entry, and for
    a position [pos] between 0 and the length of that array,
    [removeColSpan (addColSpan attrs pos n) pos n] is [attrs] again, for
    every count [n]; and [removeColSpan] sets colwidth to null whenever
    no positive width is left after the removal. *)
Theorem removeColSpan_addColSpan (attrs : Attrs) (pos n : Z) :
  typedCellAttrs attrs ->
  (forall cw, attrs !! "colwidth" = Some (VArr cw) ->
     0 <= pos <= Z.of_nat (length cw) /\ some_positive cw = true) ->
  removeColSpan (addColSpan attrs pos n) pos n = attrs
  /\ (forall cw, attr attrs "colwidth" = VArr cw ->
        some_positive (splice cw pos n []) = false ->
        attr (removeColSpan attrs pos n) "colwidth" = VNull).
Proof.
  intros [c Hc] Hw.
  assert (Hcs : colspan attrs = c) by (unfold colspan, attr; by rewrite Hc).
  split.
  - unfold addColSpan. rewrite attr_insert_ne by done. rewrite Hcs.
    destruct (attr attrs "colwidth") as [| |b|z|s|cw] eqn:E;
      try (unfold removeColSpan, colspan; rewrite attr_insert_eq;
           rewrite !attr_insert_ne by done; rewrite E; simpl;
           by apply colspan_restored).
    apply attr_array in E. destruct (Hw cw E) as [Hpos Hsome].
    unfold removeColSpan, colspan.
    rewrite attr_insert_ne by done. rewrite attr_insert_eq.
    rewrite attr_insert_ne by done. rewrite attr_insert_eq. simpl.
    rewrite splice_roundtrip by done. rewrite Hsome. simpl.
    rewrite (insert_insert_ne _ "colspan" "colwidth") by done.
    rewrite insert_insert_eq.
    rewrite colspan_restored by done.
    by apply insert_id.
  - intros cw Hcw Hnone. unfold removeColSpan.
    rewrite attr_insert_ne by done. rewrite Hcw, Hnone. simpl.
    apply attr_insert_eq.
Qed.

Lemma removeColSpan_addColSpan_witness :
  removeColSpan (addColSpan (<["colwidth" := VArr [5; 7]]> (spans 2 1)) 1 2) 1 2
    = <["colwidth" := VArr [5; 7]]> (spans 2 1)
  /\ (forall cw,
        attr (<["colwidth" := VArr [5; 7]]> (spans 2 1)) "colwidth" = VArr cw ->
        some_positive (splice cw 1 2 []) = false ->
        attr (removeColSpan (<["colwidth" := VArr [5; 7]]> (spans 2 1)) 1 2) "colwidth"
          = VNull).
Proof.
  apply removeColSpan_addColSpan.
  - exists 2. reflexivity.
  - intros cw Hcw. vm_compute in Hcw. injection Hcw as <-.
    split; [simpl; lia | reflexivity].
Defined.

(** Without the bound on the position the round trip fails past the
    end of the array: with colwidth [[5]], position 3 and count 2 the two
    zeros are appended at the end and the removal at position 3 finds
    nothing to remove. *)
Lemma removeColSpan_addColSpan_counterexample :
  removeColSpan (addColSpan (<["colwidth" := VArr [5]]> (spans 1 1)) 3 2) 3 2
    <> <["colwidth" := VArr [5]]> (spans 1 1).
Proof.
  intros Heq. apply (f_equal (fun a => a !! "colwidth")) in Heq.
  vm_compute in Heq. discriminate.
Qed.

(** ** Row addressing *)

Lemma nodeSize_Elem t a c : nodeSize (Elem t a c) = 2 + fragmentSize c.
Proof. reflexivity. Qed.

Lemma fragmentSize_app l1 l2 : fragmentSize (l1 ++ l2) = fragmentSize l1 + fragmentSize l2.
Proof. induction l1 as [|x xs IH]; simpl; [done | rewrite IH; lia]. Qed.

Lemma rowsOf_app l1 l2 : rowsOf (l1 ++ l2) = rowsOf l1 + rowsOf l2.
Proof. induction l1 as [|x xs IH]; simpl; [done | rewrite IH; lia]. Qed.

Lemma rowsOf_nonneg l : 0 <= rowsOf l.
Proof.
  induction l as [|x xs IH]; simpl; [lia|].
  unfold childCount. destruct (isTableSection x); lia.
Qed.

Lemma rowsOf_caption cap :
  Forall (fun c => isTableSection c = false) cap -> rowsOf cap = 0.
Proof. induction 1 as [|c cap Hc _ IH]; simpl; [done|]. by rewrite Hc, IH. Qed.

Lemma rowsCount_fold l acc :
  fold_left (fun count section =>
               if isTableSection section then count + childCount section else count) l acc
  = acc + rowsOf l.
Proof.
  revert acc. induction l as [|x xs IH]; intros acc; simpl; [lia|].
  rewrite IH. destruct (isTableSection x); lia.
Qed.

Lemma rowsCount_rowsOf t : rowsCount t = rowsOf (children t).
Proof. unfold rowsCount. by rewrite rowsCount_fold. Qed.

Lemma isRowsSection_size s : isRowsSection s -> nodeSize s = 2 + fragmentSize (children s).
Proof.
  intros [_ Hc].
  destruct s as [len|t a|t a c]; try (unfold childCount in Hc; simpl in Hc; lia).
  apply nodeSize_Elem.
Qed.

(** A caption in front of the sections only moves the position on. *)
Lemma getRow_loop_skip cap l row rPos prev idx :
  Forall (fun c => isTableSection c = false) cap ->
  getRow_loop (cap ++ l) row rPos prev idx
  = getRow_loop l row (rPos + fragmentSize cap) prev idx.
Proof.
  intros Hcap. revert rPos. induction Hcap as [|c cap Hc _ IH]; intros rPos; simpl.
  - f_equal. lia.
  - rewrite Hc, IH. f_equal. lia.
Qed.

(** The loop walks past the sections whose rows all come before the row
    looked for, as long as a child follows them. *)
Lemma getRow_loop_advance secs rest row rPos prev idx :
  Forall isRowsSection secs -> rest <> [] -> prev + rowsOf secs <= row ->
  getRow_loop (secs ++ rest) row rPos prev idx
  = getRow_loop rest row (rPos + fragmentSize secs) (prev + rowsOf secs)
      (idx + Z.of_nat (length secs)).
Proof.
  intros Hsecs Hrest. revert rPos prev idx.
  induction Hsecs as [|s secs [Hs Hr] _ IH]; intros rPos prev idx Hle.
  - simpl. f_equal; lia.
  - cbn [app getRow_loop]. rewrite Hs. cbn [rowsOf] in Hle. rewrite Hs in Hle.
    pose proof (rowsOf_nonneg secs).
    destruct (Z.ltb_spec 0 (childCount s)); [|lia].
    destruct (Z.leb_spec (prev + childCount s) row); [|lia].
    rewrite match_nonempty by (destruct secs; [done | discriminate]).
    rewrite IH by lia. cbn [fragmentSize rowsOf length]. rewrite Hs. f_equal; lia.
Qed.

Lemma filter_sections_caption cap :
  Forall (fun c => isTableSection c = false) cap ->
  filter (fun n => Is_true (isTableSection n)) cap = [].
Proof.
  induction 1 as [|c cap Hc _ IH]; [done|].
  rewrite filter_cons_False; [done|]. rewrite Hc. simpl. tauto.
Qed.

Lemma filter_sections_all l :
  Forall isRowsSection l -> filter (fun n => Is_true (isTableSection n)) l = l.
Proof.
  induction 1 as [|c l [Hc _] _ IH]; [done|].
  rewrite filter_cons_True; [by rewrite IH|]. by rewrite Hc.
Qed.

(** The children before a section of a valid table are the caption, if
    any, and sections with rows; so are the section and what follows. *)
Lemma valid_table_split t pre sec rest :
  valid_table t -> children t = pre ++ sec :: rest -> isTableSection sec = true ->
  exists cap secs, pre = cap ++ secs
    /\ Forall (fun c => isTableSection c = false) cap
    /\ Forall isRowsSection (secs ++ sec :: rest).
Proof.
  intros (cap & secs & Hch & _ & Hcap & _ & Hsecs) Hsplit Hsec.
  rewrite Hch in Hsplit. apply app_eq_app in Hsplit as [l [[-> Hr]|[-> ->]]].
  - destruct l as [|x l].
    + exists pre, []. rewrite !app_nil_r in *. simpl in *. by subst secs.
    + injection Hr as <- _. apply Forall_app in Hcap as [_ Hx].
      apply Forall_inv in Hx. congruence.
  - by exists cap, l.
Qed.

(** At the total row count the loop walks past every section and stops
    before the closing token of the last one. *)
Lemma getRow_loop_last cap secs lastS rPos idx :
  Forall (fun c => isTableSection c = false) cap ->
  Forall isRowsSection secs -> isRowsSection lastS ->
  getRow_loop (cap ++ secs ++ [lastS]) (rowsOf (cap ++ secs ++ [lastS])) rPos 0 idx
  = mkRowRef None (rPos + fragmentSize cap + fragmentSize secs + nodeSize lastS - 1)
      (idx + Z.of_nat (length secs) + 1).
Proof.
  intros Hcap Hsecs [Hs Hrows].
  rewrite getRow_loop_skip by done.
  rewrite rowsOf_app, (rowsOf_caption cap), rowsOf_app by done.
  pose proof (rowsOf_nonneg [lastS]).
  rewrite getRow_loop_advance by (done || lia).
  cbn [getRow_loop rowsOf]. rewrite Hs.
  destruct (Z.ltb_spec 0 (childCount lastS)); [|lia].
  destruct (Z.leb_spec (0 + rowsOf secs + childCount lastS)
              (0 + (rowsOf secs + (childCount lastS + 0)))); [|lia].
  f_equal; lia.
Qed.

(** The last child of a valid table is a section with rows. *)
Lemma valid_table_last t pre lastS :
  valid_table t -> children t = pre ++ [lastS] ->
  exists cap secs, pre = cap ++ secs
    /\ Forall (fun c => isTableSection c = false) cap
    /\ Forall isRowsSection secs /\ isRowsSection lastS.
Proof.
  intros Hv Hlast.
  assert (Hsec : isTableSection lastS = true).
  { destruct Hv as (cap & secs & Hch & _ & _ & Hne & Hsecs).
    destruct (exists_last Hne) as (secs' & s' & ->).
    rewrite Hch, app_assoc in Hlast. apply app_inj_tail in Hlast as [_ <-].
    apply Forall_app in Hsecs as [_ Hs']. apply Forall_inv in Hs'. apply Hs'. }
  destruct (valid_table_split t pre lastS [] Hv Hlast Hsec) as (cap & secs & -> & Hcap & Hall).
  apply Forall_app in Hall as [Hsecs Hs]. apply Forall_inv in Hs.
  by exists cap, secs.
Qed.

(** C7: for a valid table (an optional caption, then sections that each
    hold a row), [getRow] at the total row count returns no node, the
    position just after the last row of the last section (its opening
    token and its rows counted from where the section starts), and the
    index of the last section. *)
Theorem getRow_after_last_row (t : Node) (offset : Z) (pre : list Node) (lastS : Node) :
  valid_table t ->
  children t = pre ++ [lastS] ->
  getRow t (rowsCount t) offset
  = mkRowRef None
      (offset + fragmentSize pre + 1 + fragmentSize (children lastS))
      (sectionsCount t - 1).
Proof.
  intros Hv Hlast.
  destruct (valid_table_last t pre lastS Hv Hlast) as (cap & secs & -> & Hcap & Hsecs & Hs).
  unfold getRow, sectionsCount. rewrite rowsCount_rowsOf, Hlast, <- app_assoc.
  rewrite getRow_loop_last by done.
  rewrite (isRowsSection_size lastS) by done.
  rewrite filter_app, filter_sections_caption by done.
  rewrite filter_sections_all
    by (apply Forall_app; split; [done | constructor; [done | constructor]]).
  rewrite fragmentSize_app, !length_app. simpl. f_equal; lia.
Qed.

Lemma getRow_after_last_row_witness :
  valid_table tFull
  /\ getRow tFull (rowsCount tFull) 1
     = mkRowRef None
         (1 + fragmentSize [caption; thead [tr_ [th; th]]] + 1
          + fragmentSize [tr_ [td; td]; tr_ [td; td]])
         (sectionsCount tFull - 1).
Proof.
  assert (Hv : valid_table tFull).
  { exists [caption], [thead [tr_ [th; th]]; tbody [tr_ [td; td]; tr_ [td; td]]].
    split; [reflexivity|]. split; [simpl; lia|].
    split; [by repeat constructor|]. split; [discriminate|].
    repeat constructor; reflexivity. }
  split; [exact Hv|].
  apply (getRow_after_last_row tFull 1 [caption; thead [tr_ [th; th]]]
           (tbody [tr_ [td; td]; tr_ [td; td]]) Hv).
  reflexivity.
Defined.

(** ** Rectangles that cells straddle *)

(** An equal pair of slots across an edge is a cell that straddles. *)
Lemma cellsOverlapRectangle_straddles m r :
  validRect m r -> cellsOverlapRectangle m r = true -> straddles m r.
Proof.
  intros (Hl & Hr & Ht & Hb) H. unfold cellsOverlapRectangle in H.
  apply orb_true_iff in H as [H|H]; apply existsb_range in H as (k & Hk & H);
    apply orb_true_iff in H as [H|H]; apply andb_true_iff in H as [Hc H];
    apply sameSlot_true in H; apply Z.ltb_lt in Hc.
  - exists (top r + k), (left r), (top r + k), (left r - 1).
    unfold inRect, inGrid, cellOf. repeat split; try lia.
    etransitivity; [|etransitivity; [exact H|]]; f_equal; lia.
  - exists (top r + k), (right r - 1), (top r + k), (right r).
    unfold inRect, inGrid, cellOf. repeat split; try lia.
    etransitivity; [|etransitivity; [exact H|]]; f_equal; lia.
  - exists (top r), (left r + k), (top r - 1), (left r + k).
    unfold inRect, inGrid, cellOf. repeat split; try lia.
    etransitivity; [|etransitivity; [exact H|]]; f_equal; lia.
  - exists (bottom r - 1), (left r + k), (bottom r), (left r + k).
    unfold inRect, inGrid, cellOf. repeat split; try lia.
    etransitivity; [|etransitivity; [exact H|]]; f_equal; lia.
Qed.

(** A straddling cell, covering a rectangle of slots, shows as an equal
    pair of slots across one of the four edges. *)
Lemma straddles_cellsOverlapRectangle m r :
  rectangular m -> validRect m r -> straddles m r -> cellsOverlapRectangle m r = true.
Proof.
  intros Hrect (Hl & Hr & Ht & Hb)
    (row & col & row' & col' & [Hrow Hcol] & Hg & Hout & Hsame).
  assert (Hin : inGrid m row col) by (unfold inGrid; lia).
  destruct Hg as [Hg1 Hg2].
  assert (Hbox : forall a b, Z.min row row' <= a <= Z.max row row' ->
                   Z.min col col' <= b <= Z.max col col' ->
                   cellOf m a b = cellOf m row col).
  { intros a b Ha Hb'. apply (Hrect row col row' col'); unfold inGrid; auto. }
  unfold cellsOverlapRectangle. apply orb_true_iff.
  destruct (Z.lt_ge_cases col' (left r)) as [Hc|Hc].
  { left. apply existsb_range. exists (row - top r). split; [lia|].
    apply orb_true_iff. left. apply andb_true_iff. split; [apply Z.ltb_lt; lia|].
    apply sameSlot_true.
    transitivity (cellOf m row (left r)); [unfold cellOf; f_equal; lia|].
    transitivity (cellOf m row (left r - 1)); [|unfold cellOf; f_equal; lia].
    by rewrite (Hbox row (left r)), (Hbox row (left r - 1)) by lia. }
  destruct (Z.lt_ge_cases col' (right r)) as [Hc2|Hc2].
  2:{ left. apply existsb_range. exists (row - top r). split; [lia|].
    apply orb_true_iff. right. apply andb_true_iff. split; [apply Z.ltb_lt; lia|].
    apply sameSlot_true.
    transitivity (cellOf m row (right r - 1)); [unfold cellOf; f_equal; lia|].
    transitivity (cellOf m row (right r)); [|unfold cellOf; f_equal; lia].
    by rewrite (Hbox row (right r - 1)), (Hbox row (right r)) by lia. }
  right. apply existsb_range. exists (col' - left r). split; [lia|].
  apply orb_true_iff.
  destruct (Z.lt_ge_cases row' (top r)) as [Hr1|Hr1].
  { left. apply andb_true_iff. split; [apply Z.ltb_lt; lia|].
    apply sameSlot_true.
    transitivity (cellOf m (top r) col'); [unfold cellOf; f_equal; lia|].
    transitivity (cellOf m (top r - 1) col'); [|unfold cellOf; f_equal; lia].
    by rewrite (Hbox (top r) col'), (Hbox (top r - 1) col') by lia. }
  assert (bottom r <= row') by (unfold inRect in Hout; lia).
  right. apply andb_true_iff. split; [apply Z.ltb_lt; lia|].
  apply sameSlot_true.
  transitivity (cellOf m (bottom r - 1) col'); [unfold cellOf; f_equal; lia|].
  transitivity (cellOf m (bottom r) col'); [|unfold cellOf; f_equal; lia].
  by rewrite (Hbox (bottom r - 1) col'), (Hbox (bottom r) col') by lia.
Qed.

Lemma rectangularb_sound m : rectangularb m = true -> rectangular m.
Proof.
  unfold rectangularb. intros Hall r1 c1 r2 c2 [Hr1 Hc1] [Hr2 Hc2] Hsame row col Hrow Hcol.
  pose proof (forallb_range _ _ _ Hall r1 Hr1) as H1.
  pose proof (forallb_range _ _ _ H1 c1 Hc1) as H2.
  pose proof (forallb_range _ _ _ H2 r2 Hr2) as H3.
  pose proof (forallb_range _ _ _ H3 c2 Hc2) as H4. simpl in H4.
  apply sameSlot_true in Hsame. rewrite Hsame in H4. simpl in H4.
  pose proof (forallb_range _ _ _ H4 row ltac:(lia)) as H5.
  pose proof (forallb_range _ _ _ H5 col ltac:(lia)) as H6.
  by apply sameSlot_true in H6.
Qed.

Lemma sectionOfRow_lower counts row s : s <= sectionOfRow counts row s.
Proof.
  revert row s. induction counts as [|c rest IH]; intros row s; simpl; [lia|].
  destruct (row <? c); [lia|]. specialize (IH (row - c) (s + 1)). lia.
Qed.

Lemma sectionOfRow_mono counts row row' s :
  row <= row' -> sectionOfRow counts row s <= sectionOfRow counts row' s.
Proof.
  revert row row' s. induction counts as [|c rest IH]; intros row row' s Hle; simpl; [lia|].
  destruct (Z.ltb_spec row c), (Z.ltb_spec row' c); try lia.
  - pose proof (sectionOfRow_lower rest (row' - c) (s + 1)). lia.
  - apply IH. lia.
Qed.

Lemma rectOverOneSection_spec m r :
  top r < bottom r -> (rectOverOneSection m r = true <-> oneSection m r).
Proof.
  intros Hlt. unfold rectOverOneSection, oneSection. rewrite Z.eqb_eq. split.
  - intros Heq i j Hi Hj.
    pose proof (sectionOfRow_mono (sectionRows m) (top r) i 0 ltac:(lia)).
    pose proof (sectionOfRow_mono (sectionRows m) i (bottom r - 1) 0 ltac:(lia)).
    pose proof (sectionOfRow_mono (sectionRows m) (top r) j 0 ltac:(lia)).
    pose proof (sectionOfRow_mono (sectionRows m) j (bottom r - 1) 0 ltac:(lia)).
    lia.
  - intros H. apply H; lia.
Qed.

Section MergeProperties.
Context `{Collaborators}.

(** Without a dispatch callback a selection that passes the guards is
    accepted: the guards are exactly what is refused. *)
Lemma mergeCells_accepts (st : EditorState) (r : TableRect) :
  manyCellsSelected st -> selectedRect st = Ok r -> validRect (tmap r) (rect r) ->
  oneSection (tmap r) (rect r) -> ~ straddles (tmap r) (rect r) ->
  mergeCells st false = Ok (true, None).
Proof.
  intros (a & h & ac & hc & Hsel & Hne) Hr Hvalid Hone Hns.
  unfold mergeCells, accept. rewrite Hsel.
  destruct (Z.eqb_spec (rp_pos ac) (rp_pos hc)); [done|].
  rewrite Hr. simpl.
  assert (Htop : top (rect r) < bottom (rect r)) by (unfold validRect in Hvalid; lia).
  apply (rectOverOneSection_spec _ _ Htop) in Hone. rewrite Hone. simpl.
  destruct (cellsOverlapRectangle _ _) eqn:Hover; [|done].
  exfalso. apply Hns. by apply cellsOverlapRectangle_straddles.
Qed.

(** A false return of [mergeCells] comes with no transaction. *)
Lemma mergeCells_false_no_dispatch (st : EditorState) (dispatch : bool) (o : option Transaction) :
  mergeCells st dispatch = Ok (false, o) -> o = None.
Proof.
  unfold mergeCells, refuse, accept, dispatched.
  destruct (selection st); try congruence.
  destruct (_ =? _); [congruence|].
  destruct (selectedRect st) as [r| |]; simpl; try congruence.
  destruct (rectOverOneSection _ _); simpl; [|congruence].
  destruct (cellsOverlapRectangle _ _); [congruence|].
  destruct dispatch; [|congruence].
  destruct (mergeCells_loop _ _ _) as [a| |]; simpl; try congruence.
  destruct (m_merged a) as [[? ?]|]; congruence.
Qed.

(** C1: [mergeCells] returns false, handing no transaction to the
    dispatch callback, unless the selection is a cell selection of more
    than one cell whose rectangle lies in one section and which no cell
    straddles; and whenever it returns false, nothing is dispatched.
    The rectangle is the one [selectedRect] computes, on a grid map whose
    cells cover rectangles. *)
Theorem mergeCells_refuses (st : EditorState) (dispatch : bool) :
  notMergeable st ->
  mergeCells st dispatch = Ok (false, None)
  /\ (forall st' d' o, mergeCells st' d' = Ok (false, o) -> o = None).
Proof.
  intros Hno. split; [|intros st' d' o; apply mergeCells_false_no_dispatch].
  unfold mergeCells, refuse.
  destruct (selection st) as [a h ac hc| |] eqn:Hsel; try done.
  destruct (Z.eqb_spec (rp_pos ac) (rp_pos hc)) as [|Hne]; [done|].
  destruct Hno as [Hno | (r & Hr & Hrect & Hvalid & Hno)].
  { exfalso. apply Hno. by exists a, h, ac, hc. }
  rewrite Hr. simpl.
  destruct (rectOverOneSection _ _) eqn:Hone; simpl; [|done].
  destruct (cellsOverlapRectangle _ _) eqn:Hover; [done|].
  exfalso. apply Hno. split.
  - apply rectOverOneSection_spec; [|done]. unfold validRect in Hvalid. lia.
  - intros Hs. apply straddles_cellsOverlapRectangle in Hs; [congruence|done|done].
Qed.

End MergeProperties.

(** In the sample the selection runs from the middle cell of the second
    row to the last cell of the first row; the first cell of the first
    row spans columns 0 and 1 and so straddles the rectangle. *)
Lemma mergeCells_refuses_witness :
  notMergeable (cellSelection dSpan 17 7)
  /\ mergeCells (cellSelection dSpan 17 7) true = Ok (false, None)
  /\ (forall st' d' o, mergeCells st' d' = Ok (false, o) -> o = None).
Proof.
  assert (Hno : notMergeable (cellSelection dSpan 17 7)).
  { right. exists rSpan. split; [vm_compute; reflexivity|].
    split; [apply rectangularb_sound; vm_compute; reflexivity|].
    split; [vm_compute; repeat split; congruence|].
    intros [_ Hns]. apply Hns. exists 0, 1, 0, 0.
    vm_compute. repeat split; try congruence. intros [_ [Hc _]]. by apply Hc. }
  split; [exact Hno|]. apply (mergeCells_refuses (cellSelection dSpan 17 7) true Hno).
Defined.

(** ** Refusals of the commands *)

(** The walks up the ancestors of a position find a node at every
    depth: [isInTable] and [cellWrapping] return. *)
Lemma roleAt_returns (p : ResolvedPos) (d : nat) :
  (0 < d)%nat -> Z.of_nat d <= rp_depth p -> exists o, roleAt p (Z.of_nat d) = Ok o.
Proof.
  intros Hd Hle.
  assert (Hlt : (Z.of_nat d <? 0) = false) by (apply Z.ltb_ge; lia).
  unfold roleAt, rp_node, resolveDepth, pathEntry, rp_depth in *.
  rewrite !Hlt, Nat2Z.id.
  destruct (lookup_lt_is_Some_2 (rp_path p) d ltac:(lia)) as [e He].
  rewrite He. simpl. eauto.
Qed.

Lemma isInTable_loop_returns (p : ResolvedPos) (d : nat) :
  (d <= Z.to_nat (rp_depth p))%nat -> exists b, isInTable_loop p d = Ok b.
Proof.
  induction d as [|d IH]; intros Hle; simpl; [eauto|].
  destruct (roleAt_returns p (S d) ltac:(lia) ltac:(lia)) as [o Ho].
  rewrite Ho. simpl. destruct (isRole o Rrow); [eauto|]. apply IH. lia.
Qed.

Lemma isInTable_returns (st : EditorState) : exists b, isInTable st = Ok b.
Proof. unfold isInTable. by apply isInTable_loop_returns. Qed.

Lemma cellWrapping_loop_returns (p : ResolvedPos) (d : nat) :
  (d <= Z.to_nat (rp_depth p))%nat -> exists o, cellWrapping_loop p d = Ok o.
Proof.
  induction d as [|d IH]; intros Hle; simpl; [eauto|].
  destruct (roleAt_returns p (S d) ltac:(lia) ltac:(lia)) as [o Ho].
  rewrite Ho. simpl. destruct (isCellRole o); [eauto|]. apply IH. lia.
Qed.

Lemma cellWrapping_returns (p : ResolvedPos) : exists o, cellWrapping p = Ok o.
Proof. unfold cellWrapping. by apply cellWrapping_loop_returns. Qed.

Section RefusalProperties.
Context `{Collaborators}.

(** With a dispatch callback, a selection over all columns is refused. *)
Lemma deleteColumn_full_width_dispatch (st : EditorState) (r : TableRect) :
  isInTable st = Ok true -> selectedRect st = Ok r ->
  left (rect r) = 0 -> right (rect r) = width (tmap r) ->
  deleteColumn st true = Ok (false, None).
Proof.
  intros Hin Hr Hl Hw. unfold deleteColumn, refuse. rewrite Hin, Hr. simpl.
  by rewrite Hl, Hw, !Z.eqb_refl.
Qed.

(** Without one, the rectangle is not looked at. *)
Lemma deleteColumn_without_dispatch (st : EditorState) :
  isInTable st = Ok true -> deleteColumn st false = Ok (true, None).
Proof. intros Hin. unfold deleteColumn. by rewrite Hin. Qed.

Lemma deleteRow_full_height_dispatch (st : EditorState) (r : TableRect) :
  isInTable st = Ok true -> selectedRect st = Ok r ->
  top (rect r) = 0 -> bottom (rect r) = height (tmap r) ->
  deleteRow st true = Ok (false, None).
Proof.
  intros Hin Hr Ht Hh. unfold deleteRow, refuse. rewrite Hin, Hr. simpl.
  by rewrite Ht, Hh, !Z.eqb_refl.
Qed.

Lemma deleteRow_without_dispatch (st : EditorState) :
  isInTable st = Ok true -> deleteRow st false = Ok (true, None).
Proof. intros Hin. unfold deleteRow. by rewrite Hin. Qed.

(** Without a dispatch callback nothing else is tested: a head that
    starts at the first row, a foot that reaches the last row and any
    body are accepted when the schema has the section type, whatever the
    columns of the selection. *)
Lemma makeSection_accepts_without_dispatch (st : EditorState) (r : TableRect) :
  isInTable st = Ok true ->
  selectedRect st = Ok r ->
  (top (rect r) = 0 -> is_Some (tableNodeTypes Rhead) -> makeHead st false = Ok (true, None))
  /\ (bottom (rect r) = height (tmap r) -> is_Some (tableNodeTypes Rfoot) ->
      makeFoot st false = Ok (true, None))
  /\ (is_Some (tableNodeTypes Rbody) -> makeBody st false = Ok (true, None)).
Proof.
  intros Hin Hr. unfold makeHead, makeFoot, makeBody, makeSection, accept.
  rewrite Hin, Hr. simpl. repeat split.
  - intros -> [ty ->]. done.
  - intros -> [ty ->]. by rewrite Z.ltb_irrefl.
  - intros [ty ->]. done.
Qed.

(** C3, as amended: when the selection lies in a table, [makeHead]
    refuses whenever the selected rows do not start at the first row of
    the table (top > 0), and [makeFoot] whenever they do not reach the
    last row (bottom < grid height); the width of the selection plays no
    part, and [makeBody] has no such requirement. *)
Theorem makeSection_refuses (st : EditorState) (dispatch : bool) (r : TableRect) :
  isInTable st = Ok true ->
  selectedRect st = Ok r ->
  (0 < top (rect r) -> makeHead st dispatch = Ok (false, None))
  /\ (bottom (rect r) < height (tmap r) -> makeFoot st dispatch = Ok (false, None)).
Proof.
  intros Hin Hr. unfold makeHead, makeFoot, makeSection, refuse.
  rewrite Hin, Hr. simpl. split; intros Hlt.
  - destruct (Z.ltb_spec 0 (top (rect r))); [done | lia].
  - destruct (Z.ltb_spec (bottom (rect r)) (height (tmap r))); [done | lia].
Qed.

(** C8: when the cell the command resolves has colspan 1 and rowspan 1,
    [splitCellWithType], with any type chooser, and [splitCell] return
    false without raising and hand nothing to the dispatch callback. *)
Theorem splitCell_refuses_single (st : EditorState) (dispatch : bool)
    (getCellType : Node -> Z -> Z -> option NodeType) (cellNode : Node) (cellPos : Z) :
  splitTarget st = Ok (Some (cellNode, cellPos)) ->
  colspan (nodeAttrs cellNode) = 1 ->
  rowspan (nodeAttrs cellNode) = 1 ->
  splitCellWithType getCellType st dispatch = Ok (false, None)
  /\ splitCell st dispatch = Ok (false, None).
Proof.
  intros Ht Hc Hr. unfold splitCell, splitCellWithType, refuse.
  rewrite Ht. simpl. by rewrite Hc, Hr.
Qed.

Lemma setCellAttr_fold name value (cells : list (Node * Z)) (tr : Transaction) :
  steps (fold_left
           (fun tr '(node, pos) =>
              if negb (strictEq (attr (nodeAttrs node) name) value)
              then addStep tr (rewrites name value node pos)
              else tr) cells tr)
  = steps tr ++
      ((fun c => rewrites name value c.1 c.2) <$>
         filter (fun c => strictEq (attr (nodeAttrs c.1) name) value = false) cells).
Proof.
  revert tr. induction cells as [|[node pos] cells IH]; intros tr; simpl.
  - by rewrite app_nil_r.
  - rewrite IH. destruct (strictEq _ _) eqn:E; simpl.
    + rewrite filter_cons_False by (simpl; congruence). done.
    + rewrite filter_cons_True by done. simpl. by rewrite <- app_assoc.
Qed.

(** C10: when the selection lies in a table and the cell that
    [selectionCell] locates already has the attribute strictly equal to
    the value, [setCellAttr] returns false and dispatches nothing,
    whatever the other cells of a cell selection hold; when it applies,
    every step of its transaction rewrites a cell whose attribute
    differs from the value: a cell of the cell selection, or else the
    located cell. *)
Theorem setCellAttr_applies (name : string) (value : Value) (st : EditorState)
    (cell : ResolvedPos) (after : Node) :
  isInTable st = Ok true ->
  selectionCell st = Ok cell ->
  rp_nodeAfter cell = Some after ->
  (strictEq (attr (nodeAttrs after) name) value = true ->
     forall dispatch, setCellAttr name value st dispatch = Ok (false, None))
  /\ (strictEq (attr (nodeAttrs after) name) value = false ->
      exists tr, setCellAttr name value st true = Ok (true, Some tr)
        /\ forall s, s ∈ steps tr ->
             exists node pos, s = rewrites name value node pos
               /\ strictEq (attr (nodeAttrs node) name) value = false
               /\ (if isCellSelection (selection st)
                   then (node, pos) ∈ forEachCell st
                   else node = after /\ pos = rp_pos cell)).
Proof.
  intros Hin Hcell Hafter. unfold setCellAttr, refuse, dispatched.
  rewrite Hin, Hcell. simpl. rewrite Hafter. simpl. split; intros Heq.
  - intros dispatch. by rewrite Heq.
  - rewrite Heq. eexists. split; [reflexivity|].
    intros s Hs. destruct (isCellSelection (selection st)).
    + change (fun (tr : Transaction) '(node, pos) =>
                if negb (strictEq (attr (nodeAttrs node) name) value)
                then addStep tr (StepSetNodeMarkup pos None (<[name:=value]> (nodeAttrs node)))
                else tr)
        with (fun (tr : Transaction) '(node, pos) =>
                if negb (strictEq (attr (nodeAttrs node) name) value)
                then addStep tr (rewrites name value node pos)
                else tr) in Hs.
      rewrite setCellAttr_fold in Hs. simpl in Hs.
      apply list_elem_of_fmap in Hs as ([node pos] & -> & Hc).
      apply list_elem_of_filter in Hc as [Hne Hc]. by exists node, pos.
    + simpl in Hs. apply list_elem_of_singleton in Hs. by exists after, (rp_pos cell).
Qed.

End RefusalProperties.

(** C2 at a full selection: with both cells of the first row of the
    sample selected the rectangle spans all columns, and with both cells
    of the first column all rows; [deleteColumn] and [deleteRow] return
    false when a dispatch callback is supplied, but true when none is:
    the test of the rectangle sits inside the branch that dispatches. *)
Theorem delete_all_without_dispatch :
  (exists r, selectedRect (cellSelection d22 3 7) = Ok r
     /\ left (rect r) = 0 /\ right (rect r) = width (tmap r)
     /\ deleteColumn (cellSelection d22 3 7) true = Ok (false, None)
     /\ deleteColumn (cellSelection d22 3 7) false = Ok (true, None))
  /\ (exists r, selectedRect (cellSelection d22 3 13) = Ok r
     /\ top (rect r) = 0 /\ bottom (rect r) = height (tmap r)
     /\ deleteRow (cellSelection d22 3 13) true = Ok (false, None)
     /\ deleteRow (cellSelection d22 3 13) false = Ok (true, None)).
Proof.
  split; (eexists; split; [vm_compute; reflexivity|]); repeat split.
Qed.

(** In the sample the cell of the second row is selected: top is 1. *)
Lemma makeSection_refuses_witness :
  isInTable (cellSelection d22 13 13) = Ok true
  /\ selectedRect (cellSelection d22 13 13) = Ok r22_second
  /\ (0 < top (rect r22_second) ->
      makeHead (cellSelection d22 13 13) true = Ok (false, None))
  /\ (bottom (rect r22_second) < height (tmap r22_second) ->
      makeFoot (cellSelection d22 13 13) true = Ok (false, None)).
Proof.
  split; [reflexivity|]. split; [reflexivity|].
  apply (makeSection_refuses (cellSelection d22 13 13) true r22_second); reflexivity.
Defined.

(** A head need not be full-width: with the first cell alone selected
    in the sample of two columns, the rectangle covers one column of two
    and starts at the first row, and [makeHead] accepts, with and without
    a dispatch callback. *)
Lemma makeHead_narrow_counterexample :
  exists r, selectedRect (cellSelection d22 3 3) = Ok r
    /\ left (rect r) = 0 /\ right (rect r) = 1 /\ width (tmap r) = 2
    /\ top (rect r) = 0
    /\ makeHead (cellSelection d22 3 3) false = Ok (true, None)
    /\ exists tr, makeHead (cellSelection d22 3 3) true = Ok (true, Some tr).
Proof.
  eexists. split; [vm_compute; reflexivity|]. repeat split.
  eexists. vm_compute. reflexivity.
Qed.

(** In the sample the cursor stands in the paragraph of the first cell. *)
Lemma splitCell_refuses_single_witness :
  splitTarget (cursor d22 5) = Ok (Some (td, 3))
  /\ splitCellWithType (fun _ _ _ => Some cellT) (cursor d22 5) true = Ok (false, None)
  /\ splitCell (cursor d22 5) true = Ok (false, None).
Proof.
  split; [reflexivity|].
  apply (splitCell_refuses_single (cursor d22 5) true (fun _ _ _ => Some cellT) td 3);
    reflexivity.
Defined.

(** In the sample the cell selection runs from the plain cell to the
    green one; [selectionCell] locates the green cell, which already has
    the value, while the plain cell has no background. *)
Lemma setCellAttr_applies_witness :
  (cellsOfSelection (cellSelection dGreen 3 7) = [(td, 3); (tdGreen, 7)])
  /\ (forall dispatch,
        setCellAttr "background" (VStr "#dfd") (cellSelection dGreen 3 7) dispatch
        = Ok (false, None)).
Proof.
  split; [reflexivity|].
  apply (setCellAttr_applies "background" (VStr "#dfd") (cellSelection dGreen 3 7)
           (at_ dGreen 7) tdGreen); reflexivity.
Defined.

(** ** Lookups return or raise *)

Lemma Node_induction (P : Node -> Prop) :
  (forall len, P (Text len)) ->
  (forall t a, P (Leaf t a)) ->
  (forall t a c, Forall P c -> P (Elem t a c)) ->
  forall n, P n.
Proof.
  intros HT HL HE. fix IH 1. intros [len|t a|t a c]; [apply HT | apply HL |].
  apply HE. induction c as [|x xs IHc]; constructor; [apply IH | exact IHc].
Qed.

Lemma nodeAt_in_returns (n : Node) (pos : Z) : nodeAt_in n pos <> Diverge.
Proof.
  revert pos. induction n as [len|t a|t a c IH] using Node_induction; intros pos;
    [done | done |].
  cbn [nodeAt_in]. revert pos.
  induction IH as [|x xs Hx _ IHxs]; intros pos.
  - by destruct (pos =? 0).
  - destruct (pos =? 0); [done|]. destruct (pos <? nodeSize x); [|apply IHxs].
    destruct x; [done | apply Hx | apply Hx].
Qed.

Lemma nodeAt_returns (n : Node) (pos : Z) : nodeAt n pos <> Diverge.
Proof. unfold nodeAt. destruct (pos <? 0); [done | apply nodeAt_in_returns]. Qed.

Lemma nodeAtSlot_returns (t : Node) (s : option Z) : nodeAtSlot t s <> Diverge.
Proof. destruct s; [apply nodeAt_returns | done]. Qed.

Section InsertionProperties.
Context `{Collaborators}.

Lemma cellAtSlot_returns (t : Node) (m : TableMap) (i : Z) : cellAtSlot t m i <> Diverge.
Proof.
  unfold cellAtSlot. pose proof (nodeAtSlot_returns t (slot m i)).
  destruct (nodeAtSlot t (slot m i)) as [[n|]| |]; done.
Qed.

Lemma columnIsHeader_returns (m : TableMap) (t : Node) (col : Z) :
  columnIsHeader m t col <> Diverge.
Proof.
  unfold columnIsHeader. induction (range 0 (height m)) as [|x xs IHx]; [done|].
  cbn [columnIsHeader_loop].
  pose proof (cellAtSlot_returns t m (col + x * width m)).
  destruct (cellAtSlot _ _ _); simpl; try done. by destruct (negb _).
Qed.

Lemma rowIsHeader_returns (m : TableMap) (t : Node) (row : Z) :
  rowIsHeader m t row <> Diverge.
Proof.
  unfold rowIsHeader. induction (range 0 (width m)) as [|x xs IHx]; [done|].
  cbn [rowIsHeader_loop].
  pose proof (nodeAtSlot_returns t (slot m (x + row * width m))).
  destruct (nodeAtSlot _ _); simpl; try done. by destruct (negb _).
Qed.

(** ** New columns *)

(** With no row inside a spanning cell the loop of [addColumn] takes one
    turn per row and each turn queues one insertion. *)
Lemma addColumn_loop_cells (r : TableRect) (col : Z) (refColumn : option Z) :
  noSpanAt (tmap r) col ->
  positionsReturn r col ->
  forall (fuel : nat) (tr : Transaction) (row : Z),
    0 <= row -> (Z.to_nat (height (tmap r) - row) <= fuel)%nat ->
    addColumn_loop fuel tr r col refColumn row <> Diverge
    /\ forall tr', addColumn_loop fuel tr r col refColumn row = Ok tr' ->
         exists inserted,
           steps tr' = steps tr ++ inserted
           /\ length inserted = Z.to_nat (height (tmap r) - row)
           /\ forall k, row <= k < height (tmap r) ->
                exists s, inserted !! Z.to_nat (k - row) = Some s
                  /\ newCellOf r ((fun ref => col + ref) <$> refColumn) k s.
Proof.
  intros Hno Hpos fuel. induction fuel as [|fuel IH]; intros tr row Hrow Hfuel.
  - simpl. destruct (Z.leb_spec (height (tmap r)) row); [|lia].
    split; [done|]. intros tr' [= <-]. exists []. rewrite app_nil_r.
    repeat split; [simpl; lia | intros k Hk; lia].
  - cbn [addColumn_loop].
    destruct (Z.leb_spec (height (tmap r)) row) as [Hge|Hlt].
    { split; [done|]. intros tr' [= <-]. exists []. rewrite app_nil_r.
      repeat split; [simpl; lia | intros k Hk; lia]. }
    pose proof (Hno row ltac:(lia)) as Hspan. unfold insideSpan in Hspan.
    rewrite Hspan.
    set (type := match refColumn with
                 | Some ref => _
                 | None => _
                 end).
    assert (Htype : type <> Diverge).
    { subst type. destruct refColumn as [ref|].
      - pose proof (cellAtSlot_returns (table r) (tmap r) (row * width (tmap r) + col + ref)).
        by destruct (cellAtSlot _ _ _).
      - by destruct (tableNodeTypes Rcell). }
    destruct type as [ty| |] eqn:Hty; simpl; [|by split|done].
    pose proof (Hpos row ltac:(lia)) as Hp.
    destruct (positionAt _ _ _ _) as [pos| |]; simpl; [|by split|done].
    destruct (createAndFill ty None) as [node|] eqn:Hnode; simpl; [|by split].
    specialize (IH (addStep tr (StepInsert (mappingMap tr 0 (tableStart r + pos) 1) node))
                  (row + 1) ltac:(lia) ltac:(lia)) as [IHd IHok].
    split; [done|]. intros tr' Htr'. destruct (IHok tr' Htr') as (ins & Hsteps & Hlen & Hcells).
    exists (StepInsert (mappingMap tr 0 (tableStart r + pos) 1) node :: ins).
    split; [simpl in Hsteps; by rewrite Hsteps, <- app_assoc|].
    split; [simpl; rewrite Hlen; lia|].
    intros k Hk. destruct (Z.eq_dec k row) as [->|Hne].
    + replace (Z.to_nat (row - row)) with 0%nat by lia. simpl. eexists. split; [done|].
      exists (mappingMap tr 0 (tableStart r + pos) 1), node, ty. split; [done|]. split; [done|].
      subst type. destruct refColumn as [ref|]; simpl in *.
      * destruct (cellAtSlot _ _ _) as [src| |] eqn:Hsrc; simpl in Hty; try done.
        exists src. split; [|congruence]. rewrite <- Hsrc. f_equal. lia.
      * by destruct (tableNodeTypes Rcell); simpl in Hty; [injection Hty as ->|].
    + destruct (Hcells k ltac:(lia)) as (s & Hs & Hnew).
      exists s. split; [|done].
      replace (Z.to_nat (k - row)) with (S (Z.to_nat (k - (row + 1)))) by lia. done.
Qed.

Lemma addColumn_refColumn_spec (r : TableRect) (col : Z) :
  addColumn_refColumn r col <> Diverge
  /\ forall refColumn, addColumn_refColumn r col = Ok refColumn ->
       exists hdr, columnIsHeader (tmap r) (table r) (neighbourColumn col) = Ok hdr
         /\ (fun ref => col + ref) <$> refColumn = inheritedColumn hdr col (width (tmap r)).
Proof.
  unfold addColumn_refColumn.
  replace (col + (if 0 <? col then -1 else 0)) with (neighbourColumn col)
    by (unfold neighbourColumn; destruct (0 <? col); lia).
  pose proof (columnIsHeader_returns (tmap r) (table r) (neighbourColumn col)).
  destruct (columnIsHeader _ _ _) as [hdr| |]; simpl; [|by split|done].
  split; [by destruct hdr|]. intros refColumn Href. exists hdr. split; [done|].
  unfold inheritedColumn, neighbourColumn. destruct hdr; injection Href as <-.
  - destruct (_ || _); simpl; f_equal; lia.
  - destruct (0 <? col); simpl; f_equal; lia.
Qed.

(** C4, as amended: when the insertion column falls inside no
    column-spanning cell, [addColumn] ends (it returns, or raises where a
    lookup of its collaborators does) and, when it returns, has queued
    one insertion per grid row, in row order, each of a cell created for
    a node type chosen as follows. The neighbour column is the left
    neighbour when col > 0, else column 0. If it does not consist
    entirely of header cells, the type is that of the neighbour's cell
    in the row. If it does and the insertion is at a boundary (col = 0
    or col = width), the type is the plain cell type. If it does and the
    insertion is interior, the type is that of the cell at column col in
    the row, the right neighbour. *)
Theorem addColumn_new_cells (tr : Transaction) (r : TableRect) (col : Z) :
  noSpanAt (tmap r) col ->
  positionsReturn r col ->
  addColumn tr r col <> Diverge
  /\ forall tr', addColumn tr r col = Ok tr' ->
       exists hdr inserted,
         columnIsHeader (tmap r) (table r) (neighbourColumn col) = Ok hdr
         /\ steps tr' = steps tr ++ inserted
         /\ length inserted = Z.to_nat (height (tmap r))
         /\ forall row, 0 <= row < height (tmap r) ->
              exists s, inserted !! Z.to_nat row = Some s
                /\ newCellOf r (inheritedColumn hdr col (width (tmap r))) row s.
Proof.
  intros Hno Hpos. unfold addColumn.
  destruct (addColumn_refColumn_spec r col) as [Hret Hspec].
  destruct (addColumn_refColumn r col) as [refColumn| |]; simpl; [|by split|done].
  destruct (Hspec refColumn eq_refl) as (hdr & Hhdr & Href).
  destruct (addColumn_loop_cells r col refColumn Hno Hpos (Z.to_nat (height (tmap r))) tr 0
              ltac:(lia) ltac:(lia)) as [Hd Hok].
  split; [done|]. intros tr' Htr'.
  destruct (Hok tr' Htr') as (ins & Hsteps & Hlen & Hcells).
  exists hdr, ins. split; [done|]. split; [done|].
  split; [rewrite Hlen; f_equal; lia|].
  intros row Hrow. destruct (Hcells row Hrow) as (s & Hs & Hnew).
  exists s. rewrite Z.sub_0_r in Hs. split; [done|]. by rewrite <- Href.
Qed.

End InsertionProperties.

(** In the sample a column is added between the two columns of the
    table of two rows; both rows get a plain cell, after the first. *)
Lemma addColumn_new_cells_witness :
  noSpanAt (tmap r22) 1
  /\ positionsReturn r22 1
  /\ addColumn emptyTr r22 1
     = Ok (mkTransaction [StepInsert 7 td; StepInsert 21 td] None false)
  /\ addColumn emptyTr r22 1 <> Diverge
  /\ forall tr', addColumn emptyTr r22 1 = Ok tr' ->
       exists hdr inserted,
         columnIsHeader (tmap r22) (table r22) (neighbourColumn 1) = Ok hdr
         /\ steps tr' = steps emptyTr ++ inserted
         /\ length inserted = Z.to_nat (height (tmap r22))
         /\ forall row, 0 <= row < height (tmap r22) ->
              exists s, inserted !! Z.to_nat row = Some s
                /\ newCellOf r22 (inheritedColumn hdr 1 (width (tmap r22))) row s.
Proof.
  assert (Hno : noSpanAt (tmap r22) 1).
  { intros row Hrow. change (height (tmap r22)) with 2 in Hrow.
    assert (Hcases : row = 0 \/ row = 1) by lia. by destruct Hcases as [-> | ->]. }
  assert (Hpos : positionsReturn r22 1).
  { intros row Hrow. change (height (tmap r22)) with 2 in Hrow.
    assert (Hcases : row = 0 \/ row = 1) by lia. by destruct Hcases as [-> | ->]. }
  split; [exact Hno|]. split; [exact Hpos|]. split; [vm_compute; reflexivity|].
  apply (addColumn_new_cells emptyTr r22 1 Hno Hpos).
Defined.

(** An interior insertion next to a header column does not inherit
    from the left: in the row of a header cell and a plain cell,
    inserting at column 1 (not a boundary, in no spanning cell) takes the
    type of the plain cell at column 1, not that of the header cell to
    the left. *)
Lemma addColumn_interior_counterexample :
  columnIsHeader (tmap rHeadCol) (table rHeadCol) 0 = Ok true
  /\ insideSpan (tmap rHeadCol) 1 0 = false
  /\ width (tmap rHeadCol) = 2
  /\ cellAtSlot (table rHeadCol) (tmap rHeadCol) 0 = Ok th
  /\ addColumn emptyTr rHeadCol 1 = Ok (mkTransaction [StepInsert 7 td] None false)
  /\ nodeType td <> nodeType th.
Proof. repeat split; try (vm_compute; reflexivity). discriminate. Qed.

(** ** New rows *)

(** In a valid table the first row of the section that follows a
    section starts one token after the end of that section. *)
Lemma rowPos_next_section t pre sec nxt post :
  valid_table t -> children t = pre ++ sec :: nxt :: post -> isTableSection sec = true ->
  rowPos t (rowsOf pre + childCount sec) 0 = fragmentSize pre + nodeSize sec + 1.
Proof.
  intros Hv Hch Hsec.
  destruct (valid_table_split t pre sec (nxt :: post) Hv Hch Hsec)
    as (cap & secs & -> & Hcap & Hall).
  unfold rowPos, getRow. rewrite Hch, <- app_assoc.
  rewrite getRow_loop_skip by done.
  rewrite rowsOf_app, (rowsOf_caption cap) by done.
  apply Forall_app in Hall as [Hsecs Hrest].
  apply Forall_cons in Hrest as [Hs Hrest]. apply Forall_cons in Hrest as [[Hn Hnr] _].
  replace (secs ++ sec :: nxt :: post) with ((secs ++ [sec]) ++ nxt :: post)
    by (by rewrite <- app_assoc).
  rewrite getRow_loop_advance;
    [| apply Forall_app; split; [done | by constructor] | done
     | rewrite rowsOf_app; simpl; rewrite Hsec; lia].
  cbn [getRow_loop]. rewrite Hn.
  destruct (Z.ltb_spec 0 (childCount nxt)); [|lia].
  rewrite rowsOf_app. cbn [rowsOf]. rewrite Hsec.
  destruct (Z.leb_spec (0 + (rowsOf secs + (childCount sec + 0)) + childCount nxt)
              (0 + rowsOf secs + childCount sec)); [lia|].
  destruct (children nxt) as [|x xs] eqn:Hx;
    [unfold childCount in Hnr; rewrite Hx in Hnr; simpl in Hnr; lia|].
  cbn [getRow_rows].
  destruct (Z.eqb_spec (0 + (rowsOf secs + (childCount sec + 0)) + 0)
              (0 + rowsOf secs + childCount sec)); [|lia].
  cbn [row_pos]. rewrite !fragmentSize_app. simpl. lia.
Qed.

(** The modelled [isRowLastInSection] holds of the last row of every
    section. *)
Lemma runningTotals_elem (l1 : list Z) (x : Z) (l2 : list Z) (acc : Z) :
  acc + foldr Z.add 0 l1 + x ∈ runningTotals (l1 ++ x :: l2) acc.
Proof.
  revert acc. induction l1 as [|y l1 IH]; intros acc; simpl.
  - replace (acc + 0 + x) with (acc + x) by lia. apply list_elem_of_here.
  - apply list_elem_of_further.
    replace (acc + (y + foldr Z.add 0 l1) + x) with ((acc + y) + foldr Z.add 0 l1 + x) by lia.
    apply IH.
Qed.

Lemma rowsOf_sections (l : list Node) :
  foldr Z.add 0 (childCount <$> filter (fun n => Is_true (isTableSection n)) l) = rowsOf l.
Proof.
  induction l as [|x xs IH]; [done|]. cbn [rowsOf].
  destruct (isTableSection x) eqn:E.
  - rewrite filter_cons_True by (by rewrite E).
    rewrite fmap_cons. cbn [foldr]. by rewrite IH.
  - rewrite filter_cons_False by (rewrite E; simpl; tauto). by rewrite IH.
Qed.

Lemma isRowLastInSectionOf_after_section (t : Node) (pre : list Node) (sec : Node)
    (rest : list Node) :
  children t = pre ++ sec :: rest -> isTableSection sec = true ->
  isRowLastInSectionOf t (rowsOf pre + childCount sec - 1) = true.
Proof.
  intros Hch Hsec. unfold isRowLastInSectionOf. apply bool_decide_eq_true.
  rewrite Hch, filter_app, filter_cons_True by (by rewrite Hsec).
  rewrite fmap_app, fmap_cons.
  replace (rowsOf pre + childCount sec - 1 + 1)
    with (0 + foldr Z.add 0 (childCount <$> filter (fun n => Is_true (isTableSection n)) pre)
          + childCount sec) by (rewrite rowsOf_sections; lia).
  apply runningTotals_elem.
Qed.

Section RowProperties.
Context `{Collaborators}.

(** The loop of [addRow] ends when the cells it skips over span at
    least one column, and queues markup changes only. *)
Lemma addRow_loop_markups (r : TableRect) (row : Z) (refRow : option Z) :
  spansPositive r ->
  forall (fuel : nat) (tr : Transaction) (col index : Z) (cells : list Node),
    (Z.to_nat (width (tmap r) - col) <= fuel)%nat ->
    addRow_loop fuel tr r row refRow col index cells <> Diverge
    /\ forall tr' cells', addRow_loop fuel tr r row refRow col index cells = Ok (tr', cells') ->
         exists markups, steps tr' = steps tr ++ markups /\ Forall isMarkup markups.
Proof.
  intros Hspans fuel. induction fuel as [|fuel IH]; intros tr col index cells Hfuel.
  - simpl. destruct (Z.leb_spec (width (tmap r)) col); [|lia].
    split; [done|]. intros tr' cells' [= <- <-]. exists []. by rewrite app_nil_r.
  - cbn [addRow_loop].
    destruct (Z.leb_spec (width (tmap r)) col) as [Hge|Hlt].
    { split; [done|]. intros tr' cells' [= <- <-]. exists []. by rewrite app_nil_r. }
    destruct (_ && _ && _).
    + pose proof (cellAtSlot_returns (table r) (tmap r) index) as Hc.
      destruct (cellAtSlot _ _ _) as [cell| |] eqn:Hcell; simpl; [|by split|done].
      destruct (slot (tmap r) index) as [pos|]; simpl; [|by split].
      pose proof (Hspans index cell Hcell) as Hspan.
      set (step := StepSetNodeMarkup _ _ _).
      destruct (IH (addStep tr step) (col + (colspan (nodeAttrs cell) - 1) + 1) (index + 1)
                  cells ltac:(lia)) as [IHd IHok].
      split; [done|]. intros tr' cells' Hres.
      destruct (IHok tr' cells' Hres) as (ms & Hsteps & Hms).
      exists (step :: ms). split; [simpl in Hsteps; by rewrite Hsteps, <- app_assoc|].
      by constructor.
    + set (type := match refRow with Some ref => _ | None => _ end).
      assert (Htype : type <> Diverge).
      { subst type. destruct refRow as [ref|]; [|done].
        pose proof (nodeAtSlot_returns (table r)
                      (slot (tmap r) (index + ref * width (tmap r)))).
        by destruct (nodeAtSlot _ _). }
      destruct type as [ty| |]; simpl; [|by split|done].
      apply IH. lia.
Qed.

(** After the last row of the table [rowPos] already is the insertion
    point inside the last section; where [isRowLastInSection] holds of the
    last row, [addRow] still moves two tokens back from it. *)
Lemma addRow_pos_last_section (r : TableRect) (pre : list Node) (lastS : Node) :
  valid_table (table r) ->
  children (table r) = pre ++ [lastS] ->
  bottom (rect r) = rowsCount (table r) ->
  isRowLastInSection (table r) (rowsCount (table r) - 1) = true ->
  addRow_pos r (rowsCount (table r))
  = tableStart r + (fragmentSize pre + 1 + fragmentSize (children lastS)) - 2.
Proof.
  intros Hv Hch Hbottom Hlast. unfold addRow_pos, rowPos, getRow.
  rewrite Hbottom, Z.eqb_refl, Hlast. simpl.
  destruct (valid_table_last _ pre lastS Hv Hch) as (cap & secs & -> & Hcap & Hsecs & Hs).
  rewrite rowsCount_rowsOf, Hch, <- app_assoc.
  rewrite getRow_loop_last by done.
  rewrite (isRowsSection_size lastS) by done.
  rewrite fragmentSize_app. simpl. lia.
Qed.

End RowProperties.

Lemma tTwoBodies_valid : valid_table tTwoBodies.
Proof.
  exists [], [tbody [tr_ [td]]; tbody [tr_ [td]]].
  split; [reflexivity|]. split; [simpl; lia|]. split; [constructor|].
  split; [discriminate|]. repeat constructor; reflexivity.
Qed.

Lemma rFirst_spansPositive : spansPositive rFirst.
Proof.
  intros index cell Hc. unfold cellAtSlot, slot, arrayGet in Hc.
  destruct (index <? 0); [discriminate|].
  destruct (Z.to_nat index) as [|[|n]]; vm_compute in Hc; try discriminate;
    injection Hc as <-; vm_compute; discriminate.
Qed.

(** Two observations on the table of two bodies of one row. Row index
    1 falls directly after the last row of the first body; [addRow] for a rectangle on the second row (bottom 2, as
    [addRowBefore] calls it) inserts at position 10, inside the second
    body, whose opening token is at 9, while the first body closes at 8:
    the second body then holds two rows. For a rectangle on the first
    row (bottom 1, as [addRowAfter] calls it) the row goes to position
    8, inside the first body, yet the row count that goes up in
    [sectionRows] is that of the second body. *)
Lemma addRow_counterexample :
  isRowLastInSection tTwoBodies 0 = true
  /\ (exists tr m', addRow emptyTr rSecond 1 = Ok (tr, m')
        /\ steps tr = [StepInsert 10 (tr_ [td])]
        /\ applySteps (docOf tTwoBodies) (steps tr)
           = Ok (docOf (tableOf [tbody [tr_ [td]]; tbody [tr_ [td]; tr_ [td]]])))
  /\ (exists tr m', addRow emptyTr rFirst 1 = Ok (tr, m')
        /\ steps tr = [StepInsert 8 (tr_ [td])]
        /\ sectionRows (tmap rFirst) = [1; 1]
        /\ sectionRows m' = [1; 2]).
Proof.
  split; [reflexivity|].
  split; eexists _, _; (split; [vm_compute; reflexivity|]); repeat split.
Qed.

(** ** Header toggles *)

Section ToggleProperties.
Context `{Collaborators}.

Lemma allNonNull_Some nodes : allNonNull (Some <$> nodes) = Ok nodes.
Proof.
  induction nodes as [|n ns IH]; [done|].
  rewrite fmap_cons. cbn [allNonNull]. by rewrite IH.
Qed.

Lemma demote_fold tableStart (cs : list (Z * Node)) (tr : Transaction) :
  fold_left
    (fun tr '(pos, node) =>
       if isType (nodeType node) (tableNodeTypes Rheader_cell)
       then addStep tr
              (StepSetNodeMarkup (tableStart + pos) (tableNodeTypes Rcell) (nodeAttrs node))
       else tr) cs tr
  = mkTransaction
      (steps tr ++ (demote tableStart <$> filter (fun c => isHeader c.2 = true) cs))
      (tr_selection tr) (scrolledIntoView tr).
Proof.
  revert tr. induction cs as [|[pos node] cs IH]; intros tr; simpl.
  - rewrite app_nil_r. by destruct tr.
  - rewrite IH. unfold isHeader at 2. simpl.
    destruct (isType _ _) eqn:E.
    + rewrite filter_cons_True by done. simpl. by rewrite <- app_assoc.
    + rewrite filter_cons_False by (simpl; unfold isHeader; congruence). done.
Qed.

Lemma promote_fold tableStart (cs : list (Z * Node)) (tr : Transaction) :
  fold_left
    (fun tr '(pos, node) =>
       addStep tr
         (StepSetNodeMarkup (tableStart + pos) (tableNodeTypes Rheader_cell) (nodeAttrs node)))
    cs tr
  = mkTransaction (steps tr ++ (promote tableStart <$> cs))
      (tr_selection tr) (scrolledIntoView tr).
Proof.
  revert tr. induction cs as [|[pos node] cs IH]; intros tr; simpl.
  - rewrite app_nil_r. by destruct tr.
  - rewrite IH. simpl. by rewrite <- app_assoc.
Qed.

(** C6, as amended: when the selection lies in a table and a dispatch
    callback is supplied, [toggleHeaderRow], [toggleHeaderColumn] and
    [toggleHeaderCell] inspect the rectangle they act on (the selected
    rows at full width, the selected columns at full height, or the
    selected rectangle): if it holds a header cell they demote its
    header cells, and only those, to plain cells; otherwise they promote
    all its cells to header cells. The first row or column of the table
    is not consulted. *)
Theorem toggleHeader_deprecated (type : ToggleHeaderType) (st : EditorState)
    (r : TableRect) (nodes : list Node) :
  isInTable st = Ok true ->
  selectedRect st = Ok r ->
  nodesAt (table r) (cellsInRect (tmap r) (toggleTarget type r)) = Ok (Some <$> nodes) ->
  let targets := zip (cellsInRect (tmap r) (toggleTarget type r)) nodes in
  let headers := filter (fun c => isHeader c.2 = true) targets in
  toggleCommand type st true
  = Ok (true, Some (mkTransaction
                      match headers with
                      | [] => promote (tableStart r) <$> targets
                      | _ => demote (tableStart r) <$> headers
                      end None false)).
Proof.
  intros Hin Hr Hnodes targets headers.
  assert (Hcmd : toggleCommand type st true = deprecated_toggleHeader type st true)
    by (by destruct type).
  rewrite Hcmd. unfold deprecated_toggleHeader, dispatched.
  rewrite Hin, Hr. simpl. rewrite Hnodes. simpl.
  rewrite allNonNull_Some. simpl.
  rewrite demote_fold. simpl. fold targets. fold headers.
  destruct headers as [|h hs]; simpl; [|done].
  by rewrite promote_fold.
Qed.

End ToggleProperties.

(** In the sample the cursor stands in the second cell of the second
    row, a row of plain cells: both are promoted. *)
Lemma toggleHeader_deprecated_witness :
  isInTable (cursor dHead1 18) = Ok true
  /\ toggleHeaderRow (cursor dHead1 18) true
     = Ok (true, Some (mkTransaction
                         [StepSetNodeMarkup 13 (Some headerT) (spans 1 1);
                          StepSetNodeMarkup 17 (Some headerT) (spans 1 1)] None false)).
Proof.
  split; [reflexivity|].
  etransitivity.
  - apply (toggleHeader_deprecated ToggleRow (cursor dHead1 18)
             (mkTableRect (mkRect 1 1 2 2) 1 (TableMap_get tHead1) tHead1) [td; td]);
      reflexivity.
  - vm_compute. reflexivity.
Defined.

(** The first row is not what decides: with the cursor in the plain
    cell of the first row, next to a header cell, the first row is not
    entirely header cells, yet [toggleHeaderRow] does not promote; it
    finds a header cell in the row and demotes it, leaving the plain cell
    as it is. *)
Lemma toggleHeaderRow_counterexample :
  exists r, selectedRect (cursor dHead1 8) = Ok r
    /\ isHeaderEnabledByType true r = Ok false
    /\ toggleHeaderRow (cursor dHead1 8) true
       = Ok (true, Some (mkTransaction
                           [StepSetNodeMarkup 3 (Some cellT) (spans 1 1)] None false)).
Proof.
  eexists. split; [vm_compute; reflexivity|]. split; vm_compute; reflexivity.
Qed.

(** * Further properties *)
(** ** Rows and positions *)

Lemma wellSized_Elem t a c : wellSized (Elem t a c) = forallb wellSized c.
Proof. simpl. induction c as [|x xs IH]; [done|]. simpl. by rewrite IH. Qed.

Lemma wellSized_size n : wellSized n = true -> 0 < nodeSize n.
Proof.
  induction n as [len|t a|t a c IH] using Node_induction; intros Hw.
  - simpl in *. by apply Z.ltb_lt.
  - simpl. lia.
  - rewrite wellSized_Elem in Hw. rewrite nodeSize_Elem.
    enough (0 <= fragmentSize c) by lia.
    induction IH as [|x xs Hx _ IHxs]; simpl in *; [lia|].
    apply andb_true_iff in Hw as [Hwx Hwxs]. specialize (Hx Hwx). specialize (IHxs Hwxs). lia.
Qed.

Lemma wellSized_children n : wellSized n = true -> Forall (fun c => wellSized c = true) (children n).
Proof.
  destruct n as [len|t a|t a c]; [constructor | constructor |].
  rewrite wellSized_Elem. intros Hw. cbn [children].
  apply Forall_forall. intros x Hx. rewrite forallb_forall in Hw. apply Hw.
  by apply list_elem_of_In.
Qed.

Lemma fragmentSize_nonneg l : Forall (fun c => wellSized c = true) l -> 0 <= fragmentSize l.
Proof.
  induction 1 as [|x xs Hx _ IH]; simpl; [lia|]. pose proof (wellSized_size x Hx). lia.
Qed.

Lemma rowsList_app l1 l2 : rowsList (l1 ++ l2) = rowsList l1 ++ rowsList l2.
Proof. induction l1 as [|x xs IH]; simpl; [done|]. by rewrite IH, app_assoc. Qed.

Lemma rowsList_length l : Z.of_nat (length (rowsList l)) = rowsOf l.
Proof.
  induction l as [|x xs IH]; simpl; [done|]. rewrite length_app, Nat2Z.inj_add, IH.
  unfold childCount. by destruct (isTableSection x).
Qed.

(** Every row number below the row count names a row. *)
Lemma rowAt_exists cs row :
  0 <= row < rowsOf cs -> exists r p, rowAt cs row r p.
Proof.
  revert row. induction cs as [|x xs IH]; intros row Hrow; simpl in Hrow; [lia|].
  destruct (isTableSection x) eqn:Hx.
  - destruct (Z.lt_ge_cases row (childCount x)) as [Hlt|Hge].
    + unfold childCount in Hlt.
      destruct (lookup_lt_is_Some_2 (children x) (Z.to_nat row) ltac:(lia)) as [r Hr].
      apply list_elem_of_split_length in Hr as (above & below & Hch & Hlen).
      exists r, (0 + 1 + fragmentSize above), [], x, xs, above, below.
      repeat split; try done. simpl. lia.
    + destruct (IH (row - childCount x) ltac:(lia))
        as (r & p & pre & s & post & above & below & -> & Hs & Hch & Hrow' & ->).
      exists r, (fragmentSize (x :: pre) + 1 + fragmentSize above),
        (x :: pre), s, post, above, below.
      repeat split; try done. simpl. rewrite Hx. lia.
  - destruct (IH row ltac:(lia))
      as (r & p & pre & s & post & above & below & -> & Hs & Hch & Hrow' & ->).
    exists r, (fragmentSize (x :: pre) + 1 + fragmentSize above),
      (x :: pre), s, post, above, below.
    repeat split; try done. simpl. rewrite Hx. lia.
Qed.

Lemma rowAt_lookup cs row r p : rowAt cs row r p -> rowsList cs !! Z.to_nat row = Some r.
Proof.
  intros (pre & s & post & above & below & -> & Hs & Hch & -> & _).
  rewrite rowsList_app. simpl. rewrite Hs, Hch.
  pose proof (rowsList_length pre).
  rewrite lookup_app_r by lia.
  replace (Z.to_nat (rowsOf pre + Z.of_nat (length above)) - length (rowsList pre))%nat
    with (length above + 0)%nat by lia.
  rewrite <- !app_assoc. rewrite lookup_app_r by lia.
  replace (length above + 0 - length above)%nat with 0%nat by lia. done.
Qed.

Lemma rowAt_range cs row r p : rowAt cs row r p -> 0 <= row < rowsOf cs.
Proof.
  intros (pre & s & post & above & below & -> & Hs & Hch & -> & _).
  rewrite rowsOf_app. simpl. rewrite Hs. unfold childCount. rewrite Hch, length_app. simpl.
  pose proof (rowsOf_nonneg pre). pose proof (rowsOf_nonneg post). lia.
Qed.

Lemma getRow_rows_at above r below row prev k rPos :
  row = prev + k + Z.of_nat (length above) ->
  getRow_rows (above ++ r :: below) row prev k rPos = (Some r, rPos + fragmentSize above).
Proof.
  revert k rPos. induction above as [|x xs IH]; intros k rPos Hrow; simpl in *.
  - destruct (Z.eqb_spec (prev + k) row); [|lia]. f_equal. lia.
  - destruct (Z.eqb_spec (prev + k) row); [lia|]. rewrite IH by lia. f_equal. lia.
Qed.

Lemma getRow_rows_outside rows row prev k rPos :
  row < prev + k \/ prev + k + Z.of_nat (length rows) <= row ->
  getRow_rows rows row prev k rPos = (None, rPos + fragmentSize rows + 1).
Proof.
  revert k rPos. induction rows as [|x xs IH]; intros k rPos Hrow; simpl in *.
  - f_equal. lia.
  - destruct (Z.eqb_spec (prev + k) row); [lia|]. rewrite IH by lia. f_equal. lia.
Qed.

(** [getRow] walks to the row it is asked for. *)
Lemma getRow_loop_rowAt cs row r p rPos prev idx :
  Forall (fun c => isTableSection c = true -> 0 < childCount c) cs ->
  rowAt cs (row - prev) r p ->
  row_node (getRow_loop cs row rPos prev idx) = Some r
  /\ row_pos (getRow_loop cs row rPos prev idx) = rPos + p.
Proof.
  intros Hne (pre & s & post & above & below & -> & Hs & Hch & Hrow & ->).
  revert rPos prev idx Hrow. induction pre as [|x pre IH]; intros rPos prev idx Hrow.
  - cbn [app getRow_loop]. rewrite Hs. simpl in Hrow.
    unfold childCount. rewrite Hch, length_app. cbn [length].
    destruct (Z.ltb_spec 0 (Z.of_nat (length above + S (length below)))); [|lia].
    destruct (Z.leb_spec (prev + Z.of_nat (length above + S (length below))) row); [lia|].
    rewrite getRow_rows_at by lia. simpl. split; [done | lia].
  - apply Forall_cons in Hne as [Hx Hne]. cbn [app getRow_loop].
    cbn [rowsOf] in Hrow. pose proof (rowsOf_nonneg pre).
    destruct (isTableSection x) eqn:Ex.
    + specialize (Hx eq_refl).
      destruct (Z.ltb_spec 0 (childCount x)); [|lia].
      destruct (Z.leb_spec (prev + childCount x) row); [|lia].
      rewrite match_nonempty by (destruct pre; discriminate).
      destruct (IH Hne (rPos + nodeSize x) (prev + childCount x) (idx + 1) ltac:(lia))
        as [-> ->].
      split; [done|]. cbn [fragmentSize]. lia.
    + destruct (IH Hne (rPos + nodeSize x) prev idx ltac:(lia)) as [-> ->].
      split; [done|]. cbn [fragmentSize]. lia.
Qed.

(** Outside the range of the row numbers [getRow] finds no node. *)
Lemma getRow_loop_outside cs row rPos prev idx :
  Forall (fun c => isTableSection c = true -> 0 < childCount c) cs ->
  row < prev \/ prev + rowsOf cs <= row ->
  row_node (getRow_loop cs row rPos prev idx) = None.
Proof.
  intros Hne. revert rPos prev idx.
  induction Hne as [|x xs Hx _ IH]; intros rPos prev idx Hrow; [done|].
  cbn [getRow_loop]. cbn [rowsOf] in Hrow. pose proof (rowsOf_nonneg xs).
  destruct (isTableSection x) eqn:Ex; [|apply IH; lia].
  specialize (Hx eq_refl).
  destruct (Z.ltb_spec 0 (childCount x)); [|lia].
  destruct (Z.leb_spec (prev + childCount x) row).
  - destruct xs; [done|]. apply IH. lia.
  - rewrite getRow_rows_outside by (unfold childCount in *; lia). done.
Qed.


(** [nodeAt] on the children of an element *)
Lemma nodeAt_in_skip t a pre l q :
  Forall (fun c => 0 < nodeSize c) pre -> 0 <= q ->
  nodeAt_in (Elem t a (pre ++ l)) (fragmentSize pre + q) = nodeAt_in (Elem t a l) q.
Proof.
  intros Hpre Hq. induction Hpre as [|x xs Hx Hxs IH].
  - simpl. f_equal. 
  - assert (0 <= fragmentSize xs).
    { clear IH. induction Hxs as [|y ys Hy _ IHy]; simpl; lia. }
    rewrite <- IH. cbn [nodeAt_in app fragmentSize].
    destruct (Z.eqb_spec (nodeSize x + fragmentSize xs + q) 0); [lia|].
    destruct (Z.ltb_spec (nodeSize x + fragmentSize xs + q) (nodeSize x)); [lia|].
    f_equal. lia.
Qed.

Lemma nodeAt_in_inside t a ty ax cx l q :
  0 < q < nodeSize (Elem ty ax cx) ->
  nodeAt_in (Elem t a (Elem ty ax cx :: l)) q = nodeAt_in (Elem ty ax cx) (q - 1).
Proof.
  intros Hq. cbn [nodeAt_in].
  destruct (Z.eqb_spec q 0); [lia|].
  destruct (Z.ltb_spec q (nodeSize (Elem ty ax cx))); [done | lia].
Qed.

Lemma wellSized_sizes l :
  Forall (fun c => wellSized c = true) l -> Forall (fun c => 0 < nodeSize c) l.
Proof. intros Hl. eapply Forall_impl; [exact Hl | apply wellSized_size]. Qed.

(** The position of a row is where [nodeAt] finds it. *)
Lemma nodeAt_rowAt t row r p :
  wellSized t = true -> rowAt (children t) row r p -> nodeAt t p = Ok (Some r).
Proof.
  intros Hw (pre & s & post & above & below & Hcs & Hs & Hch & _ & ->).
  destruct t as [len|ty a|ty a cs]; try (by destruct pre).
  cbn [children] in Hcs. subst cs.
  apply wellSized_children in Hw. cbn [children] in Hw.
  apply Forall_app in Hw as [Hpre Hrest]. apply Forall_cons in Hrest as [Hws _].
  destruct s as [len|ts as_|ts as_ sc]; try (by destruct above).
  cbn [children] in Hch. subst sc.
  apply wellSized_children in Hws. cbn [children] in Hws.
  apply Forall_app in Hws as [Habove Hbelow]. apply Forall_cons in Hbelow as [Hr Hbelow].
  pose proof (fragmentSize_nonneg _ Hpre). pose proof (fragmentSize_nonneg _ Habove).
  pose proof (fragmentSize_nonneg _ Hbelow). pose proof (wellSized_size _ Hr).
  unfold nodeAt. destruct (Z.ltb_spec (fragmentSize pre + 1 + fragmentSize above) 0); [lia|].
  rewrite <- Z.add_assoc. rewrite nodeAt_in_skip by (by apply wellSized_sizes || lia).
  rewrite nodeAt_in_inside
    by (rewrite nodeSize_Elem, fragmentSize_app; cbn [fragmentSize]; lia).
  replace (1 + fragmentSize above - 1) with (fragmentSize above + 0) by lia.
  rewrite nodeAt_in_skip by (by apply wellSized_sizes || lia). done.
Qed.

(** [rowAtPos] passes the rows and sections that end at or before the
    position. *)
Lemma rowAtPos_rows_pass rows pos rpos row :
  Forall (fun c => wellSized c = true) rows -> rpos + fragmentSize rows <= pos ->
  rowAtPos_rows rows pos rpos row
  = inr (rpos + fragmentSize rows, row + Z.of_nat (length rows)).
Proof.
  intros Hw. revert rpos row. induction Hw as [|x xs Hx Hxs IH]; intros rpos row Hle.
  - simpl. do 2 f_equal; lia.
  - cbn [rowAtPos_rows fragmentSize] in *. pose proof (fragmentSize_nonneg _ Hxs).
    destruct (Z.ltb_spec pos (rpos + nodeSize x)); [lia|].
    rewrite IH by lia. cbn [length]. do 2 f_equal; lia.
Qed.

Lemma rowAtPos_rows_at above r below pos rpos row :
  Forall (fun c => wellSized c = true) above ->
  rpos + fragmentSize above <= pos < rpos + fragmentSize above + nodeSize r ->
  rowAtPos_rows (above ++ r :: below) pos rpos row = inl (row + Z.of_nat (length above)).
Proof.
  intros Hw. revert rpos row. induction Hw as [|x xs Hx Hxs IH]; intros rpos row Hle.
  - cbn [rowAtPos_rows fragmentSize app length] in *.
    destruct (Z.ltb_spec pos (rpos + nodeSize r)); [|lia]. f_equal. lia.
  - cbn [rowAtPos_rows fragmentSize app length] in *. pose proof (fragmentSize_nonneg _ Hxs).
    destruct (Z.ltb_spec pos (rpos + nodeSize x)); [lia|].
    rewrite IH by lia. f_equal. lia.
Qed.

Lemma rowAtPos_loop_pass pre rest pos rpos row :
  Forall (fun c => isTableSection c = true -> 0 < childCount c) pre ->
  Forall (fun c => wellSized c = true) pre ->
  rpos + fragmentSize pre <= pos ->
  rowAtPos_loop (pre ++ rest) pos rpos row
  = rowAtPos_loop rest pos (rpos + fragmentSize pre) (row + rowsOf pre).
Proof.
  intros Hne Hw. revert rpos row.
  induction Hw as [|x xs Hx Hxs IH]; intros rpos row Hle.
  - simpl. f_equal; lia.
  - apply Forall_cons in Hne as [Hnx Hne]. pose proof (fragmentSize_nonneg _ Hxs).
    cbn [app rowAtPos_loop fragmentSize rowsOf] in *.
    destruct (isTableSection x) eqn:Ex.
    + rewrite (isRowsSection_size x) in * by (split; auto).
      rewrite rowAtPos_rows_pass by (by apply wellSized_children || lia).
      rewrite IH by (done || lia). unfold childCount. f_equal; lia.
    + rewrite IH by (done || lia). f_equal; lia.
Qed.

(** A position inside a row gives the number of the row. *)
Lemma rowAtPos_rowAt cs row r p pos :
  Forall (fun c => isTableSection c = true -> 0 < childCount c) cs ->
  Forall (fun c => wellSized c = true) cs ->
  rowAt cs row r p -> p <= pos < p + nodeSize r ->
  rowAtPos_loop cs pos 0 0 = row.
Proof.
  intros Hne Hw (pre & s & post & above & below & -> & Hs & Hch & -> & ->) Hpos.
  apply Forall_app in Hne as [Hne _]. apply Forall_app in Hw as [Hw Hrest].
  apply Forall_cons in Hrest as [Hws _].
  apply wellSized_children in Hws. rewrite Hch in Hws. apply Forall_app in Hws as [Habove _].
  pose proof (fragmentSize_nonneg _ Habove).
  rewrite rowAtPos_loop_pass by (done || lia).
  cbn [rowAtPos_loop]. rewrite Hs, Hch.
  rewrite rowAtPos_rows_at by (done || lia). lia.
Qed.

(** [rowAtPos] grows with the position and stays within the row count. *)
Lemma rowAtPos_rows_bounds rows pos rpos row :
  match rowAtPos_rows rows pos rpos row with
  | inl a => row <= a < row + Z.of_nat (length rows)
  | inr (_, rw) => rw = row + Z.of_nat (length rows)
  end.
Proof.
  revert rpos row. induction rows as [|x xs IH]; intros rpos row; simpl; [lia|].
  destruct (pos <? rpos + nodeSize x); [lia|].
  specialize (IH (rpos + nodeSize x) (row + 1)).
  destruct (rowAtPos_rows xs pos (rpos + nodeSize x) (row + 1)) as [a|[rp rw]]; lia.
Qed.

Lemma rowAtPos_loop_bounds cs pos rpos row :
  row <= rowAtPos_loop cs pos rpos row <= row + rowsOf cs.
Proof.
  revert rpos row. induction cs as [|x xs IH]; intros rpos row; simpl; [lia|].
  pose proof (rowsOf_nonneg xs).
  destruct (isTableSection x).
  - pose proof (rowAtPos_rows_bounds (children x) pos (rpos + 1) row) as Hb.
    unfold childCount.
    destruct (rowAtPos_rows (children x) pos (rpos + 1) row) as [a|[rp rw]]; [lia|].
    specialize (IH (rp + 1) rw). lia.
  - specialize (IH (rpos + nodeSize x) row). lia.
Qed.

Lemma rowAtPos_rows_mono rows pos pos' rpos row :
  pos <= pos' ->
  match rowAtPos_rows rows pos rpos row, rowAtPos_rows rows pos' rpos row with
  | inl a, inl b => a <= b
  | inl a, inr (_, rw) => a <= rw
  | inr _, inl _ => False
  | inr x, inr y => x = y
  end.
Proof.
  intros Hle. revert rpos row. induction rows as [|x xs IH]; intros rpos row; simpl; [done|].
  destruct (Z.ltb_spec pos (rpos + nodeSize x)), (Z.ltb_spec pos' (rpos + nodeSize x));
    try lia.
  - pose proof (rowAtPos_rows_bounds xs pos' (rpos + nodeSize x) (row + 1)) as Hb.
    destruct (rowAtPos_rows xs pos' (rpos + nodeSize x) (row + 1)) as [b|[rp rw]]; lia.
  - apply IH.
Qed.

Lemma rowAtPos_loop_mono cs pos pos' rpos row :
  pos <= pos' -> rowAtPos_loop cs pos rpos row <= rowAtPos_loop cs pos' rpos row.
Proof.
  intros Hle. revert rpos row. induction cs as [|x xs IH]; intros rpos row; simpl; [lia|].
  destruct (isTableSection x); [|apply IH].
  pose proof (rowAtPos_rows_mono (children x) pos pos' (rpos + 1) row Hle) as Hm.
  destruct (rowAtPos_rows (children x) pos (rpos + 1) row) as [a|[rp rw]],
           (rowAtPos_rows (children x) pos' (rpos + 1) row) as [b|[rp' rw']]; try done.
  - pose proof (rowAtPos_loop_bounds xs pos' (rp' + 1) rw'). lia.
  - injection Hm as -> ->. apply IH.
Qed.

Lemma getRow_loop_shift cs row rPos prev idx :
  getRow_loop cs row rPos prev idx
  = mkRowRef (row_node (getRow_loop cs row 0 prev idx))
      (rPos + row_pos (getRow_loop cs row 0 prev idx))
      (row_section (getRow_loop cs row 0 prev idx)).
Proof.
  revert rPos prev idx. induction cs as [|x xs IH]; intros rPos prev idx.
  - simpl. f_equal. lia.
  - cbn [getRow_loop].
    destruct (isTableSection x).
    + destruct (0 <? childCount x).
      * destruct (prev + childCount x <=? row).
        -- destruct xs as [|y ys]; [simpl; f_equal; lia|].
           rewrite IH. rewrite (IH (0 + nodeSize x)). simpl. f_equal. lia.
        -- assert (Hrows : forall rows k p,
                     getRow_rows rows row prev k p
                     = ((getRow_rows rows row prev k 0).1, p + (getRow_rows rows row prev k 0).2)).
           { clear. induction rows as [|y ys IHr]; intros k p; simpl.
             - f_equal; lia.
             - destruct (prev + k =? row); [simpl; f_equal; lia|].
               rewrite IHr. rewrite (IHr _ (0 + nodeSize y)). simpl. f_equal; lia. }
           rewrite Hrows. rewrite (Hrows _ _ (0 + 1)).
           destruct (getRow_rows (children x) row prev 0 0) as [n q]. simpl. f_equal. lia.
      * apply IH.
    + rewrite IH. rewrite (IH (0 + nodeSize x)). simpl. f_equal. lia.
Qed.


Lemma tFull_rowsInEverySection : rowsInEverySection tFull.
Proof. repeat constructor; intros _; reflexivity. Qed.

(** X1: in a table whose sections all hold rows, [getRow] at a row
    number below the row count returns the row of that number, counting
    the rows of the sections in document order, and the position it
    returns for offset 0 is where [nodeAt] finds that row in the table. *)
Theorem getRow_finds_row (t : Node) (row : Z) :
  rowsInEverySection t -> wellSized t = true -> 0 <= row < rowsCount t ->
  exists r, tableRows t !! Z.to_nat row = Some r
    /\ row_node (getRow t row 0) = Some r
    /\ nodeAt t (rowPos t row 0) = Ok (Some r).
Proof.
  intros Hne Hw Hrow. rewrite rowsCount_rowsOf in Hrow.
  destruct (rowAt_exists (children t) row Hrow) as (r & p & Hat).
  exists r. split; [by apply (rowAt_lookup _ _ _ p)|].
  destruct (getRow_loop_rowAt (children t) row r p 0 0 (-1) Hne) as [Hn Hp].
  { by rewrite Z.sub_0_r. }
  unfold rowPos, getRow. rewrite Hn, Hp. split; [done|].
  by apply (nodeAt_rowAt t row).
Qed.

Lemma getRow_finds_row_witness :
  exists r, tableRows tFull !! Z.to_nat 2 = Some r
    /\ row_node (getRow tFull 2 0) = Some r
    /\ nodeAt tFull (rowPos tFull 2 0) = Ok (Some r).
Proof.
  apply (getRow_finds_row tFull 2).
  - exact tFull_rowsInEverySection.
  - reflexivity.
  - change (rowsCount tFull) with 3. lia.
Defined.

(** X2: [rowAtPos] inverts [rowPos]: in a table whose sections all hold
    rows, every position from the start of a row up to its last token is
    mapped back to the number of that row. *)
Theorem rowAtPos_rowPos (t : Node) (row pos : Z) (r : Node) :
  rowsInEverySection t -> wellSized t = true ->
  row_node (getRow t row 0) = Some r ->
  rowPos t row 0 <= pos < rowPos t row 0 + nodeSize r ->
  rowAtPos t pos = row.
Proof.
  intros Hne Hw Hnode Hpos.
  assert (Hrow : 0 <= row < rowsOf (children t)).
  { destruct (Z.lt_ge_cases row 0) as [Hneg|Hnn];
      [|destruct (Z.lt_ge_cases row (rowsOf (children t))) as [Hlt|Hge]; [lia|]].
    - unfold getRow in Hnode. rewrite getRow_loop_outside in Hnode by (done || lia). done.
    - unfold getRow in Hnode. rewrite getRow_loop_outside in Hnode by (done || lia). done. }
  destruct (rowAt_exists (children t) row Hrow) as (r' & p & Hat).
  destruct (getRow_loop_rowAt (children t) row r' p 0 0 (-1) Hne) as [Hn Hp].
  { by rewrite Z.sub_0_r. }
  unfold rowPos, getRow in *. rewrite Hn in Hnode. injection Hnode as ->.
  rewrite Hp in Hpos. unfold rowAtPos.
  apply (rowAtPos_rowAt (children t) row r p pos);
    [done | by apply wellSized_children | done | lia].
Qed.

Lemma rowAtPos_rowPos_witness : rowAtPos tFull 33 = 2.
Proof.
  apply (rowAtPos_rowPos tFull 2 33 (tr_ [td; td])).
  - exact tFull_rowsInEverySection.
  - reflexivity.
  - reflexivity.
  - change (rowPos tFull 2 0) with 30. change (nodeSize (tr_ [td; td])) with 10. lia.
Defined.

(** X3: in a table whose sections all hold rows, [getRow] returns a row
    node exactly for the row numbers from 0 up to the row count; below 0
    and from the row count on the node is null. *)
Theorem getRow_node_in_range (t : Node) (row offset : Z) :
  rowsInEverySection t ->
  is_Some (row_node (getRow t row offset)) <-> 0 <= row < rowsCount t.
Proof.
  intros Hne. rewrite rowsCount_rowsOf. split.
  - intros [r Hr].
    destruct (Z.lt_ge_cases row 0) as [Hneg|Hnn];
      [|destruct (Z.lt_ge_cases row (rowsOf (children t))) as [Hlt|Hge]; [lia|]].
    + unfold getRow in Hr. rewrite getRow_loop_outside in Hr by (done || lia). done.
    + unfold getRow in Hr. rewrite getRow_loop_outside in Hr by (done || lia). done.
  - intros Hrow. destruct (rowAt_exists (children t) row Hrow) as (r & p & Hat).
    destruct (getRow_loop_rowAt (children t) row r p offset 0 (-1) Hne) as [Hn _].
    { by rewrite Z.sub_0_r. }
    unfold getRow. rewrite Hn. eauto.
Qed.

Lemma getRow_node_in_range_witness :
  is_Some (row_node (getRow tFull 1 5)) <-> 0 <= 1 < rowsCount tFull.
Proof. apply (getRow_node_in_range tFull 1 5). exact tFull_rowsInEverySection. Defined.

(** X4: for any table, [rowAtPos] grows with the position and stays
    between 0 and the row count of the table. *)
Theorem rowAtPos_monotone (t : Node) (pos pos' : Z) :
  pos <= pos' ->
  0 <= rowAtPos t pos /\ rowAtPos t pos <= rowAtPos t pos' /\ rowAtPos t pos' <= rowsCount t.
Proof.
  intros Hle. unfold rowAtPos. rewrite rowsCount_rowsOf.
  pose proof (rowAtPos_loop_bounds (children t) pos 0 0).
  pose proof (rowAtPos_loop_bounds (children t) pos' 0 0).
  pose proof (rowAtPos_loop_mono (children t) pos pos' 0 0 Hle). lia.
Qed.

Lemma rowAtPos_monotone_witness :
  0 <= rowAtPos tFull 3 /\ rowAtPos tFull 3 <= rowAtPos tFull 30
  /\ rowAtPos tFull 30 <= rowsCount tFull.
Proof. apply (rowAtPos_monotone tFull 3 30). lia. Defined.

(** X5: the offset handed to [getRow] only shifts the position: the
    node and the section index are those found for offset 0, and the
    position is the offset plus [rowPos] for offset 0. *)
Theorem getRow_offset (t : Node) (row offset : Z) :
  getRow t row offset
  = mkRowRef (row_node (getRow t row 0)) (offset + rowPos t row 0)
      (row_section (getRow t row 0)).
Proof. unfold rowPos, getRow. apply getRow_loop_shift. Qed.


(** ** Column spans and widths *)

Lemma splice_insert_zero (l : list Z) (pos : Z) :
  exists i, (i <= length l)%nat /\ splice l pos 0 [0] = take i l ++ 0 :: drop i l.
Proof.
  unfold splice. set (s := splice_start _ _).
  assert (Hs : 0 <= s <= Z.of_nat (length l))
    by (unfold s, splice_start; destruct (Z.ltb_spec pos 0); lia).
  exists (Z.to_nat s). split; [lia|].
  replace (Z.min (Z.max 0 0) (Z.of_nat (length l) - s)) with 0 by lia.
  by rewrite Z.add_0_r.
Qed.

Lemma iter_splice_zero (k : nat) (l : list Z) (pos : Z) :
  let l' := Nat.iter k (fun a => splice a pos 0 [0]) l in
  length l' = (length l + k)%nat
  /\ filter (fun w => w <> 0) l' = filter (fun w => w <> 0) l.
Proof.
  induction k as [|k [IHlen IHf]]; simpl; [split; [lia | done]|].
  destruct (splice_insert_zero (Nat.iter k (fun a => splice a pos 0 [0]) l) pos)
    as (i & Hi & ->).
  split.
  - rewrite length_app, length_take. cbn [length]. rewrite length_drop. lia.
  - rewrite filter_app, filter_cons_False by (intros Hz; by apply Hz).
    rewrite <- filter_app, take_drop. exact IHf.
Qed.

(** X6: [addColSpan] adds [n] to the colspan and leaves every attribute
    other than colspan and colwidth alone; a colwidth array grows by [n]
    entries, all of them zeros, so that the widths it held are kept in
    their order, whatever the position; a colwidth that is no array is
    left as it is. *)
Theorem addColSpan_widths (attrs : Attrs) (pos n : Z) :
  colspan (addColSpan attrs pos n) = colspan attrs + n
  /\ (forall k, k <> "colspan" -> k <> "colwidth" -> addColSpan attrs pos n !! k = attrs !! k)
  /\ match attr attrs "colwidth" with
     | VArr cw =>
         exists cw', attr (addColSpan attrs pos n) "colwidth" = VArr cw'
           /\ length cw' = (length cw + Z.to_nat n)%nat
           /\ filter (fun w => w <> 0) cw' = filter (fun w => w <> 0) cw
     | v => attr (addColSpan attrs pos n) "colwidth" = v
     end.
Proof.
  unfold addColSpan. rewrite attr_insert_ne by done.
  destruct (attr attrs "colwidth") as [| |b|z|s|cw] eqn:E;
    try (split; [unfold colspan; by rewrite attr_insert_eq|];
         split; [intros k Hk _; by rewrite lookup_insert_ne | by rewrite attr_insert_ne]).
  split; [unfold colspan; rewrite attr_insert_ne by done; by rewrite attr_insert_eq|].
  split; [intros k Hk Hk'; by rewrite !lookup_insert_ne|].
  eexists. split; [apply attr_insert_eq|]. apply iter_splice_zero.
Qed.

(** X7: with a colwidth array and a range of [n] entries from [pos] that
    lies inside it, [removeColSpan] takes [n] from the colspan, leaves
    every attribute other than colspan and colwidth alone, and removes
    exactly the entries of the range from colwidth, which becomes null
    when no positive width is left. *)
Theorem removeColSpan_widths (attrs : Attrs) (pos n : Z) (cw : list Z) :
  attr attrs "colwidth" = VArr cw ->
  0 <= pos -> 0 <= n -> pos + n <= Z.of_nat (length cw) ->
  let rest := take (Z.to_nat pos) cw ++ drop (Z.to_nat (pos + n)) cw in
  colspan (removeColSpan attrs pos n) = colspan attrs - n
  /\ (forall k, k <> "colspan" -> k <> "colwidth" ->
        removeColSpan attrs pos n !! k = attrs !! k)
  /\ attr (removeColSpan attrs pos n) "colwidth"
     = (if some_positive rest then VArr rest else VNull)
  /\ length rest = (length cw - Z.to_nat n)%nat.
Proof.
  intros Hcw Hpos Hn Hin rest. unfold removeColSpan. rewrite attr_insert_ne by done.
  rewrite Hcw.
  assert (Hsplice : splice cw pos n [] = rest).
  { unfold splice, splice_start. destruct (Z.ltb_spec pos 0); [lia|].
    rewrite Z.min_l by lia. rewrite Z.max_l by lia. rewrite Z.min_l by lia. done. }
  rewrite Hsplice.
  assert (Hlen : length rest = (length cw - Z.to_nat n)%nat).
  { unfold rest. rewrite length_app, length_take, length_drop. lia. }
  destruct (some_positive rest); simpl.
  - split; [unfold colspan; rewrite attr_insert_ne by done; by rewrite attr_insert_eq|].
    split; [intros k Hk Hk'; by rewrite !lookup_insert_ne|].
    split; [apply attr_insert_eq | done].
  - split; [unfold colspan; rewrite attr_insert_ne by done; by rewrite attr_insert_eq|].
    split; [intros k Hk Hk'; by rewrite !lookup_insert_ne|].
    split; [apply attr_insert_eq | done].
Qed.

Lemma removeColSpan_widths_witness :
  let attrs := <["colwidth" := VArr [40; 0; 60]]> (spans 3 1) in
  colspan (removeColSpan attrs 0 1) = colspan attrs - 1
  /\ (forall k, k <> "colspan" -> k <> "colwidth" ->
        removeColSpan attrs 0 1 !! k = attrs !! k)
  /\ attr (removeColSpan attrs 0 1) "colwidth" = VArr [0; 60]
  /\ length [0; 60] = (length [40; 0; 60] - Z.to_nat 1)%nat.
Proof.
  intros attrs.
  apply (removeColSpan_widths attrs 0 1 [40; 0; 60]); [reflexivity | lia | lia | simpl; lia].
Defined.

(** ** Rectangles and rows of header cells *)

(** X8: on a grid whose cells cover rectangles of slots, for a
    rectangle inside the grid, [cellsOverlapRectangle] is true exactly
    when some cell covers a slot inside the rectangle and a slot outside
    it. *)
Theorem cellsOverlapRectangle_iff (m : TableMap) (r : Rect) :
  rectangular m -> validRect m r ->
  cellsOverlapRectangle m r = true <-> straddles m r.
Proof.
  intros Hrect Hvalid. split.
  - by apply cellsOverlapRectangle_straddles.
  - by apply straddles_cellsOverlapRectangle.
Qed.

Lemma cellsOverlapRectangle_iff_witness :
  cellsOverlapRectangle (tmap rSpan) (rect rSpan) = true <-> straddles (tmap rSpan) (rect rSpan).
Proof.
  apply (cellsOverlapRectangle_iff (tmap rSpan) (rect rSpan)).
  - apply rectangularb_sound. vm_compute. reflexivity.
  - vm_compute. repeat split; congruence.
Defined.

(** X9: [fixRowCells] keeps the row's type and attributes and the
    number, the attributes and the content of its cells; with a header
    cell type every cell of the result is a header cell, a cell that was
    one is kept as it is, and fixing a fixed row changes nothing. *)
Theorem fixRowCells_headers (row : Node) (headerCellType : NodeType) :
  tableRole headerCellType = Some Rheader_cell ->
  let fixed := fixRowCells row headerCellType in
  nodeType fixed = nodeType row /\ nodeAttrs fixed = nodeAttrs row
  /\ Forall2 (fun cell cell' =>
                role cell' = Some Rheader_cell
                /\ nodeAttrs cell' = nodeAttrs cell /\ children cell' = children cell
                /\ (role cell = Some Rheader_cell -> cell' = cell))
       (children row) (children fixed)
  /\ fixRowCells fixed headerCellType = fixed.
Proof.
  intros Hrole fixed. unfold fixed, fixRowCells, copyNode. cbn [nodeType nodeAttrs children].
  split; [done|]. split; [done|]. split.
  - apply Forall2_fmap_r. apply Forall_Forall2_diag. apply Forall_forall. intros cell _.
    unfold compose, isRole. cbn beta.
    destruct (bool_decide_reflect (role cell = Some Rheader_cell)) as [Hc|Hc].
    + by repeat split.
    + unfold role at 1. cbn [nodeType nodeAttrs children]. by repeat split.
  - f_equal. rewrite <- list_fmap_compose. apply list_fmap_ext. intros i cell _. simpl.
    unfold isRole. destruct (bool_decide_reflect (role cell = Some Rheader_cell)) as [Hc|Hc].
    + by rewrite bool_decide_eq_true_2.
    + rewrite bool_decide_eq_true_2; [done|]. unfold role. simpl. exact Hrole.
Qed.

Lemma fixRowCells_headers_witness :
  let fixed := fixRowCells (tr_ [th; td]) headerT in
  nodeType fixed = nodeType (tr_ [th; td]) /\ nodeAttrs fixed = nodeAttrs (tr_ [th; td])
  /\ Forall2 (fun cell cell' =>
                role cell' = Some Rheader_cell
                /\ nodeAttrs cell' = nodeAttrs cell /\ children cell' = children cell
                /\ (role cell = Some Rheader_cell -> cell' = cell))
       (children (tr_ [th; td])) (children fixed)
  /\ fixRowCells fixed headerT = fixed.
Proof. apply (fixRowCells_headers (tr_ [th; td]) headerT). reflexivity. Defined.


(** ** Deleting sections and rows *)

Lemma sectionsAmong_cons x l :
  sectionsAmong (x :: l) = (if isTableSection x then 1 else 0) + sectionsAmong l.
Proof.
  unfold sectionsAmong. destruct (isTableSection x) eqn:E.
  - rewrite filter_cons_True by (by rewrite E). simpl length. lia.
  - rewrite filter_cons_False by (rewrite E; simpl; tauto). lia.
Qed.

Lemma sectionsAmong_nonneg l : 0 <= sectionsAmong l.
Proof. unfold sectionsAmong. lia. Qed.

Lemma sectionsAmong_app l1 l2 : sectionsAmong (l1 ++ l2) = sectionsAmong l1 + sectionsAmong l2.
Proof. unfold sectionsAmong. rewrite filter_app, length_app. lia. Qed.

Lemma removeSection_loop_at tr ts section pre sec post pos s :
  isTableSection sec = true -> section = s + 1 + sectionsAmong pre ->
  removeSection_loop tr ts section (pre ++ sec :: post) pos s
  = addStep tr (StepDelete (ts + (pos + fragmentSize pre))
                  (ts + (pos + fragmentSize pre) + nodeSize sec)).
Proof.
  intros Hsec. revert pos s. induction pre as [|x pre IH]; intros pos s Hs.
  - cbn [app removeSection_loop fragmentSize]. rewrite Hsec. 
    change (sectionsAmong []) with 0 in Hs.
    destruct (Z.eqb_spec (s + 1) section); [|lia]. simpl. by rewrite Z.add_0_r.
  - cbn [app removeSection_loop fragmentSize]. rewrite sectionsAmong_cons in Hs.
    pose proof (sectionsAmong_nonneg pre).
    destruct (isTableSection x) eqn:Ex.
    + destruct (Z.eqb_spec (s + 1) section); [lia|]. simpl.
      rewrite IH by lia. do 2 f_equal; lia.
    + simpl. rewrite IH by lia. do 2 f_equal; lia.
Qed.

Lemma removeSection_loop_none tr ts section cs pos s :
  section <= s \/ s + sectionsAmong cs < section ->
  removeSection_loop tr ts section cs pos s = tr.
Proof.
  revert pos s. induction cs as [|x cs IH]; intros pos s Hs; [done|].
  cbn [removeSection_loop]. rewrite sectionsAmong_cons in Hs.
  pose proof (sectionsAmong_nonneg cs).
  destruct (isTableSection x) eqn:Ex.
  - destruct (Z.eqb_spec (s + 1) section); [lia|]. simpl. apply IH. lia.
  - simpl. apply IH. lia.
Qed.

(** X10: [removeSection] queues one step, the deletion of the section
    with the given index from its opening to its closing token, the
    other children of the table counted as they come; an index that is
    negative or not below the number of sections leaves the transaction
    as it was. *)
Theorem removeSection_deletes (tr : Transaction) (r : TableRect) (section : Z) :
  (forall pre sec post,
     children (table r) = pre ++ sec :: post -> isTableSection sec = true ->
     sectionsAmong pre = section ->
     removeSection tr r section = addStep tr (deletesChild (tableStart r) pre sec))
  /\ (section < 0 \/ sectionsCount (table r) <= section -> removeSection tr r section = tr).
Proof.
  split.
  - intros pre sec post Hch Hsec Hn. unfold removeSection, deletesChild. rewrite Hch.
    rewrite removeSection_loop_at by (done || lia). simpl. done.
  - intros Hout. unfold removeSection. apply removeSection_loop_none.
    unfold sectionsCount in Hout. fold (sectionsAmong (children (table r))) in Hout. lia.
Qed.

Lemma removeSection_deletes_witness :
  removeSection emptyTr rSecond 1
  = addStep emptyTr (deletesChild 1 [tbody [tr_ [td]]] (tbody [tr_ [td]]))
  /\ removeSection emptyTr rSecond 2 = emptyTr.
Proof.
  destruct (removeSection_deletes emptyTr rSecond 1) as [Hin _].
  destruct (removeSection_deletes emptyTr rSecond 2) as [_ Hout].
  split.
  - apply (Hin [tbody [tr_ [td]]] (tbody [tr_ [td]]) []); reflexivity.
  - apply Hout. right. change (sectionsCount (table rSecond)) with 2. lia.
Defined.

Lemma runningTotals_lookup l acc i :
  (i < length l)%nat -> runningTotals l acc !! i = Some (acc + total (take (S i) l)).
Proof.
  revert acc i. induction l as [|x xs IH]; intros acc i Hi; simpl in *; [lia|].
  destruct i as [|i]; simpl.
  - unfold total. simpl. f_equal. lia.
  - rewrite IH by lia. unfold total. simpl. f_equal. lia.
Qed.

Lemma total_app l1 l2 : total (l1 ++ l2) = total l1 + total l2.
Proof. unfold total. induction l1 as [|x xs IH]; simpl; [done | rewrite IH; lia]. Qed.

Lemma total_cons x l : total (x :: l) = x + total l.
Proof. reflexivity. Qed.

Lemma total_snoc l x : total (l ++ [x]) = total l + x.
Proof. rewrite total_app. change (total [x]) with (x + 0). lia. Qed.

Lemma total_positive l : Forall (fun c => 0 < c) l -> l <> [] -> 0 < total l.
Proof.
  intros Hl Hne. destruct Hl as [|x xs Hx Hxs]; [done|]. unfold total. simpl.
  enough (0 <= foldr Z.add 0 xs) by lia.
  clear Hne. induction Hxs as [|y ys Hy _ IH]; simpl; lia.
Qed.

Lemma sectionBottoms_nonempty before count after :
  sectionBottoms (before ++ count :: after) = runningTotals (before ++ count :: after) 0.
Proof. by destruct before. Qed.

(** The section the loop of [deleteRow] starts with. *)
Lemma lastSectionAbove_at (before : list Z) (count : Z) (after : list Z) (j fuel : nat) :
  Forall (fun c => 0 < c) after -> (j <= length after)%nat -> (j < fuel)%nat ->
  lastSectionAbove fuel (sectionBottoms (before ++ count :: after))
    (total before + count) (Z.of_nat (length before) + Z.of_nat j)
  = Z.of_nat (length before).
Proof.
  intros Hafter. rewrite sectionBottoms_nonempty.
  revert fuel. induction j as [|j IH]; intros fuel Hj Hfuel.
  - destruct fuel as [|fuel]; [lia|]. cbn [lastSectionAbove].
    unfold arrayGet.
    destruct (Z.ltb_spec (Z.of_nat (length before) + Z.of_nat 0) 0); [lia|].
    replace (Z.to_nat (Z.of_nat (length before) + Z.of_nat 0)) with (length before) by lia.
    rewrite runningTotals_lookup by (rewrite length_app; simpl; lia).
    replace (take (S (length before)) (before ++ count :: after)) with (before ++ [count]).
    2:{ rewrite take_app_ge by lia.
        replace (S (length before) - length before)%nat with 1%nat by lia. done. }
    rewrite total_snoc.
    destruct (Z.ltb_spec (total before + count) (0 + (total before + count))); [lia|].
    rewrite andb_false_r. lia.
  - destruct fuel as [|fuel]; [lia|]. cbn [lastSectionAbove].
    unfold arrayGet.
    destruct (Z.ltb_spec (Z.of_nat (length before) + Z.of_nat (S j)) 0); [lia|].
    replace (Z.to_nat (Z.of_nat (length before) + Z.of_nat (S j))) with (length before + S j)%nat by lia.
    rewrite runningTotals_lookup by (rewrite length_app; simpl; lia).
    replace (take (S (length before + S j)) (before ++ count :: after))
      with (before ++ count :: take (S j) after).
    2:{ rewrite take_app_ge by lia.
        replace (S (length before + S j) - length before)%nat with (S (S j)) by lia. done. }
    rewrite total_app, total_cons.
    assert (0 < total (take (S j) after)).
    { apply total_positive; [by apply Forall_take|].
      destruct after; [simpl in Hj; lia | done]. }
    destruct (Z.ltb_spec 0 (Z.of_nat (length before) + Z.of_nat (S j))); [|lia].
    destruct (Z.ltb_spec (total before + count)
                (0 + (total before + (count + total (take (S j) after))))); [|lia].
    simpl.
    replace (Z.of_nat (length before) + Z.of_nat (S j) - 1) with (Z.of_nat (length before) + Z.of_nat j)
      by lia.
    apply IH; lia.
Qed.

Section DeletionProperties.
Context `{Collaborators}.

(** X11: with a dispatch callback, when the selected rows are exactly
    the rows of one section of several, the sections after it holding
    rows, [deleteRow] removes the section itself: its transaction is the
    single step of [removeSection] for that section. *)
Theorem deleteRow_whole_section (st : EditorState) (r : TableRect)
    (before : list Z) (count : Z) (after : list Z) :
  isInTable st = Ok true ->
  selectedRect st = Ok r ->
  sectionRows (tmap r) = before ++ count :: after ->
  Forall (fun c => 0 < c) after ->
  top (rect r) = total before ->
  bottom (rect r) = total before + count ->
  ~ (top (rect r) = 0 /\ bottom (rect r) = height (tmap r)) ->
  deleteRow st true
  = Ok (true, Some (removeSection emptyTr r (Z.of_nat (length before)))).
Proof.
  intros Hin Hr Hrows Hafter Htop Hbottom Hnot.
  unfold deleteRow, dispatched. rewrite Hin, Hr. simpl.
  destruct ((top (rect r) =? 0) && (bottom (rect r) =? height (tmap r))) eqn:Hall.
  { apply andb_true_iff in Hall as [H1 H2]. exfalso. apply Hnot. lia. }
  rewrite Hrows, Hbottom.
  replace (Z.of_nat (length (before ++ count :: after)) - 1)
    with (Z.of_nat (length before) + Z.of_nat (length after))
    by (rewrite length_app; simpl; lia).
  rewrite lastSectionAbove_at by (done || lia || (rewrite length_app; simpl; lia)).
  set (fuel := (_ + _ + 1)%nat). destruct fuel as [|fuel'] eqn:Hfuel; [lia|].
  cbn [deleteRow_loop].
  rewrite sectionBottoms_nonempty. unfold arrayGet.
  destruct (Z.ltb_spec (Z.of_nat (length before)) 0); [lia|].
  rewrite Nat2Z.id.
  rewrite runningTotals_lookup by (rewrite length_app; simpl; lia).
  replace (take (S (length before)) (before ++ count :: after)) with (before ++ [count]).
  2:{ rewrite take_app_ge by lia.
      replace (S (length before) - length before)%nat with 1%nat by lia. done. }
  rewrite total_snoc.
  rewrite lookup_app_r by lia. rewrite Nat.sub_diag. cbn [lookup list_lookup].
  rewrite Htop.
  destruct (Z.eqb_spec (total before + count - 1 + 1) (0 + (total before + count))); [|lia].
  destruct (Z.leb_spec (total before) (0 + (total before + count) - count)); [|lia].
  simpl.
  destruct (Z.leb_spec (0 + (total before + count) - count) (total before)); [|lia].
  done.
Qed.

End DeletionProperties.

Lemma deleteRow_whole_section_witness :
  deleteRow (cellSelection (docOf tTwoBodies) 11 11) true
  = Ok (true, Some (removeSection emptyTr rSecond 1)).
Proof.
  apply (deleteRow_whole_section (cellSelection (docOf tTwoBodies) 11 11) rSecond [1] 1 []).
  - reflexivity.
  - reflexivity.
  - reflexivity.
  - constructor.
  - reflexivity.
  - reflexivity.
  - intros [Ht _]. discriminate Ht.
Defined.


Lemma sectionPosAndSize_all cs first i pos k p sz :
  first <= i ->
  sectionPosAndSize cs first i pos !! k = Some (p, sz) ->
  exists pre c post, cs = pre ++ c :: post /\ length pre = k
    /\ p = pos + fragmentSize pre /\ sz = nodeSize c.
Proof.
  revert i pos k. induction cs as [|x xs IH]; intros i pos k Hi Hk; [done|].
  cbn [sectionPosAndSize] in Hk. destruct (Z.leb_spec first i); [|lia].
  destruct k as [|k]; simpl in Hk.
  - injection Hk as <- <-. exists [], x, xs. simpl. repeat split; lia.
  - destruct (IH (i + 1) (pos + nodeSize x) k ltac:(lia) Hk)
      as (pre & c & post & -> & <- & -> & ->).
    exists (x :: pre), c, post. simpl. repeat split; lia.
Qed.

Lemma sectionPosAndSize_from cs (hasCaption : bool) pos k p sz :
  sectionPosAndSize cs (if hasCaption then 1 else 0) 0 pos !! k = Some (p, sz) ->
  exists pre c post, cs = pre ++ c :: post
    /\ length pre = (k + (if hasCaption then 1 else 0))%nat
    /\ p = pos + fragmentSize pre /\ sz = nodeSize c.
Proof.
  destruct hasCaption.
  - destruct cs as [|x xs]; [done|]. cbn [sectionPosAndSize].
    destruct (Z.leb_spec 1 0); [lia|]. simpl. intros Hk.
    destruct (sectionPosAndSize_all xs 1 1 (pos + nodeSize x) k p sz ltac:(lia) Hk)
      as (pre & c & post & -> & <- & -> & ->).
    exists (x :: pre), c, post. simpl. repeat split; lia.
  - intros Hk.
    destruct (sectionPosAndSize_all cs 0 0 pos k p sz ltac:(lia) Hk)
      as (pre & c & post & -> & <- & -> & ->).
    exists pre, c, post. repeat split; lia.
Qed.

Lemma deleteSection_loop_steps pas secs tr tr' :
  deleteSection_loop pas secs tr = Ok tr' ->
  exists deleted,
    steps tr' = steps tr ++ deleted
    /\ tr_selection tr' = tr_selection tr
    /\ Forall2 (fun s step => exists pos size,
                  arrayGetPair pas s = Some (pos, size) /\ step = StepDelete pos (pos + size))
         secs deleted.
Proof.
  revert tr. induction secs as [|s secs IH]; intros tr Hloop; simpl in Hloop.
  - injection Hloop as <-. exists []. rewrite app_nil_r. by repeat split.
  - destruct (arrayGetPair pas s) as [[pos size]|] eqn:Hs; simpl in Hloop; [|done].
    destruct (IH _ Hloop) as (deleted & Hsteps & Hsel & Hall).
    exists (StepDelete pos (pos + size) :: deleted).
    split; [simpl in Hsteps; by rewrite Hsteps, <- app_assoc|].
    split; [done|]. constructor; [by exists pos, size | done].
Qed.

Section SectionDeletionProperties.
Context `{Collaborators}.
Variable sectionsInRect : TableMap -> Rect -> list Z.
Variable tableSectionsCount : Node -> Z.
Variable tableHasCaption : Node -> bool.

(** X12: with the selection in a table, [deleteSection] refuses a
    selection over all rows of the table whether or not a dispatch
    callback is supplied. Otherwise it accepts without a callback; with
    one it refuses when the rectangle touches no section or as many
    sections as the table counts, and else queues one deletion per
    touched section, the last one first, each from the opening to the
    closing token of a child of the table: the child whose index is the
    section's index, moved on by one when the table has a caption. *)
Theorem deleteSection_deletes (st : EditorState) (r : TableRect) :
  isInTable st = Ok true ->
  selectedRect st = Ok r ->
  let command := deleteSection sectionsInRect tableSectionsCount tableHasCaption in
  let sections := sectionsInRect (tmap r) (rect r) in
  let shift := if tableHasCaption (table r) then 1%nat else 0%nat in
  (top (rect r) = 0 /\ bottom (rect r) = height (tmap r) ->
     forall dispatch, command st dispatch = Ok (false, None))
  /\ (~ (top (rect r) = 0 /\ bottom (rect r) = height (tmap r)) ->
      command st false = Ok (true, None)
      /\ (tableSectionsCount (table r) <= Z.of_nat (length sections) \/ sections = [] ->
          command st true = Ok (false, None))
      /\ (forall o, command st true = Ok (true, o) ->
          exists tr, o = Some tr /\ tr_selection tr = None
            /\ Forall2 (fun s step => exists pre c post,
                          children (table r) = pre ++ c :: post
                          /\ 0 <= s /\ length pre = (Z.to_nat s + shift)%nat
                          /\ step = deletesChild (tableStart r) pre c)
                 (reverse sections) (steps tr))).
Proof.
  intros Hin Hr command sections shift. unfold command, deleteSection, refuse, accept, dispatched.
  rewrite Hin, Hr. simpl. fold sections. split.
  - intros [-> ->] dispatch. by rewrite !Z.eqb_refl.
  - intros Hnot.
    destruct ((top (rect r) =? 0) && (bottom (rect r) =? height (tmap r))) eqn:Hall.
    { apply andb_true_iff in Hall as [H1 H2]. exfalso. apply Hnot. lia. }
    split; [done|]. split.
    + intros [Hmany | Hnone].
      * destruct (Z.leb_spec (tableSectionsCount (table r)) (Z.of_nat (length sections)));
          [done | lia].
      * rewrite Hnone. simpl. by rewrite orb_true_r.
    + intros o. destruct (_ || _); [discriminate|].
      destruct (deleteSection_loop _ _ _) as [tr| |] eqn:Hloop; simpl; try discriminate.
      intros [= <-]. exists tr. split; [done|].
      destruct (deleteSection_loop_steps _ _ _ _ Hloop) as (deleted & Hsteps & Hsel & Hall').
      simpl in Hsteps. rewrite Hsteps. split; [done|].
      eapply Forall2_impl; [exact Hall'|].
      intros s step (pos & size & Hget & ->). unfold arrayGetPair in Hget.
      destruct (Z.ltb_spec s 0); [done|].
      destruct (sectionPosAndSize_from _ _ _ _ _ _ Hget) as (pre & c & post & Hch & Hlen & -> & ->).
      exists pre, c, post. split; [done|]. split; [done|]. split; [|done].
      rewrite Hlen. unfold shift. by destruct (tableHasCaption (table r)).
Qed.

End SectionDeletionProperties.

(** In the sample the second of two bodies is selected; the rectangle
    is taken to touch section 1 of the 2 sections of a table without
    caption. *)
Lemma deleteSection_deletes_witness :
  let command := deleteSection (fun _ _ => [1]) (fun _ => 2) (fun _ => false) in
  command (cellSelection (docOf tTwoBodies) 11 11) true
  = Ok (true, Some (mkTransaction [StepDelete 9 17] None false))
  /\ command (cellSelection (docOf tTwoBodies) 11 11) false = Ok (true, None).
Proof.
  intros command. split; [reflexivity|].
  destruct (deleteSection_deletes (fun _ _ => [1]) (fun _ => 2) (fun _ => false)
              (cellSelection (docOf tTwoBodies) 11 11) rSecond eq_refl eq_refl)
    as [_ Hsome].
  apply Hsome. intros [Ht _]. discriminate Ht.
Defined.


(** ** Making sections *)

Lemma markRows_app f top bottom idx l1 l2 :
  markRows f top bottom idx (l1 ++ l2)
  = markRows f top bottom idx l1 ++ markRows f top bottom (idx + Z.of_nat (length l1)) l2.
Proof.
  revert idx. induction l1 as [|x xs IH]; intros idx; simpl.
  - by rewrite Z.add_0_r.
  - rewrite IH. do 3 f_equal. lia.
Qed.

Lemma markRows_outside f top bottom idx rows :
  idx + Z.of_nat (length rows) <= top \/ bottom <= idx ->
  markRows f top bottom idx rows = rows.
Proof.
  revert idx. induction rows as [|x xs IH]; intros idx Hout; simpl in *; [done|].
  rewrite IH by lia.
  destruct (Z.leb_spec top idx), (Z.ltb_spec idx bottom); simpl; try done. lia.
Qed.

Lemma rowsList_snoc l s :
  isTableSection s = true -> rowsList (l ++ [s]) = rowsList l ++ children s.
Proof. intros Hs. rewrite rowsList_app. simpl. by rewrite Hs, app_nil_r. Qed.

Lemma rowsList_snoc_other l s :
  isTableSection s = false -> rowsList (l ++ [s]) = rowsList l.
Proof. intros Hs. rewrite rowsList_app. simpl. by rewrite Hs, app_nil_r. Qed.

Lemma isTableSection_copyNode ref acc :
  isTableSection (copyNode ref acc) = isTableSection ref.
Proof. reflexivity. Qed.

Lemma isTableSection_role s (r : TableRole) :
  role s = Some r -> isSectionRole r -> isTableSection s = true.
Proof. unfold isTableSection. intros -> [-> | [-> | ->]]; done. Qed.

Lemma filter_notSection_snoc l s :
  isTableSection s = true -> filter notSection (l ++ [s]) = filter notSection l.
Proof.
  intros Hs. rewrite filter_app, filter_cons_False, filter_nil, app_nil_r; [done|].
  unfold notSection. congruence.
Qed.

Section MakeSectionProperties.
Context `{Collaborators}.

Lemma makeSection_rows_cons sectionRole nst fct top bottom section child rest j
    contents ref rowIndex inSel acc :
  makeSection_rows sectionRole nst fct top bottom section (child :: rest) j
    contents ref rowIndex inSel acc
  = let '(c, r, i, a) :=
      makeSection_row sectionRole nst fct top bottom section child (rowIndex + j)
        contents ref inSel acc in
    makeSection_rows sectionRole nst fct top bottom section rest (j + 1) c r rowIndex i a.
Proof.
  cbn [makeSection_rows]. unfold makeSection_row, fixWith.
  destruct (rowIndex + j =? top), (0 <? Z.of_nat (length acc)), inSel, fct,
    (rowIndex + j =? bottom - 1); reflexivity.
Qed.

(** One turn of the inner loop keeps the invariant. *)
Lemma makeSection_row_invariant sectionRole nst fct top bottom section child
    contents ref inSel acc done c r i a :
  0 <= top < bottom ->
  tableRole nst = Some sectionRole -> isSectionRole sectionRole ->
  isTableSection section = true -> isTableSection ref = true ->
  sectionInvariant sectionRole fct top bottom contents inSel acc done ->
  makeSection_row sectionRole nst fct top bottom section child (Z.of_nat (length done))
    contents ref inSel acc = (c, r, i, a) ->
  sectionInvariant sectionRole fct top bottom c i a (done ++ [child])
  /\ isTableSection r = true
  /\ filter notSection c = filter notSection contents.
Proof.
  intros Hrange Hnst Hrole Hsec Href (Hrows & Hsel & Hacc & Hblock) Hstep.
  unfold makeSection_row in Hstep.
  set (idx := Z.of_nat (length done)) in *.
  set (starts := idx =? top) in *.
  set (flush := starts && (0 <? Z.of_nat (length acc))) in *.
  set (contents1 := if flush then contents ++ [copyNode ref acc] else contents) in *.
  set (acc1 := if flush then [] else acc) in *.
  set (inSel1 := if starts then true else inSel) in *.
  set (row := if inSel1 then fixWith fct child else child) in *.
  assert (Hrows1 : rowsList contents1 ++ acc1 = rowsList contents ++ acc).
  { unfold contents1, acc1. destruct flush; [|done].
    rewrite rowsList_snoc by done. simpl. by rewrite app_nil_r. }
  assert (Hfilter1 : filter notSection contents1 = filter notSection contents).
  { unfold contents1. destruct flush; [|done]. by rewrite filter_notSection_snoc. }
  assert (Hsel1 : inSel1 = true <-> top <= idx < bottom).
  { unfold inSel1, starts. destruct (Z.eqb_spec idx top); [split; [lia|done]|].
    rewrite Hsel. lia. }
  assert (Hrow : [row] = markRows (fixWith fct) top bottom idx [child]).
  { unfold row. simpl. destruct inSel1.
    - destruct Hsel1 as [Hin _]. specialize (Hin eq_refl).
      destruct (Z.leb_spec top idx), (Z.ltb_spec idx bottom); simpl; try lia. done.
    - destruct (Z.leb_spec top idx), (Z.ltb_spec idx bottom); simpl; try done.
      destruct Hsel1 as [_ Hin]. discriminate Hin. lia. }
  assert (Hacc1 : inSel1 = true -> acc1 = fixWith fct <$> drop (Z.to_nat top) done).
  { unfold inSel1, acc1, flush, starts. destruct (Z.eqb_spec idx top) as [Heq|Hne].
    - intros _. rewrite drop_ge by (unfold idx in Heq; lia). simpl.
      destruct (Z.ltb_spec 0 (Z.of_nat (length acc))); [done|].
      destruct acc; [done | simpl in *; lia].
    - simpl. exact Hacc. }
  assert (Hrows2 : rowsList contents1 ++ acc1 ++ [row]
                   = markRows (fixWith fct) top bottom 0 (done ++ [child])).
  { rewrite markRows_app, <- Hrows, <- Hrows1, Z.add_0_l. fold idx. rewrite <- Hrow.
    by rewrite app_assoc. }
  assert (Hacc2 : inSel1 = true ->
                  acc1 ++ [row] = fixWith fct <$> drop (Z.to_nat top) (done ++ [child])).
  { intros Hin. rewrite (Hacc1 Hin). unfold row. rewrite Hin.
    apply Hsel1 in Hin. rewrite drop_app_le by (unfold idx in Hin; lia).
    by rewrite fmap_app. }
  assert (Hlen : Z.of_nat (length (done ++ [child])) = idx + 1)
    by (rewrite length_app; simpl; unfold idx; lia).
  destruct (Z.eqb_spec idx (bottom - 1)) as [Hlast|Hmore].
  - injection Hstep as <- <- <- <-.
    assert (Hin : inSel1 = true) by (apply Hsel1; lia).
    set (ref2 := if negb (isRole (role ref) sectionRole) then section else ref).
    set (newSection := if negb (isRole (role ref2) sectionRole)
                       then Elem nst (defaultAttrs nst) (acc1 ++ [row])
                       else copyNode ref2 (acc1 ++ [row])).
    assert (Hnew : role newSection = Some sectionRole /\ children newSection = acc1 ++ [row]).
    { unfold newSection, isRole.
      destruct (bool_decide_reflect (role ref2 = Some sectionRole)) as [Hr|Hr]; simpl; [|done].
      split; [|done]. exact Hr. }
    destruct Hnew as [Hnrole Hnch].
    assert (Hnsec : isTableSection newSection = true) by (by apply (isTableSection_role _ sectionRole)).
    split; [|split; [done | by rewrite filter_notSection_snoc]].
    unfold sectionInvariant. rewrite Hlen.
    split; [rewrite rowsList_snoc, Hnch, app_nil_r by done; exact Hrows2|].
    split; [split; [done | lia]|]. split; [done|].
    intros _. exists contents1, newSection, []. split; [done|]. split; [done|].
    rewrite Hnch, (Hacc2 Hin). unfold rowsBetween. f_equal.
    rewrite take_ge; [done|]. rewrite length_drop, length_app. simpl. unfold idx in Hlast. lia.
  - injection Hstep as <- <- <- <-.
    split; [|by split].
    unfold sectionInvariant. rewrite Hlen.
    split; [exact Hrows2|]. split; [rewrite Hsel1; lia|]. split; [exact Hacc2|].
    intros Hpast. destruct (Hblock ltac:(lia)) as (pre & s & post & Hc & Hs & Hch).
    assert (Hnoflush : flush = false).
    { unfold flush, starts. destruct (Z.eqb_spec idx top); [lia | done]. }
    unfold contents1. rewrite Hnoflush.
    exists pre, s, post. split; [done|]. split; [done|]. rewrite Hch. f_equal.
    unfold rowsBetween. rewrite drop_app_le by (unfold idx in *; lia).
    rewrite take_app_le; [done|]. rewrite length_drop. unfold idx in *. lia.
Qed.

(** The inner loop keeps the invariant over the rows of a section. *)
Lemma makeSection_rows_invariant sectionRole nst fct top bottom section rowIndex :
  0 <= top < bottom ->
  tableRole nst = Some sectionRole -> isSectionRole sectionRole ->
  isTableSection section = true ->
  forall rows j contents ref inSel acc done c r i a,
    isTableSection ref = true ->
    Z.of_nat (length done) = rowIndex + j ->
    sectionInvariant sectionRole fct top bottom contents inSel acc done ->
    makeSection_rows sectionRole nst fct top bottom section rows j contents ref rowIndex
      inSel acc = (c, r, i, a) ->
    sectionInvariant sectionRole fct top bottom c i a (done ++ rows)
    /\ isTableSection r = true
    /\ filter notSection c = filter notSection contents.
Proof.
  intros Hrange Hnst Hrole Hsec rows.
  induction rows as [|child rest IH]; intros j contents ref inSel acc done c r i a
    Href Hlen Hinv Hloop.
  - simpl in Hloop. injection Hloop as <- <- <- <-. rewrite app_nil_r. by split.
  - rewrite makeSection_rows_cons in Hloop. rewrite <- Hlen in Hloop.
    destruct (makeSection_row _ _ _ _ _ _ _ _ _ _ _ _) as [[[c1 r1] i1] a1] eqn:Hstep.
    destruct (makeSection_row_invariant _ _ _ _ _ _ _ _ _ _ _ _ _ _ _ _
                Hrange Hnst Hrole Hsec Href Hinv Hstep) as (Hinv1 & Href1 & Hf1).
    destruct (IH (j + 1) c1 r1 i1 a1 (done ++ [child]) c r i a Href1
                ltac:(rewrite length_app; simpl; lia) Hinv1 Hloop) as (Hinv2 & Href2 & Hf2).
    rewrite <- app_assoc in Hinv2. split; [done|]. split; [done | congruence].
Qed.

(** The outer loop keeps it over the children of the table: at the end
    nothing is held back. *)
Lemma makeSection_loop_invariant sectionRole nst fct top bottom :
  0 <= top < bottom ->
  tableRole nst = Some sectionRole -> isSectionRole sectionRole ->
  forall cs a passed result,
    (forall ref, refSection a = Some ref -> isTableSection ref = true) ->
    rowIndex a = Z.of_nat (length (rowsList passed)) ->
    (inSelection a = false -> accSectionRows a = []) ->
    sectionInvariant sectionRole fct top bottom (newTableContents a) (inSelection a)
      (accSectionRows a) (rowsList passed) ->
    filter notSection (newTableContents a) = filter notSection passed ->
    makeSection_loop sectionRole nst fct top bottom cs a = Some result ->
    sectionInvariant sectionRole fct top bottom (newTableContents result)
      (inSelection result) (accSectionRows result) (rowsList (passed ++ cs))
    /\ (inSelection result = false -> accSectionRows result = [])
    /\ filter notSection (newTableContents result) = filter notSection (passed ++ cs).
Proof.
  intros Hrange Hnst Hrole cs.
  induction cs as [|section rest IH]; intros a passed result Href Hidx Hheld Hinv Hf Hloop.
  - simpl in Hloop. injection Hloop as <-. rewrite app_nil_r. by split.
  - cbn [makeSection_loop] in Hloop.
    replace (passed ++ section :: rest) with ((passed ++ [section]) ++ rest)
      by (by rewrite <- app_assoc).
    destruct (isTableSection section) eqn:Hsec.
    + destruct (_ && _ && _); [discriminate|].
      destruct ((bottom <=? rowIndex a) || (rowIndex a + childCount section - 1 <? top))
        eqn:Hover.
      * (* the section does not overlap the selection *)
        assert (Hout : inSelection a = false).
        { destruct Hinv as (_ & Hsel & _). destruct (inSelection a); [|done].
          destruct Hsel as [Hsel _]. specialize (Hsel eq_refl). rewrite <- Hidx in Hsel.
          apply orb_true_iff in Hover as [Hb|Hb]; [apply Z.leb_le in Hb | apply Z.ltb_lt in Hb];
            unfold childCount in *; lia. }
        apply (IH _ (passed ++ [section]) result) in Hloop; [done|done| | | |]; cbn.
        -- rewrite rowsList_snoc, length_app by done. unfold childCount. lia.
        -- done.
        -- destruct Hinv as (Hrows & Hsel & Hacc & Hblock).
           rewrite (Hheld Hout) in *. rewrite app_nil_r in Hrows.
           unfold sectionInvariant. cbn zeta. rewrite !rowsList_snoc, length_app by done.
           split.
           { rewrite markRows_app, <- Hrows, app_nil_r. f_equal.
             rewrite markRows_outside; [done|]. rewrite Z.add_0_l, <- Hidx.
             apply orb_true_iff in Hover as [Hb|Hb];
               [apply Z.leb_le in Hb | apply Z.ltb_lt in Hb]; unfold childCount in *; lia. }
           split.
           { rewrite Hout. split; [done|]. rewrite Nat2Z.inj_add, <- Hidx.
             apply orb_true_iff in Hover as [Hb|Hb];
               [apply Z.leb_le in Hb | apply Z.ltb_lt in Hb]; unfold childCount in *; lia. }
           split; [by rewrite Hout|].
           intros Hpast. rewrite Nat2Z.inj_add, <- Hidx in Hpast.
           assert (Hb : bottom <= rowIndex a).
           { apply orb_true_iff in Hover as [Hb|Hb];
               [apply Z.leb_le in Hb | apply Z.ltb_lt in Hb]; unfold childCount in *; lia. }
           destruct (Hblock ltac:(lia)) as (pre & s & post & Hc & Hs & Hch).
           exists pre, s, (post ++ [section]).
           split; [rewrite Hc; by rewrite <- app_assoc|]. split; [done|].
           rewrite Hch. f_equal. unfold rowsBetween.
           rewrite drop_app_le by lia. rewrite take_app_le; [done|]. rewrite length_drop. lia.
        -- rewrite !filter_app, Hf. done.
      * (* the section overlaps the selection *)
        destruct (makeSection_rows _ _ _ _ _ _ _ _ _ _ _ _ _) as [[[c r] i] acc'] eqn:Hrowsloop.
        assert (Hdef : isTableSection (default section (refSection a)) = true).
        { destruct (refSection a) as [ref|] eqn:E; simpl; [by apply Href | done]. }
        destruct (makeSection_rows_invariant sectionRole nst fct top bottom section
                    (rowIndex a) Hrange Hnst Hrole Hsec (children section) 0
                    (newTableContents a) (default section (refSection a)) (inSelection a)
                    (accSectionRows a) (rowsList passed) c r i acc' Hdef ltac:(lia) Hinv
                    Hrowsloop)
          as (Hinv1 & Href1 & Hf1).
        apply (IH _ (passed ++ [section]) result) in Hloop; [done| | | | |]; cbn.
        -- intros ref [= <-]. done.
        -- rewrite rowsList_snoc, length_app by done. unfold childCount. lia.
        -- destruct i; simpl; [done|]. intros _.
           destruct (Z.ltb_spec 0 (Z.of_nat (length acc'))); [done|].
           destruct acc'; [done | simpl in *; lia].
        -- rewrite rowsList_snoc by done.
           destruct Hinv1 as (Hrows & Hsel & Hacc & Hblock).
           destruct (negb i && (0 <? Z.of_nat (length acc'))) eqn:Hflush; [|done].
           apply andb_true_iff in Hflush as [Hi _]. destruct i; [done|].
           unfold sectionInvariant.
           split; [rewrite rowsList_snoc by done; simpl; by rewrite app_nil_r|].
           split; [done|]. split; [done|].
           intros Hpast. destruct (Hblock Hpast) as (pre & s & post & -> & Hs & Hch).
           exists pre, s, (post ++ [copyNode r acc']). split; [by rewrite <- app_assoc|]. done.
        -- rewrite filter_app, (filter_cons_False _ section), filter_nil, app_nil_r
             by (unfold notSection; congruence).
           rewrite <- Hf, <- Hf1.
           destruct (negb i && (0 <? Z.of_nat (length acc'))); [|done].
           by rewrite filter_notSection_snoc.
    + apply (IH _ (passed ++ [section]) result) in Hloop; [done|done| | | |]; cbn.
      * by rewrite rowsList_snoc_other.
      * done.
      * rewrite rowsList_snoc_other by done.
        destruct Hinv as (Hrows & Hsel & Hacc & Hblock).
        unfold sectionInvariant. rewrite rowsList_snoc_other by done.
        split; [done|]. split; [done|]. split; [done|].
        intros Hpast. destruct (Hblock Hpast) as (pre & s & post & -> & Hs & Hch).
        exists pre, s, (post ++ [section]). split; [by rewrite <- app_assoc|]. done.
      * rewrite !filter_app, Hf. done.
Qed.

End MakeSectionProperties.


Section MakeSectionTheorems.
Context `{Collaborators}.

(** What [makeSection] hands over when it dispatches: one replacement
    of the table by a copy with new content, for which the invariant of
    the loops holds with nothing held back. *)
Lemma makeSection_dispatches (sectionRole : TableRole) (st : EditorState) (r : TableRect)
    (tr : Transaction) :
  isSectionRole sectionRole -> schemaCoherent ->
  isInTable st = Ok true -> selectedRect st = Ok r ->
  0 <= top (rect r) < bottom (rect r) -> bottom (rect r) <= rowsCount (table r) ->
  makeSection sectionRole st true = Ok (true, Some tr) ->
  exists contents,
    steps tr = [StepReplaceWith (tableStart r - 1) (tableStart r - 1 + nodeSize (table r))
                  [copyNode (table r) contents]]
    /\ sectionInvariant sectionRole (fixCellsTypeFor sectionRole) (top (rect r))
         (bottom (rect r)) contents false [] (tableRows (table r))
    /\ filter notSection contents = filter notSection (children (table r)).
Proof.
  intros Hrole Hschema Hin Hr Hrange Hbottom Hmake.
  unfold makeSection, refuse, accept, dispatched in Hmake. rewrite Hin, Hr in Hmake.
  simpl in Hmake.
  destruct (bool_decide (sectionRole = Rhead) && (0 <? top (rect r))); [discriminate|].
  destruct (bool_decide (sectionRole = Rfoot) && (bottom (rect r) <? height (tmap r)));
    [discriminate|].
  destruct (tableNodeTypes sectionRole) as [nst|] eqn:Hnst; [|discriminate].
  fold (fixCellsTypeFor sectionRole) in Hmake.
  destruct (makeSection_loop _ _ _ _ _ _ _) as [a|] eqn:Hloop; [|discriminate].
  destruct (makeSection_loop_invariant sectionRole nst (fixCellsTypeFor sectionRole)
              (top (rect r)) (bottom (rect r)) Hrange (Hschema _ _ Hnst) Hrole
              (children (table r)) (mkSectionAcc [] None 0 false []) [] a)
    as (Hinv & Hheld & Hf); try done.
  { unfold sectionInvariant. simpl. split; [done|]. split; [split; [done | lia]|].
    split; [done | lia]. }
  simpl in Hinv, Hf.
  assert (Hsel : inSelection a = false).
  { destruct Hinv as (_ & Hs & _). destruct (inSelection a); [|done].
    destruct Hs as [Hs _]. specialize (Hs eq_refl).
    rewrite rowsList_length, <- rowsCount_rowsOf in Hs. lia. }
  rewrite Hsel, (Hheld Hsel) in Hinv.
  exists (newTableContents a). split; [|by split].
  destruct (head (cellsInRect _ _)) as [first|]; [|discriminate].
  destruct (last (cellsInRect _ _)) as [final|]; [|discriminate].
  by injection Hmake as <-.
Qed.

(** X13: when [makeSection] dispatches for a range of rows of the
    table, its transaction is one step that replaces the table by a
    table of the same type and attributes which holds the same rows in
    the same order, the selected rows with their cells made header cells
    when a head or a foot is made, and the same children that are no
    sections, in their order. *)
Theorem makeSection_keeps_rows (sectionRole : TableRole) (st : EditorState) (r : TableRect)
    (tr : Transaction) :
  isSectionRole sectionRole -> schemaCoherent ->
  isInTable st = Ok true -> selectedRect st = Ok r ->
  0 <= top (rect r) < bottom (rect r) -> bottom (rect r) <= rowsCount (table r) ->
  makeSection sectionRole st true = Ok (true, Some tr) ->
  exists newTable,
    steps tr = [StepReplaceWith (tableStart r - 1) (tableStart r - 1 + nodeSize (table r))
                  [newTable]]
    /\ nodeType newTable = nodeType (table r)
    /\ nodeAttrs newTable = nodeAttrs (table r)
    /\ tableRows newTable
       = markRows (fixWith (fixCellsTypeFor sectionRole)) (top (rect r)) (bottom (rect r)) 0
           (tableRows (table r))
    /\ filter notSection (children newTable) = filter notSection (children (table r)).
Proof.
  intros Hrole Hschema Hin Hr Hrange Hbottom Hmake.
  destruct (makeSection_dispatches sectionRole st r tr Hrole Hschema Hin Hr Hrange Hbottom
              Hmake) as (contents & Hsteps & (Hrows & _) & Hf).
  exists (copyNode (table r) contents). split; [done|]. split; [done|]. split; [done|].
  unfold tableRows. cbn [copyNode children]. rewrite app_nil_r in Hrows. by split.
Qed.

(** X14: when [makeSection] dispatches for a range of rows of the
    table, the new table holds a section of the role asked for whose
    rows are exactly the selected rows, in their order, with their cells
    made header cells when a head or a foot is made. *)
Theorem makeSection_selected_rows (sectionRole : TableRole) (st : EditorState)
    (r : TableRect) (tr : Transaction) :
  isSectionRole sectionRole -> schemaCoherent ->
  isInTable st = Ok true -> selectedRect st = Ok r ->
  0 <= top (rect r) < bottom (rect r) -> bottom (rect r) <= rowsCount (table r) ->
  makeSection sectionRole st true = Ok (true, Some tr) ->
  exists newTable pre s post,
    steps tr = [StepReplaceWith (tableStart r - 1) (tableStart r - 1 + nodeSize (table r))
                  [newTable]]
    /\ children newTable = pre ++ s :: post
    /\ role s = Some sectionRole
    /\ children s
       = fixWith (fixCellsTypeFor sectionRole)
           <$> rowsBetween (top (rect r)) (bottom (rect r)) (tableRows (table r)).
Proof.
  intros Hrole Hschema Hin Hr Hrange Hbottom Hmake.
  destruct (makeSection_dispatches sectionRole st r tr Hrole Hschema Hin Hr Hrange Hbottom
              Hmake) as (contents & Hsteps & (_ & _ & _ & Hblock) & _).
  destruct Hblock as (pre & s & post & Hc & Hs & Hch).
  { unfold tableRows. rewrite rowsList_length, <- rowsCount_rowsOf. lia. }
  exists (copyNode (table r) contents), pre, s, post. by repeat split.
Qed.

End MakeSectionTheorems.

Lemma host_schemaCoherent : schemaCoherent.
Proof. intros r ty Hty. destruct r; injection Hty as <-; reflexivity. Qed.

(** In the sample the first of the two rows of a body is made a head:
    the new table has a head with that row, its cells header cells, and
    a body with the second row. *)
Lemma makeSection_keeps_rows_witness :
  exists tr newTable,
    makeSection Rhead (cellSelection d22 3 3) true = Ok (true, Some tr)
    /\ steps tr = [StepReplaceWith (tableStart r22 - 1) (tableStart r22 - 1 + nodeSize (table r22))
                     [newTable]]
    /\ nodeType newTable = nodeType (table r22)
    /\ nodeAttrs newTable = nodeAttrs (table r22)
    /\ tableRows newTable = [tr_ [th; th]; tr_ [td; td]]
    /\ filter notSection (children newTable) = filter notSection (children (table r22)).
Proof.
  assert (E : exists tr, makeSection Rhead (cellSelection d22 3 3) true = Ok (true, Some tr))
    by (eexists; vm_compute; reflexivity).
  destruct E as [tr E]. exists tr.
  destruct (makeSection_keeps_rows Rhead (cellSelection d22 3 3) r22 tr) as (newTable & Hn);
    [by left | exact host_schemaCoherent | reflexivity | reflexivity
     | simpl; lia | change (rowsCount (table r22)) with 2; simpl; lia | exact E |].
  exists newTable. split; [exact E|]. exact Hn.
Defined.

Lemma makeSection_selected_rows_witness :
  exists tr newTable pre s post,
    makeSection Rhead (cellSelection d22 3 3) true = Ok (true, Some tr)
    /\ steps tr = [StepReplaceWith (tableStart r22 - 1) (tableStart r22 - 1 + nodeSize (table r22))
                     [newTable]]
    /\ children newTable = pre ++ s :: post
    /\ role s = Some Rhead
    /\ children s = [tr_ [th; th]].
Proof.
  assert (E : exists tr, makeSection Rhead (cellSelection d22 3 3) true = Ok (true, Some tr))
    by (eexists; vm_compute; reflexivity).
  destruct E as [tr E]. exists tr.
  destruct (makeSection_selected_rows Rhead (cellSelection d22 3 3) r22 tr)
    as (newTable & pre & s & post & Hn);
    [by left | exact host_schemaCoherent | reflexivity | reflexivity
     | simpl; lia | change (rowsCount (table r22)) with 2; simpl; lia | exact E |].
  exists newTable, pre, s, post. split; [exact E|]. exact Hn.
Defined.


(** ** Merging and splitting cells *)

Lemma colspan_addColSpan (attrs : Attrs) (pos n : Z) :
  colspan (addColSpan attrs pos n) = colspan attrs + n.
Proof.
  unfold addColSpan. rewrite attr_insert_ne by done.
  destruct (attr attrs "colwidth"); unfold colspan;
    rewrite ?(attr_insert_ne _ "colwidth" "colspan") by done; by rewrite attr_insert_eq.
Qed.

Lemma colspan_insert_rowspan (attrs : Attrs) v :
  colspan (<["rowspan" := v]> attrs) = colspan attrs.
Proof. unfold colspan. by rewrite attr_insert_ne. Qed.

Lemma mergeCells_loop_steps (r : TableRect) (slots : list Z) (a a' : MergeAcc) :
  mergeCells_loop r slots a = Ok a' ->
  (exists deletes, steps (m_tr a') = steps (m_tr a) ++ deletes /\ Forall isDelete deletes)
  /\ tr_selection (m_tr a') = tr_selection (m_tr a)
  /\ scrolledIntoView (m_tr a') = scrolledIntoView (m_tr a)
  /\ (forall c, m_merged a = Some c -> m_merged a' = Some c)
  /\ (forall p c, m_merged a = None -> m_merged a' = Some (p, c) ->
        nodeAt (table r) p = Ok (Some c)
        /\ exists index, index ∈ slots /\ slot (tmap r) index = Some p).
Proof.
  revert a. induction slots as [|index rest IH]; intros a Hloop; simpl in Hloop.
  - injection Hloop as <-. split; [exists []; by rewrite app_nil_r|].
    split; [done|]. split; [done|]. split; [done|]. intros p c Hn Hs. congruence.
  - destruct (nodeAtSlot (table r) (slot (tmap r) index)) as [cell| |] eqn:Hcell;
      simpl in Hloop; try discriminate.
    assert (Hskip : mergeCells_loop r rest a = Ok a' ->
              (exists deletes, steps (m_tr a') = steps (m_tr a) ++ deletes
                 /\ Forall isDelete deletes)
              /\ tr_selection (m_tr a') = tr_selection (m_tr a)
              /\ scrolledIntoView (m_tr a') = scrolledIntoView (m_tr a)
              /\ (forall c, m_merged a = Some c -> m_merged a' = Some c)
              /\ (forall p c, m_merged a = None -> m_merged a' = Some (p, c) ->
                    nodeAt (table r) p = Ok (Some c)
                    /\ exists index0, index0 ∈ index :: rest
                         /\ slot (tmap r) index0 = Some p)).
    { intros Hrest. destruct (IH _ Hrest) as (Hd & Hsel & Hscroll & Hkeep & Hfirst).
      split; [done|]. split; [done|]. split; [done|]. split; [done|].
      intros p c Hn Hs. destruct (Hfirst p c Hn Hs) as [Hat (i & Hi & Hslot)].
      split; [done|]. exists i. split; [by apply list_elem_of_further | done]. }
    destruct (slot (tmap r) index) as [cellPos|] eqn:Hslot; [|by apply Hskip].
    destruct cell as [cell|]; [|by apply Hskip].
    destruct (bool_decide (cellPos ∈ m_seen a)); [by apply Hskip|].
    destruct (m_merged a) as [[p0 c0]|] eqn:Hm.
    + destruct (IH _ Hloop) as ((deletes & Hsteps & Hdel) & Hsel & Hscroll & Hkeep & Hfirst).
      simpl in *. split.
      { eexists (_ :: deletes). split; [by rewrite Hsteps, <- app_assoc|]. by constructor. }
      split; [done|]. split; [done|]. split; [intros c [= <-]; by apply Hkeep|]. done.
    + destruct (IH _ Hloop) as (Hd & Hsel & Hscroll & Hkeep & Hfirst).
      simpl in *. split; [done|]. split; [done|]. split; [done|]. split; [done|].
      intros p c _ Hs. rewrite (Hkeep _ eq_refl) in Hs. injection Hs as <- <-.
      split; [exact Hcell|]. exists index. split; [apply list_elem_of_here | done].
Qed.

(** The cell that survives is the first one met: the slots before it
    hold no node. *)
Lemma mergeCells_loop_first (r : TableRect) (slots : list Z) (a a' : MergeAcc) (p : Z)
    (c : Node) :
  mergeCells_loop r slots a = Ok a' ->
  m_merged a = None -> m_seen a = [] -> m_merged a' = Some (p, c) ->
  exists before index after,
    slots = before ++ index :: after
    /\ slot (tmap r) index = Some p
    /\ nodeAt (table r) p = Ok (Some c)
    /\ Forall (fun i => nodeAtSlot (table r) (slot (tmap r) i) = Ok None) before.
Proof.
  revert a. induction slots as [|index rest IH]; intros a Hloop Hm Hseen Hm'.
  - simpl in Hloop. injection Hloop as <-. congruence.
  - cbn [mergeCells_loop] in Hloop. cbn zeta in Hloop.
    destruct (slot (tmap r) index) as [cellPos|] eqn:Hslot; [|discriminate].
    cbn [nodeAtSlot] in Hloop.
    destruct (nodeAt (table r) cellPos) as [[cell|]| |] eqn:Hcell; simpl in Hloop;
      try discriminate.
    + rewrite Hseen, Hm in Hloop.
      rewrite bool_decide_eq_false_2 in Hloop by apply not_elem_of_nil.
      destruct (mergeCells_loop_steps _ _ _ _ Hloop) as (_ & _ & _ & Hkeep & _).
      rewrite (Hkeep _ eq_refl) in Hm'. injection Hm' as <- <-.
      exists [], index, rest. by repeat split.
    + destruct (IH _ Hloop Hm Hseen Hm') as (before & i & after & -> & Hi & Hc & Hnone).
      exists (index :: before), i, after. repeat split; try done.
      constructor; [|done]. rewrite Hslot. exact Hcell.
Qed.

(** The slots of a rectangle start with its top-left slot. *)
Lemma rectSlots_head (m : TableMap) (r : Rect) (x : Z) (l : list Z) :
  rectSlots m r = x :: l -> x = top r * width m + left r.
Proof.
  unfold rectSlots, range.
  destruct (Z.to_nat (bottom r - top r)) as [|rows]; [done|].
  destruct (Z.to_nat (right r - left r)) as [|cols].
  - intros Hnil. exfalso. revert Hnil. generalize (seq 0 (S rows)). intros sq.
    induction sq as [|y sq IH]; [done|]. by simpl.
  - simpl. intros [= <- _]. lia.
Qed.

Section MergeSplitProperties.
Context `{Collaborators}.

(** X15: when [mergeCells] dispatches a transaction, it has queued
    deletions only, then one markup change of the cell that survives,
    which sets its colspan to the width and its rowspan to the height of
    the rectangle, then at most one replacement that moves content into
    it; and it selects that cell. The cell that survives is the first
    cell met in the rectangle: going through the slots of the rectangle
    row by row, it is the cell of the first slot whose offset holds a
    node, which is the top-left slot of the rectangle when that one
    holds a node. *)
Theorem mergeCells_spans (st : EditorState) (r : TableRect) (tr : Transaction) :
  selectedRect st = Ok r ->
  mergeCells st true = Ok (true, Some tr) ->
  exists mergedPos mergedCell attrs deletes moved,
    nodeAt (table r) mergedPos = Ok (Some mergedCell)
    /\ (exists before index after,
          rectSlots (tmap r) (rect r) = before ++ index :: after
          /\ slot (tmap r) index = Some mergedPos
          /\ Forall (fun i => nodeAtSlot (table r) (slot (tmap r) i) = Ok None) before)
    /\ (forall cell,
          cellAtSlot (table r) (tmap r) (top (rect r) * width (tmap r) + left (rect r))
          = Ok cell ->
          slot (tmap r) (top (rect r) * width (tmap r) + left (rect r)) = Some mergedPos
          /\ mergedCell = cell)
    /\ steps tr
       = deletes ++ [StepSetNodeMarkup (mergedPos + tableStart r) None attrs] ++ moved
    /\ Forall isDelete deletes
    /\ (moved = [] \/ exists from to content, moved = [StepReplaceWith from to content])
    /\ colspan attrs = right (rect r) - left (rect r)
    /\ rowspan attrs = bottom (rect r) - top (rect r)
    /\ tr_selection tr = Some (SelectCells (mergedPos + tableStart r) None).
Proof.
  intros Hr Hmerge. unfold mergeCells, refuse, accept, dispatched in Hmerge.
  destruct (selection st) as [an hd ac hc| |]; try discriminate.
  destruct (rp_pos ac =? rp_pos hc); [discriminate|].
  rewrite Hr in Hmerge. simpl in Hmerge.
  destruct (negb (rectOverOneSection _ _)); [discriminate|].
  destruct (cellsOverlapRectangle _ _); [discriminate|].
  destruct (mergeCells_loop _ _ _) as [a| |] eqn:Hloop; simpl in Hmerge; try discriminate.
  destruct (m_merged a) as [[mergedPos mergedCell]|] eqn:Hm; [|discriminate].
  destruct (mergeCells_loop_steps _ _ _ _ Hloop)
    as ((deletes & Hsteps & Hdel) & Hsel & _ & _ & _).
  destruct (mergeCells_loop_first _ _ _ _ _ _ Hloop eq_refl eq_refl Hm)
    as (before & index & after & Hslots & Hslot & Hat & Hnone).
  assert (Htopleft : forall cell,
            cellAtSlot (table r) (tmap r) (top (rect r) * width (tmap r) + left (rect r))
            = Ok cell ->
            slot (tmap r) (top (rect r) * width (tmap r) + left (rect r)) = Some mergedPos
            /\ mergedCell = cell).
  { intros cell Hcell. unfold cellAtSlot in Hcell. destruct before as [|i before].
    - rewrite <- (rectSlots_head _ _ _ _ Hslots). split; [done|].
      rewrite <- (rectSlots_head _ _ _ _ Hslots), Hslot in Hcell. simpl in Hcell.
      rewrite Hat in Hcell. simpl in Hcell. congruence.
    - apply Forall_inv in Hnone. rewrite <- (rectSlots_head _ _ _ _ Hslots) in Hcell.
      rewrite Hnone in Hcell. discriminate. }
  simpl in Hsteps.
  set (attrs := <["rowspan" := VNum (bottom (rect r) - top (rect r))]> _) in Hmerge.
  exists mergedPos, mergedCell, attrs, deletes.
  assert (Hc : colspan attrs = right (rect r) - left (rect r)).
  { unfold attrs. rewrite colspan_insert_rowspan, colspan_addColSpan. lia. }
  assert (Hrs : rowspan attrs = bottom (rect r) - top (rect r)).
  { unfold attrs, rowspan. by rewrite attr_insert_eq. }
  destruct (0 <? fragmentSize (m_content a)); injection Hmerge as <-.
  - eexists [_]. split; [done|]. split; [by exists before, index, after|]. split; [done|].
    split; [cbn [steps addStep setSelection]; rewrite Hsteps, <- app_assoc; reflexivity|].
    split; [done|]. split; [right; by eexists _, _, _|]. by repeat split.
  - exists []. split; [done|]. split; [by exists before, index, after|]. split; [done|].
    split; [cbn [steps addStep setSelection]; by rewrite Hsteps|].
    split; [done|]. split; [by left|]. by repeat split.
Qed.

End MergeSplitProperties.


Lemma mergeCells_spans_witness :
  exists tr mergedPos mergedCell attrs deletes moved,
    mergeCells (cellSelection d22 3 7) true = Ok (true, Some tr)
    /\ nodeAt t22 mergedPos = Ok (Some mergedCell)
    /\ (exists before index after,
          rectSlots (TableMap_get t22) (mkRect 0 0 2 1) = before ++ index :: after
          /\ slot (TableMap_get t22) index = Some mergedPos
          /\ Forall (fun i => nodeAtSlot t22 (slot (TableMap_get t22) i) = Ok None) before)
    /\ (forall cell,
          cellAtSlot t22 (TableMap_get t22) (0 * width (TableMap_get t22) + 0) = Ok cell ->
          slot (TableMap_get t22) (0 * width (TableMap_get t22) + 0) = Some mergedPos
          /\ mergedCell = cell)
    /\ steps tr = deletes ++ [StepSetNodeMarkup (mergedPos + 1) None attrs] ++ moved
    /\ Forall isDelete deletes
    /\ (moved = [] \/ exists from to content, moved = [StepReplaceWith from to content])
    /\ colspan attrs = 2 - 0
    /\ rowspan attrs = 1 - 0
    /\ tr_selection tr = Some (SelectCells (mergedPos + 1) None).
Proof.
  assert (E : exists tr, mergeCells (cellSelection d22 3 7) true = Ok (true, Some tr))
    by (eexists; vm_compute; reflexivity).
  destruct E as [tr E]. exists tr.
  destruct (mergeCells_spans (cellSelection d22 3 7)
              (mkTableRect (mkRect 0 0 2 1) 1 (TableMap_get t22) t22) tr eq_refl E)
    as (mergedPos & mergedCell & attrs & deletes & moved & Hn).
  exists mergedPos, mergedCell, attrs, deletes, moved. split; [exact E | exact Hn].
Defined.

Lemma range_lookup a b i : a <= i < b -> range a b !! Z.to_nat (i - a) = Some i.
Proof.
  intros Hi. unfold range. rewrite list_lookup_fmap, lookup_seq_lt by lia. simpl. f_equal. lia.
Qed.

Lemma range_length a b : length (range a b) = Z.to_nat (b - a).
Proof. unfold range. by rewrite length_fmap, length_seq. Qed.

Lemma range_cons a b : a < b -> range a b = a :: range (a + 1) b.
Proof.
  intros Hlt. unfold range.
  replace (Z.to_nat (b - a)) with (S (Z.to_nat (b - (a + 1)))) by lia.
  cbn [seq fmap list_fmap]. f_equal; [lia|].
  rewrite <- fmap_S_seq, <- list_fmap_compose. apply list_fmap_ext. intros i x _. simpl. lia.
Qed.

Section SplitProperties.
Context `{Collaborators}.

Lemma splitCell_cols_steps g cellNode (r : TableRect) attrs row pos cols tr lastCell tr' last' :
  (forall col, col ∈ cols -> exists a,
     arrayGetAttrs attrs (col - left (rect r)) = Some a /\ colspan a = 1 /\ rowspan a = 1) ->
  splitCell_cols g cellNode r attrs row pos cols tr lastCell = Ok (tr', last') ->
  exists ins,
    steps tr' = steps tr ++ ins
    /\ Forall insertsSingle ins
    /\ length ins
       = length (filter (fun col => ~ (col = left (rect r) /\ row = top (rect r))) cols)
    /\ tr_selection tr' = tr_selection tr.
Proof.
  revert tr lastCell. induction cols as [|col cols IH]; intros tr lastCell Hattrs Hloop;
    simpl in Hloop.
  - injection Hloop as <- <-. exists []. rewrite app_nil_r. by repeat split.
  - assert (Hrest : forall c, c ∈ cols -> exists a,
              arrayGetAttrs attrs (c - left (rect r)) = Some a /\ colspan a = 1 /\ rowspan a = 1)
      by (intros c Hc; apply Hattrs; by apply list_elem_of_further).
    destruct ((col =? left (rect r)) && (row =? top (rect r))) eqn:Hskip.
    + destruct (IH _ _ Hrest Hloop) as (ins & Hsteps & Hins & Hlen & Hsel).
      exists ins. split; [done|]. split; [done|]. split; [|done].
      rewrite filter_cons_False; [done|]. apply andb_true_iff in Hskip as [H1 H2].
      intros Hn. apply Hn. lia.
    + destruct (g cellNode row col) as [ty|] eqn:Hty; simpl in Hloop; [|discriminate].
      destruct (Hattrs col ltac:(apply list_elem_of_here)) as (a & Ha & Hc & Hr).
      rewrite Ha in Hloop.
      destruct (createAndFill ty (Some a)) as [node|] eqn:Hnode; simpl in Hloop;
        [|discriminate].
      destruct (IH _ _ Hrest Hloop) as (ins & Hsteps & Hins & Hlen & Hsel).
      eexists (_ :: ins). split; [simpl in Hsteps; by rewrite Hsteps, <- app_assoc|].
      split; [constructor; [by eexists _, node, ty, a | done]|]. split; [|done].
      rewrite filter_cons_True; [simpl; by rewrite Hlen|].
      apply andb_false_iff in Hskip. lia.
Qed.

Lemma filter_not_first (P : Z -> Prop) `{forall x, Decision (P x)} (l : list Z) :
  (forall x, x ∈ l -> P x) -> filter P l = l.
Proof.
  induction l as [|x xs IH]; intros Hall; [done|].
  rewrite filter_cons_True by (apply Hall, list_elem_of_here).
  rewrite IH; [done|]. intros y Hy. by apply Hall, list_elem_of_further.
Qed.

Lemma filter_nothing (P : Z -> Prop) `{forall x, Decision (P x)} (l : list Z) :
  (forall x, x ∈ l -> ~ P x) -> filter P l = [].
Proof.
  induction l as [|x xs IH]; intros Hall; [done|].
  rewrite filter_cons_False by (apply Hall, list_elem_of_here).
  apply IH. intros y Hy. by apply Hall, list_elem_of_further.
Qed.

Lemma splitCell_cols_count (r : TableRect) row :
  left (rect r) < right (rect r) ->
  Z.of_nat (length (filter (fun col => ~ (col = left (rect r) /\ row = top (rect r)))
                      (range (left (rect r)) (right (rect r)))))
  = right (rect r) - left (rect r) - (if row =? top (rect r) then 1 else 0).
Proof.
  intros Hlt. destruct (Z.eqb_spec row (top (rect r))) as [->|Hne].
  - rewrite range_cons by done. rewrite filter_cons_False by (intros Hn; by apply Hn).
    rewrite filter_not_first; [rewrite range_length; lia|].
    intros x Hx. apply elem_of_range in Hx. lia.
  - rewrite filter_not_first; [rewrite range_length; lia|]. intros x _. lia.
Qed.

Lemma splitCell_rows_steps g cellNode (r : TableRect) attrs rows tr lastCell tr' last' :
  left (rect r) < right (rect r) ->
  (forall col, left (rect r) <= col < right (rect r) -> exists a,
     arrayGetAttrs attrs (col - left (rect r)) = Some a /\ colspan a = 1 /\ rowspan a = 1) ->
  splitCell_rows g cellNode r attrs rows tr lastCell = Ok (tr', last') ->
  exists ins,
    steps tr' = steps tr ++ ins
    /\ Forall insertsSingle ins
    /\ Z.of_nat (length ins)
       = Z.of_nat (length rows) * (right (rect r) - left (rect r))
         - Z.of_nat (length (filter (fun row => row = top (rect r)) rows))
    /\ tr_selection tr' = tr_selection tr.
Proof.
  intros Hlt Hattrs. revert tr lastCell.
  induction rows as [|row rows IH]; intros tr lastCell Hloop; simpl in Hloop.
  - injection Hloop as <- <-. exists []. rewrite app_nil_r.
    repeat split; (done || (simpl; lia)).
  - destruct (positionAt _ _ _ _) as [pos| |]; simpl in Hloop; try discriminate.
    destruct (splitCell_cols _ _ _ _ _ _ _ _ _) as [[tr1 last1]| |] eqn:Hcols;
      simpl in Hloop; try discriminate.
    apply splitCell_cols_steps in Hcols as (ins1 & Hsteps1 & Hins1 & Hlen1 & Hsel1);
      [|intros col Hcol; apply Hattrs; by apply elem_of_range].
    destruct (IH _ _ Hloop) as (ins2 & Hsteps2 & Hins2 & Hlen2 & Hsel2).
    exists (ins1 ++ ins2). split; [by rewrite Hsteps2, Hsteps1, <- app_assoc|].
    split; [by apply Forall_app|]. split; [|congruence].
    rewrite length_app, Nat2Z.inj_add, Hlen2, Hlen1, splitCell_cols_count by done.
    cbn [length]. destruct (Z.eqb_spec row (top (rect r))).
    + rewrite filter_cons_True by done. cbn [length]. lia.
    + rewrite filter_cons_False by done. lia.
Qed.

(** X16: when [splitCellWithType] dispatches for a cell with spans of
    at least one and a rectangle with columns and rows, its transaction
    holds one insertion for every slot of the rectangle but the first,
    each of a cell created with colspan 1 and rowspan 1, and then one
    markup change that gives the split cell itself colspan 1 and
    rowspan 1 and the type chosen for the first slot. *)
Theorem splitCell_single_cells (getCellType : Node -> Z -> Z -> option NodeType)
    (st : EditorState) (r : TableRect) (cellNode : Node) (cellPos : Z) (tr : Transaction) :
  splitTarget st = Ok (Some (cellNode, cellPos)) ->
  selectedRect st = Ok r ->
  1 <= colspan (nodeAttrs cellNode) -> 1 <= rowspan (nodeAttrs cellNode) ->
  left (rect r) < right (rect r) -> top (rect r) < bottom (rect r) ->
  splitCellWithType getCellType st true = Ok (true, Some tr) ->
  exists inserts attrs,
    steps tr
    = inserts ++ [StepSetNodeMarkup cellPos
                    (getCellType cellNode (top (rect r)) (left (rect r))) attrs]
    /\ Forall insertsSingle inserts
    /\ Z.of_nat (length inserts)
       = (right (rect r) - left (rect r)) * (bottom (rect r) - top (rect r)) - 1
    /\ colspan attrs = 1 /\ rowspan attrs = 1.
Proof.
  intros Htarget Hr Hcs Hrs Hcols Hrows Hsplit.
  unfold splitCellWithType, refuse, accept, dispatched in Hsplit.
  rewrite Htarget in Hsplit. simpl in Hsplit.
  destruct (_ && _); [discriminate|]. rewrite Hr in Hsplit. simpl in Hsplit.
  set (base1 := if 1 <? rowspan (nodeAttrs cellNode)
                then <["rowspan" := VNum 1]> (nodeAttrs cellNode) else nodeAttrs cellNode)
    in Hsplit.
  set (base := if 1 <? colspan base1 then <["colspan" := VNum 1]> base1 else base1) in Hsplit.
  set (attrsOf := fun i : Z =>
         if isArray (attr (nodeAttrs cellNode) "colwidth")
         then <["colwidth" := match truthyWidth (attr (nodeAttrs cellNode) "colwidth") i with
                              | Some w => VArr [w]
                              | None => VNull
                              end]> base
         else base) in Hsplit.
  assert (Hbase : colspan base = 1 /\ rowspan base = 1).
  { assert (H1 : colspan base1 = colspan (nodeAttrs cellNode) /\ rowspan base1 = 1).
    { unfold base1. destruct (Z.ltb_spec 1 (rowspan (nodeAttrs cellNode))).
      - unfold colspan, rowspan. rewrite attr_insert_ne by done. by rewrite attr_insert_eq.
      - split; [done | lia]. }
    destruct H1 as [H1 H2]. unfold base. destruct (Z.ltb_spec 1 (colspan base1)).
    - unfold colspan, rowspan. rewrite attr_insert_eq. rewrite attr_insert_ne by done.
      split; [done|]. exact H2.
    - split; [lia | done]. }
  assert (Hof : forall i, colspan (attrsOf i) = 1 /\ rowspan (attrsOf i) = 1).
  { intros i. unfold attrsOf. destruct (isArray _); [|done].
    unfold colspan, rowspan. rewrite !attr_insert_ne by done. exact Hbase. }
  assert (Hget : forall i, 0 <= i < right (rect r) - left (rect r) ->
            arrayGetAttrs (attrsOf <$> range 0 (right (rect r) - left (rect r))) i
            = Some (attrsOf i)).
  { intros i Hi. unfold arrayGetAttrs. destruct (Z.ltb_spec i 0); [lia|].
    rewrite list_lookup_fmap. replace (Z.to_nat i) with (Z.to_nat (i - 0)) by lia.
    rewrite range_lookup by lia. done. }
  destruct (splitCell_rows _ _ _ _ _ _ _) as [[tr1 last1]| |] eqn:Hloop;
    simpl in Hsplit; try discriminate.
  apply splitCell_rows_steps in Hloop as (ins & Hsteps & Hins & Hlen & Hsel); [|done|].
  2:{ intros col Hcol. exists (attrsOf (col - left (rect r))).
      split; [apply Hget; lia | apply Hof]. }
  simpl in Hsteps.
  exists ins, (attrsOf 0).
  assert (Hsteps' : steps tr
            = ins ++ [StepSetNodeMarkup cellPos
                        (getCellType cellNode (top (rect r)) (left (rect r))) (attrsOf 0)]).
  { rewrite (Hget 0) in Hsplit by lia. simpl in Hsplit.
    destruct (selection st); injection Hsplit as <-; simpl; by rewrite Hsteps. }
  split; [exact Hsteps'|]. split; [done|]. split; [|apply Hof].
  rewrite Hlen, range_length, (range_cons (top (rect r))) by done.
  rewrite filter_cons_True by done.
  rewrite filter_nothing by (intros x Hx; apply elem_of_range in Hx; lia).
  simpl. lia.
Qed.

End SplitProperties.


Lemma splitCell_single_cells_witness :
  exists tr inserts attrs,
    splitCell (cursor dSpan 5) true = Ok (true, Some tr)
    /\ steps tr = inserts ++ [StepSetNodeMarkup 3 (Some cellT) attrs]
    /\ Forall insertsSingle inserts
    /\ Z.of_nat (length inserts) = (2 - 0) * (1 - 0) - 1
    /\ colspan attrs = 1 /\ rowspan attrs = 1.
Proof.
  assert (E : exists tr, splitCell (cursor dSpan 5) true = Ok (true, Some tr))
    by (eexists; vm_compute; reflexivity).
  destruct E as [tr E]. exists tr.
  destruct (splitCell_single_cells (fun node _ _ => r ← role node; tableNodeTypes r)
              (cursor dSpan 5) (mkTableRect (mkRect 0 0 2 1) 1 (TableMap_get tSpan) tSpan)
              (tdSpan 2 1) 3 tr)
    as (inserts & attrs & Hn);
    [reflexivity | reflexivity | by vm_compute | by vm_compute | reflexivity | reflexivity
     | exact E |].
  exists inserts, attrs. split; [exact E | exact Hn].
Defined.

(** ** Header toggles by the first row and column *)

(** [cellsInRect] lists each cell once. *)
Lemma dedup_NoDup (seen l : list Z) :
  NoDup (dedup seen l) /\ forall x, x ∈ dedup seen l -> x ∉ seen.
Proof.
  revert seen. induction l as [|x l IH]; intros seen; simpl.
  - split; [constructor|]. intros x Hx. by apply elem_of_nil in Hx.
  - destruct (bool_decide_reflect (x ∈ seen)) as [Hin|Hnot]; [apply IH|].
    destruct (IH (x :: seen)) as [Hnd Hout]. split.
    + constructor; [|done]. intros Hx. apply (Hout x Hx). apply list_elem_of_here.
    + intros y Hy. apply elem_of_cons in Hy as [->|Hy]; [done|].
      intros Hs. apply (Hout y Hy). by apply list_elem_of_further.
Qed.

Lemma cellsInRect_NoDup (m : TableMap) (r : Rect) : NoDup (cellsInRect m r).
Proof. apply dedup_NoDup. Qed.

Section NewToggleProperties.
Context `{Collaborators}.

Lemma toggleHeader_cells_steps d newType ts cells tr tr' :
  toggleHeader_cells d newType ts cells tr = Ok tr' ->
  exists changed markups,
    steps tr' = steps tr ++ markups
    /\ changed `sublist_of` cells
    /\ Forall2 (fun p s => exists a, s = StepSetNodeMarkup (p + ts) newType a) changed markups
    /\ tr_selection tr' = tr_selection tr.
Proof.
  revert tr. induction cells as [|p cells IH]; intros tr Hloop; simpl in Hloop.
  - injection Hloop as <-. exists [], []. rewrite app_nil_r. by repeat split.
  - destruct (docAfter d (steps tr)) as [now| |]; simpl in Hloop; try discriminate.
    destruct (nodeAt now (p + ts)) as [cell| |]; simpl in Hloop; try discriminate.
    destruct (IH _ Hloop) as (changed & ms & Hsteps & Hsub & Hall & Hsel).
    destruct cell as [c|].
    + exists (p :: changed), (StepSetNodeMarkup (p + ts) newType (nodeAttrs c) :: ms).
      split; [simpl in Hsteps; by rewrite Hsteps, <- app_assoc|].
      split; [by apply sublist_skip|]. split; [|done].
      constructor; [by eexists | done].
    + exists changed, ms. split; [done|]. split; [by apply sublist_cons|]. by split.
Qed.

(** X17: with [useDeprecatedLogic] false, [toggleHeader] looks at the
    first row and the first column of the table. For a row toggle it
    rewrites cells of the first row only, from the second column on when
    the first column consists of header cells, to plain cells when the
    first row consists of header cells and to header cells otherwise;
    for a column toggle the same with rows and columns exchanged; for a
    cell toggle it rewrites cells of the selected rectangle to plain
    cells. Each cell gets at most one markup change: the steps are, one
    for one and in their order, the markup changes of a selection of the
    cells of that rectangle, each taken once. *)
Theorem toggleHeader_first_row_column (type : ToggleHeaderType) (st : EditorState)
    (r : TableRect) (tr : Transaction) :
  isInTable st = Ok true ->
  selectedRect st = Ok r ->
  toggleHeader type false st true = Ok (true, Some tr) ->
  exists rowOn colOn changed,
    isHeaderEnabledByType true r = Ok rowOn
    /\ isHeaderEnabledByType false r = Ok colOn
    /\ changed `sublist_of` cellsInRect (tmap r) (toggledRect type rowOn colOn r)
    /\ NoDup changed
    /\ Forall2 (fun p s => exists a,
                  s = StepSetNodeMarkup (p + tableStart r) (toggledType type rowOn colOn) a)
         changed (steps tr)
    /\ tr_selection tr = None.
Proof.
  intros Hin Hr Htoggle. unfold toggleHeader, refuse, accept, dispatched in Htoggle.
  rewrite Hin, Hr in Htoggle. simpl in Htoggle.
  destruct (isHeaderEnabledByType true r) as [rowOn| |]; simpl in Htoggle; try discriminate.
  destruct (isHeaderEnabledByType false r) as [colOn| |]; simpl in Htoggle; try discriminate.
  destruct (toggleHeader_cells _ _ _ _ _) as [tr1| |] eqn:Hloop; simpl in Htoggle;
    try discriminate.
  injection Htoggle as <-. exists rowOn, colOn.
  cut (exists changed,
         changed `sublist_of` cellsInRect (tmap r) (toggledRect type rowOn colOn r)
         /\ NoDup changed
         /\ Forall2 (fun p s => exists a,
                       s = StepSetNodeMarkup (p + tableStart r)
                             (toggledType type rowOn colOn) a)
              changed (steps tr1)
         /\ tr_selection tr1 = None).
  { intros (changed & Hn). exists changed. split; [done|]. split; [done|]. exact Hn. }
  assert (Hrect : match type with
                  | ToggleColumn => mkRect 0 (if rowOn then 1 else 0) 1 (height (tmap r))
                  | ToggleRow => mkRect (if colOn then 1 else 0) 0 (width (tmap r)) 1
                  | ToggleCell => rect r
                  end = toggledRect type rowOn colOn r) by done.
  assert (Htype : match type with
                  | ToggleColumn =>
                      if colOn then tableNodeTypes Rcell else tableNodeTypes Rheader_cell
                  | ToggleRow =>
                      if rowOn then tableNodeTypes Rcell else tableNodeTypes Rheader_cell
                  | ToggleCell => tableNodeTypes Rcell
                  end = toggledType type rowOn colOn) by done.
  assert (Hloop' : toggleHeader_cells (doc st) (toggledType type rowOn colOn) (tableStart r)
                     (cellsInRect (tmap r) (toggledRect type rowOn colOn r)) emptyTr = Ok tr1).
  { rewrite <- Hrect, <- Htype, <- Hloop. by destruct type, rowOn, colOn. }
  destruct (toggleHeader_cells_steps _ _ _ _ _ _ Hloop')
    as (changed & ms & Hsteps & Hsub & Hall & Hsel).
  simpl in Hsteps. rewrite Hsteps. exists changed. split; [done|].
  split; [exact (sublist_NoDup _ _ (cellsInRect_NoDup _ _) Hsub)|]. by split.
Qed.

End NewToggleProperties.

(** In the sample the first row holds a header cell and a plain cell
    and the first column a header cell and a plain cell: the row toggle
    makes both cells of the first row header cells. *)
Lemma toggleHeader_first_row_column_witness :
  exists tr rowOn colOn changed,
    toggleHeader ToggleRow false (cursor dHead1 8) true = Ok (true, Some tr)
    /\ isHeaderEnabledByType true rHead1 = Ok rowOn
    /\ isHeaderEnabledByType false rHead1 = Ok colOn
    /\ changed `sublist_of` cellsInRect (tmap rHead1) (toggledRect ToggleRow rowOn colOn rHead1)
    /\ NoDup changed
    /\ Forall2 (fun p s => exists a,
                  s = StepSetNodeMarkup (p + tableStart rHead1)
                        (toggledType ToggleRow rowOn colOn) a)
         changed (steps tr)
    /\ tr_selection tr = None.
Proof.
  assert (E : exists tr, toggleHeader ToggleRow false (cursor dHead1 8) true
                         = Ok (true, Some tr))
    by (eexists; vm_compute; reflexivity).
  destruct E as [tr E]. exists tr.
  destruct (toggleHeader_first_row_column ToggleRow (cursor dHead1 8) rHead1 tr eq_refl eq_refl E)
    as (rowOn & colOn & changed & Hn).
  exists rowOn, colOn, changed. split; [exact E | exact Hn].
Defined.

(** ** Deleting the table *)

Lemma rp_before_returns (p : ResolvedPos) (d : nat) :
  (0 < d)%nat -> Z.of_nat d <= rp_depth p ->
  exists e, pathEntry p (Z.of_nat d - 1) = Some e /\ rp_before p (Z.of_nat d) = Ok e.2.
Proof.
  intros Hd Hle. unfold rp_before, resolveDepth.
  destruct (Z.ltb_spec (Z.of_nat d) 0); [lia|].
  destruct (Z.eqb_spec (Z.of_nat d) 0); [lia|].
  destruct (Z.eqb_spec (Z.of_nat d) (rp_depth p + 1)); [lia|].
  unfold pathEntry, rp_depth in *. destruct (Z.ltb_spec (Z.of_nat d - 1) 0); [lia|].
  destruct (lookup_lt_is_Some_2 (rp_path p) (Z.to_nat (Z.of_nat d - 1)) ltac:(lia)) as [e He].
  rewrite He. by exists e.
Qed.

Lemma rp_after_returns (p : ResolvedPos) (d : nat) (n : Node) (e : Node * Z * Z) :
  (0 < d)%nat -> Z.of_nat d <= rp_depth p ->
  rp_node p (Z.of_nat d) = Some n -> pathEntry p (Z.of_nat d - 1) = Some e ->
  rp_after p (Z.of_nat d) = Ok (e.2 + nodeSize n).
Proof.
  intros Hd Hle Hn He. unfold rp_after, rp_node, resolveDepth in *.
  destruct (Z.ltb_spec (Z.of_nat d) 0); [lia|].
  destruct (Z.eqb_spec (Z.of_nat d) 0); [lia|].
  destruct (Z.eqb_spec (Z.of_nat d) (rp_depth p + 1)); [lia|].
  rewrite He. simpl. rewrite Hn. done.
Qed.

(** X18: [deleteTable] never raises and gives the same boolean with
    and without a dispatch callback. It returns true exactly when an
    ancestor of the anchor below the top node has the table role; with a
    callback it then dispatches one step, scrolled into view, that
    deletes the innermost such ancestor from the position before it to
    the position after it. *)
Theorem deleteTable_innermost (st : EditorState) :
  let pos := sel_anchor (selection st) in
  (exists (d : nat) t before,
     (0 < d)%nat /\ Z.of_nat d <= rp_depth pos
     /\ rp_node pos (Z.of_nat d) = Some t /\ role t = Some Rtable
     /\ (forall d' t', (d < d')%nat -> Z.of_nat d' <= rp_depth pos ->
           rp_node pos (Z.of_nat d') = Some t' -> role t' <> Some Rtable)
     /\ rp_before pos (Z.of_nat d) = Ok before
     /\ deleteTable st false = Ok (true, None)
     /\ deleteTable st true
        = Ok (true, Some (mkTransaction [StepDelete before (before + nodeSize t)] None true)))
  \/ ((forall (d : nat) t, (0 < d)%nat -> Z.of_nat d <= rp_depth pos ->
         rp_node pos (Z.of_nat d) = Some t -> role t <> Some Rtable)
      /\ forall dispatch, deleteTable st dispatch = Ok (false, None)).
Proof.
  intros pos. unfold deleteTable. fold pos.
  assert (Hgen : forall k : nat, (k <= Z.to_nat (rp_depth pos))%nat ->
    (exists (d : nat) t before,
       (0 < d)%nat /\ (d <= k)%nat
       /\ rp_node pos (Z.of_nat d) = Some t /\ role t = Some Rtable
       /\ (forall d' t', (d < d')%nat -> (d' <= k)%nat ->
             rp_node pos (Z.of_nat d') = Some t' -> role t' <> Some Rtable)
       /\ rp_before pos (Z.of_nat d) = Ok before
       /\ deleteTable_loop pos false k = Ok (true, None)
       /\ deleteTable_loop pos true k
          = Ok (true, Some (mkTransaction [StepDelete before (before + nodeSize t)] None true)))
    \/ ((forall (d : nat) t, (0 < d)%nat -> (d <= k)%nat ->
           rp_node pos (Z.of_nat d) = Some t -> role t <> Some Rtable)
        /\ forall dispatch, deleteTable_loop pos dispatch k = Ok (false, None))).
  { induction k as [|k IH]; intros Hk.
    - right. split; [intros d t Hd Hle; lia | done].
    - assert (Hnode : exists t, rp_node pos (Z.of_nat (S k)) = Some t).
      { unfold rp_node, resolveDepth, pathEntry, rp_depth in *.
        destruct (Z.ltb_spec (Z.of_nat (S k)) 0); [lia|]. rewrite Nat2Z.id.
        destruct (lookup_lt_is_Some_2 (rp_path pos) (S k) ltac:(lia)) as [e He].
        rewrite He. by eexists. }
      destruct Hnode as [t Ht]. cbn [deleteTable_loop]. unfold roleAt. rewrite Ht. simpl.
      unfold isRole. destruct (bool_decide_reflect (role t = Some Rtable)) as [Hrole|Hrole].
      + left. destruct (rp_before_returns pos (S k) ltac:(lia) ltac:(lia)) as (e & He & Hb).
        exists (S k), t, e.2. split; [lia|]. split; [lia|]. split; [done|]. split; [done|].
        split; [intros d' t' Hd' Hle; lia|]. split; [done|]. split; [done|].
        rewrite Hb. simpl. rewrite (rp_after_returns pos (S k) t e) by (done || lia). done.
      + destruct (IH ltac:(lia))
          as [(d & t0 & before & Hd & Hle & Hn & Hr & Hinner & Hb & Hf & Ht0) | [Hnone Hall]].
        * left. exists d, t0, before. split; [done|]. split; [lia|]. split; [done|].
          split; [done|]. split; [|done].
          intros d' t' Hd' Hle' Hn'. destruct (decide (d' = S k)) as [->|Hne].
          -- rewrite Ht in Hn'. by injection Hn' as <-.
          -- apply (Hinner d' t'); (done || lia).
        * right. split; [|done]. intros d t' Hd Hle Hn.
          destruct (decide (d = S k)) as [->|Hne].
          -- rewrite Ht in Hn. by injection Hn as <-.
          -- apply (Hnone d t'); (done || lia). }
  destruct (Hgen (Z.to_nat (rp_depth pos)) ltac:(lia))
    as [(d & t & before & Hd & Hle & Hn & Hr & Hinner & Hb & Hf & Ht) | [Hnone Hall]].
  - left. exists d, t, before. split; [done|]. split; [lia|]. split; [done|]. split; [done|].
    split; [|done]. intros d' t' Hd' Hle'. apply Hinner; (done || lia).
  - right. split; [|done]. intros d t Hd Hle. apply Hnone; (done || lia).
Qed.


(** ** Removing a row *)

Section RemoveRowProperties.
Context `{Collaborators}.

Lemma removeRow_loop_steps (r : TableRect) (row : Z) (mapFrom : nat) :
  forall (fuel : nat) (tr : Transaction) (col index : Z) (tr' : Transaction),
    removeRow_loop fuel tr r row mapFrom col index = Ok tr' ->
    exists rest, steps tr' = steps tr ++ rest
      /\ Forall (fun s => isMarkup s \/ isInsert s) rest.
Proof.
  induction fuel as [|fuel IH]; intros tr col index tr' Hloop; cbn [removeRow_loop] in Hloop.
  - destruct (width (tmap r) <=? col); [|discriminate].
    injection Hloop as <-. exists []. by rewrite app_nil_r.
  - destruct (width (tmap r) <=? col).
    { injection Hloop as <-. exists []. by rewrite app_nil_r. }
    destruct ((0 <? row) && _).
    + destruct (cellAtSlot _ _ _) as [cell| |]; simpl in Hloop; try discriminate.
      destruct (slot (tmap r) index) as [p|]; simpl in Hloop; try discriminate.
      destruct (IH _ _ _ _ Hloop) as (rest & Hsteps & Hrest).
      eexists (_ :: rest). split; [simpl in Hsteps; by rewrite Hsteps, <- app_assoc|].
      constructor; [by left | done].
    + destruct ((row <? height (tmap r)) && _).
      * destruct (cellAtSlot _ _ _) as [cell| |]; simpl in Hloop; try discriminate.
        destruct (positionAt _ _ _ _) as [newPos| |]; simpl in Hloop; try discriminate.
        destruct (IH _ _ _ _ Hloop) as (rest & Hsteps & Hrest).
        eexists (_ :: rest). split; [simpl in Hsteps; by rewrite Hsteps, <- app_assoc|].
        constructor; [by right | done].
      * by apply (IH _ _ _ _ Hloop).
Qed.

(** X19: in a table whose sections all hold rows, [removeRow] raises a
    type error for a row number that is not below the row count or is
    negative, the row node being null; for a row of the table, when it
    returns, it has queued first the deletion that starts before the row
    and ends before its closing token, and after it markup changes and
    insertions only. *)
Theorem removeRow_deletes_row (tr : Transaction) (r : TableRect) (row : Z) :
  rowsInEverySection (table r) ->
  (~ 0 <= row < rowsCount (table r) -> removeRow tr r row = Throw (TypeError "null"))
  /\ (0 <= row < rowsCount (table r) ->
      exists rNode,
        tableRows (table r) !! Z.to_nat row = Some rNode
        /\ forall tr', removeRow tr r row = Ok tr' ->
             exists rest,
               steps tr'
               = steps tr
                 ++ StepDelete (rowPos (table r) row 0 + tableStart r)
                      (rowPos (table r) row 0 + tableStart r + nodeSize rNode - 1) :: rest
               /\ Forall (fun s => isMarkup s \/ isInsert s) rest).
Proof.
  intros Hne. split.
  - intros Hout. unfold removeRow, getRow.
    rewrite getRow_loop_outside by (done || rewrite <- rowsCount_rowsOf; lia). done.
  - intros Hrow. rewrite rowsCount_rowsOf in Hrow.
    destruct (rowAt_exists (children (table r)) row Hrow) as (rNode & p & Hat).
    exists rNode. split; [by apply (rowAt_lookup _ _ _ p)|].
    destruct (getRow_loop_rowAt (children (table r)) row rNode p 0 0 (-1) Hne) as [Hn Hp].
    { by rewrite Z.sub_0_r. }
    intros tr' Hremove. unfold removeRow, rowPos, getRow in *. rewrite Hn in Hremove.
    simpl in Hremove.
    destruct (removeRow_loop_steps _ _ _ _ _ _ _ _ Hremove) as (rest & Hsteps & Hrest).
    exists rest. split; [|done]. simpl in Hsteps. by rewrite Hsteps, <- app_assoc.
Qed.

End RemoveRowProperties.

Lemma removeRow_deletes_row_witness :
  exists rNode,
    removeRow emptyTr r22 5 = Throw (TypeError "null")
    /\ tableRows (table r22) !! Z.to_nat 1 = Some rNode
    /\ forall tr', removeRow emptyTr r22 1 = Ok tr' ->
         exists rest,
           steps tr'
           = steps emptyTr
             ++ StepDelete (rowPos (table r22) 1 0 + tableStart r22)
                  (rowPos (table r22) 1 0 + tableStart r22 + nodeSize rNode - 1) :: rest
           /\ Forall (fun s => isMarkup s \/ isInsert s) rest.
Proof.
  assert (Hne : rowsInEverySection (table r22)) by (repeat constructor; intros _; reflexivity).
  destruct (removeRow_deletes_row emptyTr r22 5 Hne) as [Hout _].
  destruct (removeRow_deletes_row emptyTr r22 1 Hne) as [_ Hin].
  destruct Hin as (rNode & Hn); [change (rowsCount (table r22)) with 2; lia|].
  exists rNode. split; [|exact Hn].
  apply Hout. change (rowsCount (table r22)) with 2. lia.
Defined.

(** ** Commands without a dispatch callback *)

Lemma isInTable_loop_inRow (p : ResolvedPos) (k : nat) :
  (k <= Z.to_nat (rp_depth p))%nat ->
  exists b, isInTable_loop p k = Ok b
    /\ (b = true <-> exists (d : nat) n,
          (0 < d)%nat /\ (d <= k)%nat /\ rp_node p (Z.of_nat d) = Some n
          /\ role n = Some Rrow).
Proof.
  induction k as [|k IH]; intros Hk.
  - exists false. split; [done|]. split; [done|]. intros (d & n & Hd & Hle & _). lia.
  - assert (Hnode : exists t, rp_node p (Z.of_nat (S k)) = Some t).
    { unfold rp_node, resolveDepth, pathEntry, rp_depth in *.
      destruct (Z.ltb_spec (Z.of_nat (S k)) 0); [lia|]. rewrite Nat2Z.id.
      destruct (lookup_lt_is_Some_2 (rp_path p) (S k) ltac:(lia)) as [e He].
      rewrite He. by eexists. }
    destruct Hnode as [t Ht]. cbn [isInTable_loop]. unfold roleAt. rewrite Ht. simpl.
    unfold isRole. destruct (bool_decide_reflect (role t = Some Rrow)) as [Hrole|Hrole].
    + exists true. split; [done|]. split; [|done]. intros _. exists (S k), t.
      repeat split; (done || lia).
    + destruct (IH ltac:(lia)) as (b & Hb & Hiff). exists b. split; [done|].
      rewrite Hiff. split.
      * intros (d & n & Hd & Hle & Hn & Hr). exists d, n. repeat split; (done || lia).
      * intros (d & n & Hd & Hle & Hn & Hr). destruct (decide (d = S k)) as [->|Hne].
        -- rewrite Ht in Hn. injection Hn as <-. done.
        -- exists d, n. repeat split; (done || lia).
Qed.

Section AvailabilityProperties.
Context `{Collaborators}.

(** X20: [isInTable] never raises and is true exactly when the head of
    the selection lies inside a row; without a dispatch callback the
    commands that add a column or a row, delete columns or rows, or
    toggle header cells return that boolean and build no transaction,
    whatever the selected rectangle. *)
Theorem commands_available (st : EditorState) :
  exists b, isInTable st = Ok b
    /\ (b = true <-> inRow (sel_head (selection st)))
    /\ Forall (fun command => command st false = Ok (b, None)) tableCommands.
Proof.
  destruct (isInTable_loop_inRow (sel_head (selection st))
              (Z.to_nat (rp_depth (sel_head (selection st)))) ltac:(lia)) as (b & Hb & Hiff).
  exists b. split; [exact Hb|]. split.
  - rewrite Hiff. unfold inRow. split.
    + intros (d & n & Hd & Hle & Hn & Hr). exists d, n. repeat split; (done || lia).
    + intros (d & n & Hd & Hle & Hn & Hr). exists d, n. repeat split; (done || lia).
  - unfold tableCommands, addColumnBefore, addColumnAfter, addRowBefore, addRowAfter,
      deleteColumn, deleteRow, toggleHeaderRow, toggleHeaderColumn, toggleHeaderCell,
      toggleHeader, deprecated_toggleHeader.
    fold (isInTable st) in Hb.
    repeat constructor; rewrite Hb; simpl; by destruct b.
Qed.

End AvailabilityProperties.


(** ** The cells of a new row *)

Section NewRowProperties.
Context `{Collaborators}.

Lemma addRow_loop_cells (r : TableRect) (row : Z) (refRow : option Z) :
  noSpanAcross (tmap r) row ->
  forall (fuel : nat) (tr : Transaction) (col : Z) (cells : list Node) tr' cells',
    0 <= col ->
    addRow_loop fuel tr r row refRow col (width (tmap r) * row + col) cells = Ok (tr', cells') ->
    tr' = tr
    /\ exists created,
         cells' = cells ++ omap id created
         /\ Forall2 (fun c o => newRowCell r ((fun ref => row + ref) <$> refRow) c = Ok o)
              (range col (width (tmap r))) created.
Proof.
  intros Hno fuel. induction fuel as [|fuel IH]; intros tr col cells tr' cells' Hcol Hloop;
    cbn [addRow_loop] in Hloop.
  - destruct (Z.leb_spec (width (tmap r)) col); [|discriminate].
    injection Hloop as <- <-. split; [done|]. exists []. rewrite app_nil_r. split; [done|].
    unfold range. replace (Z.to_nat (width (tmap r) - col)) with 0%nat by lia. constructor.
  - destruct (Z.leb_spec (width (tmap r)) col).
    { injection Hloop as <- <-. split; [done|]. exists []. rewrite app_nil_r. split; [done|].
      unfold range. replace (Z.to_nat (width (tmap r) - col)) with 0%nat by lia. constructor. }
    pose proof (Hno col ltac:(lia)) as Hcov. unfold coveredFromAbove in Hcov.
    rewrite Hcov in Hloop.
    set (type := match refRow with Some ref => _ | None => _ end) in Hloop.
    destruct type as [ty| |] eqn:Hty; simpl in Hloop; try discriminate.
    replace (width (tmap r) * row + col + 1) with (width (tmap r) * row + (col + 1))
      in Hloop by lia.
    apply IH in Hloop as [-> (created & -> & Hall)]; [|lia].
    split; [done|].
    exists ((t ← ty; createAndFill t None) :: created). split.
    + simpl. destruct (ty ≫= _); simpl; [by rewrite <- app_assoc | done].
    + rewrite range_cons by lia. constructor; [|done].
      unfold newRowCell. subst type. destruct refRow as [ref|]; simpl in *.
      * replace (width (tmap r) * (row + ref) + col)
          with (width (tmap r) * row + col + ref * width (tmap r)) by lia.
        destruct (nodeAtSlot _ _) as [o| |]; simpl in *; try discriminate.
        by injection Hty as <-.
      * by injection Hty as <-.
Qed.

(** X21: when no cell continues from the row above into the insertion
    row, [addRow], when it returns, has queued one step, the insertion
    at its insertion point of a row that holds, column by column, one
    new cell whose type is chosen as follows. The neighbour row is the
    row above when row > 0, else row 0. If it does not consist entirely
    of header cells, the type is that of the neighbour's cell in the
    column. If it does and the insertion is at a boundary (row = 0 or
    row = height), the type is the plain cell type. If it does and the
    insertion is interior, the type is that of the cell of the column in
    the row at the insertion index, the row below. A column for which no
    type or no cell is found gets no cell. *)
Theorem addRow_new_cells (tr : Transaction) (r : TableRect) (row : Z)
    (tr' : Transaction) (m' : TableMap) :
  noSpanAcross (tmap r) row ->
  addRow tr r row = Ok (tr', m') ->
  exists hdr rowType created,
    rowIsHeader (tmap r) (table r) (neighbourRow row) = Ok hdr
    /\ tableNodeTypes Rrow = Some rowType
    /\ Forall2 (fun col o =>
                  newRowCell r (inheritedRow hdr row (height (tmap r))) col = Ok o)
         (range 0 (width (tmap r))) created
    /\ steps tr'
       = steps tr ++ [StepInsert (addRow_pos r row)
                        (Elem rowType (defaultAttrs rowType) (omap id created))].
Proof.
  intros Hno Hadd. unfold addRow, addRow_refRow in Hadd.
  replace (row + (if 0 <? row then -1 else 0)) with (neighbourRow row) in Hadd
    by (unfold neighbourRow; destruct (0 <? row); lia).
  destruct (rowIsHeader _ _ _) as [hdr| |] eqn:Hhdr; simpl in Hadd; try discriminate.
  set (refRow := if hdr then _ else _) in Hadd.
  assert (Href : exists ref, refRow = Ok ref
            /\ (fun x => row + x) <$> ref = inheritedRow hdr row (height (tmap r))).
  { subst refRow. unfold inheritedRow, neighbourRow. destruct hdr.
    - eexists. split; [done|]. destruct (_ || _); simpl; f_equal; lia.
    - eexists. split; [done|]. destruct (0 <? row); simpl; f_equal; lia. }
  destruct Href as (ref & -> & Hsource). simpl in Hadd.
  destruct (addRow_loop _ _ _ _ _ _ _ _) as [[tr1 cells]| |] eqn:Hloop; simpl in Hadd;
    try discriminate.
  replace (width (tmap r) * row) with (width (tmap r) * row + 0) in Hloop by lia.
  apply (addRow_loop_cells r row ref Hno) in Hloop as [-> (created & -> & Hall)]; [|lia].
  destruct (tableNodeTypes Rrow) as [rowType|]; simpl in Hadd; [|discriminate].
  injection Hadd as <- _. exists hdr, rowType, created. split; [done|]. split; [done|].
  split; [by rewrite <- Hsource|]. done.
Qed.

End NewRowProperties.

(** In the sample a row is added before the first row of the table of a
    header cell and a plain cell over two plain cells: the first row is
    no row of header cells, and the new cells take the types of its
    cells. *)
Lemma addRow_new_cells_witness :
  exists tr' m' hdr rowType created,
    addRow emptyTr rHead1 0 = Ok (tr', m')
    /\ rowIsHeader (tmap rHead1) (table rHead1) (neighbourRow 0) = Ok hdr
    /\ tableNodeTypes Rrow = Some rowType
    /\ Forall2 (fun col o =>
                  newRowCell rHead1 (inheritedRow hdr 0 (height (tmap rHead1))) col = Ok o)
         (range 0 (width (tmap rHead1))) created
    /\ steps tr'
       = steps emptyTr ++ [StepInsert (addRow_pos rHead1 0)
                             (Elem rowType (defaultAttrs rowType) (omap id created))]
    /\ omap id created = [th; td].
Proof.
  assert (E : exists tr' m', addRow emptyTr rHead1 0 = Ok (tr', m'))
    by (eexists _, _; vm_compute; reflexivity).
  destruct E as (tr' & m' & E). exists tr', m'.
  assert (Hno : noSpanAcross (tmap rHead1) 0) by (intros col _; reflexivity).
  destruct (addRow_new_cells emptyTr rHead1 0 tr' m' Hno E)
    as (hdr & rowType & created & Hhdr & Hrow & Hall & Hsteps).
  exists hdr, rowType, created. split; [exact E|]. split; [exact Hhdr|].
  split; [exact Hrow|]. split; [exact Hall|]. split; [exact Hsteps|].
  vm_compute in E. injection E as <- _. simpl in Hsteps.
  injection Hsteps as _ _ Hcells. by rewrite <- Hcells.
Defined.


(** ** Resolved positions *)

Lemma resolve_path_Elem t a c start po :
  resolve_path (Elem t a c) start po = resolve_children (Elem t a c) start po c 0 0.
Proof.
  cbn [resolve_path].
  match goal with
  | |- ?f c 0 0 = _ =>
      enough (Hgen : forall l i cp, f l i cp = resolve_children (Elem t a c) start po l i cp)
        by apply Hgen
  end.
  induction l as [|x xs IH]; intros i cp; [done|].
  cbn [resolve_children]. rewrite <- IH. done.
Qed.

(** At the position before a child, or at the end, the walk stops. *)
Lemma resolve_children_boundary n start pre post i curPos :
  Forall (fun c => wellSized c = true) (pre ++ post) ->
  (resolve_children n start (curPos + fragmentSize pre) (pre ++ post) i curPos).1
  = [(n, i + Z.of_nat (length pre), start + (curPos + fragmentSize pre))].
Proof.
  revert i curPos. induction pre as [|x pre IH]; intros i curPos Hw.
  - cbn [app fragmentSize length]. rewrite !Z.add_0_r.
    destruct post as [|y post]; [done|]. cbn [resolve_children].
    apply Forall_cons in Hw as [Hy _]. pose proof (wellSized_size y Hy).
    destruct (Z.leb_spec curPos (curPos + nodeSize y)); [|lia].
    destruct (Z.eqb_spec (curPos + nodeSize y) curPos); [lia|].
    by rewrite Z.eqb_refl.
  - cbn [app fragmentSize length resolve_children]. apply Forall_cons in Hw as [Hx Hw].
    pose proof (wellSized_size x Hx).
    assert (Hpre : 0 <= fragmentSize pre).
    { apply fragmentSize_nonneg. by apply Forall_app in Hw as [Hpre _]. }
    destruct (Z.leb_spec (curPos + (nodeSize x + fragmentSize pre)) (curPos + nodeSize x)).
    + assert (Hzero : fragmentSize pre = 0) by lia.
      destruct pre as [|y pre].
      * destruct (Z.eqb_spec (curPos + nodeSize x) (curPos + (nodeSize x + fragmentSize [])));
          [|simpl in *; lia].
        simpl. repeat (f_equal; try lia).
      * apply Forall_cons in Hw as [Hy Hw]. pose proof (wellSized_size y Hy).
        apply Forall_app in Hw as [Hw _]. pose proof (fragmentSize_nonneg _ Hw).
        simpl in Hzero. lia.
    + replace (curPos + (nodeSize x + fragmentSize pre))
        with ((curPos + nodeSize x) + fragmentSize pre) by lia.
      rewrite IH by done. repeat (f_equal; try lia).
Qed.

(** Strictly inside a child that is an element, the walk goes down. *)
Lemma resolve_children_inside n start pre t a c post i curPos q :
  Forall (fun x => wellSized x = true) pre ->
  0 < q < nodeSize (Elem t a c) ->
  resolve_children n start (curPos + fragmentSize pre + q) (pre ++ Elem t a c :: post) i curPos
  = let '(p, po) := resolve_path (Elem t a c) (start + (curPos + fragmentSize pre) + 1) (q - 1) in
    ((n, i + Z.of_nat (length pre), start + (curPos + fragmentSize pre)) :: p, po).
Proof.
  intros Hw Hq. revert i curPos. induction Hw as [|x pre Hx Hw IH]; intros i curPos.
  - cbn [app fragmentSize length resolve_children]. rewrite !Z.add_0_r.
    destruct (Z.leb_spec (curPos + q) (curPos + nodeSize (Elem t a c))); [|lia].
    destruct (Z.eqb_spec (curPos + nodeSize (Elem t a c)) (curPos + q)); [lia|].
    destruct (Z.eqb_spec (curPos + q) curPos); [lia|].
    replace (curPos + q - curPos - 1) with (q - 1) by lia. done.
  - cbn [app fragmentSize length resolve_children].
    pose proof (wellSized_size x Hx). pose proof (fragmentSize_nonneg _ Hw).
    destruct (Z.leb_spec (curPos + (nodeSize x + fragmentSize pre) + q) (curPos + nodeSize x));
      [lia|].
    replace (curPos + (nodeSize x + fragmentSize pre) + q)
      with ((curPos + nodeSize x) + fragmentSize pre + q) by lia.
    rewrite IH.
    replace (start + (curPos + nodeSize x + fragmentSize pre) + 1)
      with (start + (curPos + (nodeSize x + fragmentSize pre)) + 1) by lia.
    destruct (resolve_path _ _ _) as [p po]. repeat (f_equal; try lia).
Qed.

Lemma isChain_head n start e rest : isChain n start (e :: rest) -> e.1.1 = n.
Proof. destruct e as [[m i] off]. by intros [-> _]. Qed.

(** The positions of a chain lie in the content of its first node. *)
Lemma isChain_bounds n start path :
  wellSized n = true -> isChain n start path ->
  Forall (fun e => start <= snd e <= start + fragmentSize (children n)) path.
Proof.
  revert n start. induction path as [|[[m i] off] rest IH]; intros n start Hw Hchain;
    [constructor|].
  destruct Hchain as (-> & pre & post & Hch & Hi & Hoff & Hrest).
  apply wellSized_children in Hw. rewrite Hch in Hw. apply Forall_app in Hw as [Hpre Hpost].
  pose proof (fragmentSize_nonneg _ Hpre). pose proof (fragmentSize_nonneg _ Hpost).
  rewrite Hch, fragmentSize_app.
  constructor; [simpl; lia|].
  destruct rest as [|[[x i'] off'] rest']; [constructor|].
  destruct Hrest as [(t & a & c & post' & -> & ->) Hchain'].
  apply Forall_cons in Hpost as [Hx Hpost'].
  eapply Forall_impl; [apply (IH _ _ Hx Hchain')|].
  intros e [He1 He2]. cbn [children] in He2.
  pose proof (fragmentSize_nonneg _ Hpost') as Hp'.
  cbn [fragmentSize]. rewrite nodeSize_Elem. subst off. lia.
Qed.

(** What [resolve] computes is a chain. *)
Lemma resolve_path_isChain n start po :
  isChain n start (resolve_path n start po).1.
Proof.
  revert start po. induction n as [len|t a|t a c IH] using Node_induction; intros start po;
    [done | done |].
  rewrite resolve_path_Elem.
  assert (Hgen : forall pre l, c = pre ++ l ->
            isChain (Elem t a c) start
              (resolve_children (Elem t a c) start po l (Z.of_nat (length pre))
                 (fragmentSize pre)).1).
  { intros pre l. revert pre. induction l as [|x xs IHl]; intros pre Hc.
    - simpl. split; [done|]. exists pre, []. by rewrite Hc.
    - cbn [resolve_children].
      assert (Hsnoc : c = (pre ++ [x]) ++ xs) by (by rewrite <- app_assoc).
      destruct (po <=? fragmentSize pre + nodeSize x).
      + destruct (fragmentSize pre + nodeSize x =? po).
        { simpl. split; [done|]. exists (pre ++ [x]), xs.
          rewrite length_app, fragmentSize_app. simpl. repeat split; (done || lia). }
        destruct (po =? fragmentSize pre).
        { simpl. split; [done|]. exists pre, (x :: xs). by rewrite Hc. }
        destruct x as [len|tx ax|tx ax cx].
        * simpl. split; [done|]. exists pre, (Text len :: xs). by rewrite Hc.
        * simpl. split; [done|]. exists pre, (Leaf tx ax :: xs). by rewrite Hc.
        * assert (Hx : isChain (Elem tx ax cx) (start + fragmentSize pre + 1)
                         (resolve_path (Elem tx ax cx) (start + fragmentSize pre + 1)
                            (po - fragmentSize pre - 1)).1).
          { rewrite Forall_forall in IH. apply IH. rewrite Hc.
            apply elem_of_app. right. apply list_elem_of_here. }
          destruct (resolve_path (Elem tx ax cx) _ _) as [p po'] eqn:Hp. simpl in Hx.
          cbn [fst isChain]. split; [done|]. exists pre, (Elem tx ax cx :: xs).
          split; [by rewrite Hc|]. split; [done|]. split; [done|].
          destruct p as [|[[m i'] off'] p']; [done|].
          pose proof (isChain_head _ _ _ _ Hx) as Hm. simpl in Hm. subst m.
          split; [by exists tx, ax, cx, xs | exact Hx].
      + specialize (IHl (pre ++ [x]) Hsnoc).
        rewrite length_app, fragmentSize_app in IHl. simpl in IHl.
        replace (Z.of_nat (length pre + 1)) with (Z.of_nat (length pre) + 1) in IHl by lia.
        replace (fragmentSize pre + (nodeSize x + 0)) with (fragmentSize pre + nodeSize x)
          in IHl by lia.
        exact IHl. }
  apply (Hgen [] c). done.
Qed.


Lemma chainEnd_cons e e' rest : chainEnd (e :: e' :: rest) = chainEnd (e' :: rest).
Proof. reflexivity. Qed.

Lemma chainEnd_elem path : path <> [] -> exists e, last path = Some e /\ chainEnd path = e.2.
Proof.
  intros Hne. unfold chainEnd. destruct (last path) as [e|] eqn:He; [by exists e|].
  apply last_None in He. done.
Qed.

(** Resolving the position a chain ends at gives the chain. *)
Lemma resolve_path_chain t a c start path :
  wellSized (Elem t a c) = true -> isChain (Elem t a c) start path -> path <> [] ->
  (resolve_path (Elem t a c) start (chainEnd path - start)).1 = path.
Proof.
  revert t a c start. induction path as [|[[m i] off] rest IH]; intros t a c start Hw Hchain Hne;
    [done|].
  destruct Hchain as (-> & pre & post & Hch & -> & -> & Hrest). cbn [children] in Hch.
  rewrite resolve_path_Elem. pose proof Hw as Hwc.
  apply wellSized_children in Hwc. cbn [children] in Hwc.
  destruct rest as [|[[x i'] off'] rest'].
  - unfold chainEnd. cbn [last snd]. rewrite Hch.
    replace (start + fragmentSize pre - start) with (0 + fragmentSize pre) by lia.
    rewrite resolve_children_boundary by (by rewrite <- Hch). repeat (f_equal; try lia).
  - destruct Hrest as [(tx & ax & cx & post' & -> & ->) Hchain'].
    rewrite chainEnd_cons. rewrite Hch in Hwc. apply Forall_app in Hwc as [Hpre Hpost].
    apply Forall_cons in Hpost as [Hx Hpost'].
    pose proof (isChain_bounds _ _ _ Hx Hchain') as Hb.
    destruct (chainEnd_elem ((Elem tx ax cx, i', off') :: rest') ltac:(done)) as (e & He & Hend).
    assert (Hin : e ∈ (Elem tx ax cx, i', off') :: rest').
    { apply last_Some in He as [l' ->]. apply elem_of_app. right. apply list_elem_of_here. }
    rewrite Forall_forall in Hb. specialize (Hb e Hin). cbn [children] in Hb.
    rewrite Hch.
    replace (chainEnd ((Elem tx ax cx, i', off') :: rest') - start)
      with (0 + fragmentSize pre
            + (chainEnd ((Elem tx ax cx, i', off') :: rest') - start - fragmentSize pre))
      by lia.
    rewrite resolve_children_inside by (done || rewrite nodeSize_Elem; lia).
    specialize (IH tx ax cx (start + fragmentSize pre + 1) Hx Hchain' ltac:(done)).
    replace (chainEnd ((Elem tx ax cx, i', off') :: rest') - start - fragmentSize pre - 1)
      with (chainEnd ((Elem tx ax cx, i', off') :: rest') - (start + fragmentSize pre + 1))
      by lia.
    replace (start + (0 + fragmentSize pre) + 1) with (start + fragmentSize pre + 1) by lia.
    destruct (resolve_path (Elem tx ax cx) _ _) as [p po]. simpl in IH. subst p.
    simpl. repeat (f_equal; try lia).
Qed.

Lemma isChain_take n start path k : isChain n start path -> isChain n start (take k path).
Proof.
  revert n start k. induction path as [|[[m i] off] rest IH]; intros n start k Hchain.
  - by rewrite take_nil.
  - destruct k as [|k]; [done|]. cbn [take].
    destruct Hchain as (-> & pre & post & Hch & Hi & Hoff & Hrest).
    split; [done|]. exists pre, post. split; [done|]. split; [done|]. split; [done|].
    destruct rest as [|[[x i'] off'] rest']; [by rewrite take_nil|].
    destruct k as [|k]; [done|]. cbn [take].
    destruct Hrest as [Hx Hchain']. split; [done|].
    apply (IH x (off + 1) (S k)) in Hchain'. exact Hchain'.
Qed.

(** The position before an ancestor of a resolved position resolves to
    the chain of the ancestors above it. *)
Lemma resolve_before (d : Node) (pos : Z) (p : ResolvedPos) (k : nat) (e : Node * Z * Z) :
  wellSized d = true -> resolve d pos = Ok p -> rp_path p !! k = Some e ->
  exists po, resolve d e.2 = Ok (mkResolvedPos e.2 (take (S k) (rp_path p)) po).
Proof.
  intros Hw Hres Hk. unfold resolve in Hres.
  destruct ((0 <=? pos) && (pos <=? fragmentSize (children d))); [|discriminate].
  pose proof (resolve_path_isChain d 0 pos) as Hchain.
  destruct (resolve_path d 0 pos) as [path po0] eqn:Hpath. injection Hres as <-.
  cbn [rp_path fst] in *.
  destruct d as [len|t a|t a c]; [by simpl in Hpath; injection Hpath as <- | 
                                   by simpl in Hpath; injection Hpath as <- |].
  assert (Htake : isChain (Elem t a c) 0 (take (S k) path)) by (by apply isChain_take).
  assert (Hlast : last (take (S k) path) = Some e).
  { rewrite last_lookup, length_take.
    pose proof (lookup_lt_Some _ _ _ Hk).
    replace (Init.Nat.pred (S k `min` length path)) with k by lia.
    rewrite lookup_take_lt by lia. done. }
  assert (Hne : take (S k) path <> []).
  { intros Hnil. rewrite Hnil in Hlast. done. }
  assert (Hend : chainEnd (take (S k) path) = e.2) by (unfold chainEnd; by rewrite Hlast).
  pose proof (resolve_path_chain t a c 0 _ Hw Htake Hne) as Hre.
  rewrite Hend, Z.sub_0_r in Hre.
  pose proof (isChain_bounds _ _ _ Hw Htake) as Hb. rewrite Forall_forall in Hb.
  assert (Hin : e ∈ take (S k) path).
  { apply last_Some in Hlast as [l' ->]. apply elem_of_app. right. apply list_elem_of_here. }
  specialize (Hb e Hin). unfold resolve.
  destruct (Z.leb_spec 0 e.2); [|lia].
  destruct (Z.leb_spec e.2 (fragmentSize (children (Elem t a c)))); [|lia]. simpl andb. cbv iota.
  destruct (resolve_path (Elem t a c) 0 e.2) as [p' po']. simpl in Hre. subst p'.
  by exists po'.
Qed.

(** In the path of a resolved position the node of an entry is the
    child, at the entry's index, of the node of the entry above. *)
Lemma resolve_child (d : Node) (pos : Z) (p : ResolvedPos) (k : nat)
    (e e' : Node * Z * Z) :
  resolve d pos = Ok p -> rp_path p !! k = Some e -> rp_path p !! S k = Some e' ->
  childAt e.1.1 e.1.2 = Some e'.1.1.
Proof.
  intros Hres Hk Hk'. unfold resolve in Hres.
  destruct ((0 <=? pos) && (pos <=? fragmentSize (children d))); [|discriminate].
  pose proof (resolve_path_isChain d 0 pos) as Hchain.
  destruct (resolve_path d 0 pos) as [path po0] eqn:Hpath. injection Hres as <-.
  cbn [rp_path fst] in *. clear Hpath.
  revert d k Hk Hk' Hchain. generalize 0.
  induction path as [|[[m i] off] rest IH]; intros start d k Hk Hk' Hchain; [done|].
  destruct Hchain as (-> & pre & post & Hch & -> & -> & Hrest).
  destruct rest as [|[[x i'] off'] rest']; [by destruct k|].
  destruct Hrest as [(tx & ax & cx & post' & -> & ->) Hchain'].
  destruct k as [|k].
  - injection Hk as <-. injection Hk' as <-. simpl. unfold childAt.
    destruct (Z.ltb_spec (Z.of_nat (length pre)) 0); [lia|].
    rewrite Nat2Z.id, Hch. rewrite lookup_app_r by lia. by rewrite Nat.sub_diag.
  - apply (IH _ _ k Hk Hk' Hchain').
Qed.

Lemma resolve_top (d : Node) (pos : Z) (p : ResolvedPos) (e : Node * Z * Z) :
  resolve d pos = Ok p -> rp_path p !! 0%nat = Some e -> e.1.1 = d.
Proof.
  intros Hres Hk. unfold resolve in Hres.
  destruct ((0 <=? pos) && (pos <=? fragmentSize (children d))); [|discriminate].
  pose proof (resolve_path_isChain d 0 pos) as Hchain.
  destruct (resolve_path d 0 pos) as [path po0] eqn:Hpath. injection Hres as <-.
  cbn [rp_path fst] in *. destruct path as [|e0 rest]; [done|]. injection Hk as <-.
  by apply (isChain_head _ _ _ _ Hchain).
Qed.


Lemma pathEntry_nat (p : ResolvedPos) (k : nat) : pathEntry p (Z.of_nat k) = rp_path p !! k.
Proof.
  unfold pathEntry. destruct (Z.ltb_spec (Z.of_nat k) 0); [lia|]. by rewrite Nat2Z.id.
Qed.

Lemma rp_node_nat (p : ResolvedPos) (k : nat) :
  rp_node p (Z.of_nat k) = (fun e => e.1.1) <$> rp_path p !! k.
Proof.
  unfold rp_node, resolveDepth. destruct (Z.ltb_spec (Z.of_nat k) 0); [lia|].
  by rewrite pathEntry_nat.
Qed.

(** The position before the node of an entry of the path: it lies in
    the node of the entry above and the node after it is that node. *)
Lemma resolve_before_points (d : Node) (pos : Z) (p : ResolvedPos) (k : nat)
    (e e' : Node * Z * Z) :
  wellSized d = true -> resolve d pos = Ok p ->
  rp_path p !! k = Some e -> rp_path p !! S k = Some e' ->
  exists c, resolve d e.2 = Ok c
    /\ rp_pos c = e.2
    /\ rp_path c = take (S k) (rp_path p)
    /\ rp_depth c = Z.of_nat k
    /\ rp_parent c = Some e.1.1
    /\ rp_nodeAfter c = Some e'.1.1.
Proof.
  intros Hw Hres Hk Hk'.
  destruct (resolve_before d pos p k e Hw Hres Hk) as (po & Hc).
  eexists. split; [exact Hc|]. split; [done|]. split; [done|].
  pose proof (lookup_lt_Some _ _ _ Hk) as Hlen.
  assert (Hdepth : rp_depth (mkResolvedPos e.2 (take (S k) (rp_path p)) po) = Z.of_nat k).
  { unfold rp_depth. cbn [rp_path]. rewrite length_take. lia. }
  assert (Hentry : pathEntry (mkResolvedPos e.2 (take (S k) (rp_path p)) po) (Z.of_nat k)
                   = Some e).
  { rewrite pathEntry_nat. cbn [rp_path]. by rewrite lookup_take_lt by lia. }
  split; [done|]. split.
  - unfold rp_parent. rewrite Hdepth, rp_node_nat. cbn [rp_path].
    rewrite lookup_take_lt by lia. by rewrite Hk.
  - unfold rp_nodeAfter, lastEntry. rewrite Hdepth, Hentry.
    destruct e as [[N i] off]. cbn [rp_pos snd].
    pose proof (resolve_child d pos p k _ _ Hres Hk Hk') as Hchild. simpl in Hchild.
    rewrite Hchild. by rewrite Z.sub_diag.
Qed.

(** X22: for a position resolved in a document, [cellAround] never
    raises. It returns null when no ancestor between the top node and
    the parent of the position is a row; otherwise it returns the
    position directly before the child of the innermost such row that
    holds the position: a position whose parent is that row, whose node
    after is that child, and of which [pointsAtCell] holds. *)
Theorem cellAround_innermost_row (d : Node) (pos : Z) (p : ResolvedPos) :
  wellSized d = true -> resolve d pos = Ok p ->
  (cellAround p = Ok None
   /\ forall (k : nat) n, (0 < k)%nat -> Z.of_nat k < rp_depth p ->
        rp_node p (Z.of_nat k) = Some n -> role n <> Some Rrow)
  \/ exists (k : nat) row cell c,
       (0 < k)%nat /\ Z.of_nat k < rp_depth p
       /\ rp_node p (Z.of_nat k) = Some row /\ role row = Some Rrow
       /\ rp_node p (Z.of_nat k + 1) = Some cell
       /\ (forall (k' : nat) n, (k < k')%nat -> Z.of_nat k' < rp_depth p ->
             rp_node p (Z.of_nat k') = Some n -> role n <> Some Rrow)
       /\ cellAround p = Ok (Some c)
       /\ rp_before p (Z.of_nat k + 1) = Ok (rp_pos c)
       /\ rp_path c = take (S k) (rp_path p)
       /\ rp_parent c = Some row
       /\ rp_nodeAfter c = Some cell
       /\ pointsAtCell c = Ok true.
Proof.
  intros Hw Hres. unfold cellAround.
  assert (Hgen : forall j : nat, Z.of_nat j < rp_depth p \/ j = 0%nat ->
    (cellAround_loop p j = Ok None
     /\ forall (k : nat) n, (0 < k)%nat -> (k <= j)%nat ->
          rp_node p (Z.of_nat k) = Some n -> role n <> Some Rrow)
    \/ exists (k : nat) row cell c,
         (0 < k)%nat /\ (k <= j)%nat
         /\ rp_node p (Z.of_nat k) = Some row /\ role row = Some Rrow
         /\ rp_node p (Z.of_nat k + 1) = Some cell
         /\ (forall (k' : nat) n, (k < k')%nat -> (k' <= j)%nat ->
               rp_node p (Z.of_nat k') = Some n -> role n <> Some Rrow)
         /\ cellAround_loop p j = Ok (Some c)
         /\ rp_before p (Z.of_nat k + 1) = Ok (rp_pos c)
         /\ rp_path c = take (S k) (rp_path p)
         /\ rp_parent c = Some row
         /\ rp_nodeAfter c = Some cell
         /\ pointsAtCell c = Ok true).
  { induction j as [|j IH]; intros Hj.
    - left. split; [done|]. intros k n Hk Hle. lia.
    - destruct Hj as [Hj|Hj]; [|lia].
      destruct (lookup_lt_is_Some_2 (rp_path p) (S j) ltac:(unfold rp_depth in Hj; lia))
        as [e He].
      destruct (lookup_lt_is_Some_2 (rp_path p) (S (S j)) ltac:(unfold rp_depth in Hj; lia))
        as [e' He'].
      cbn [cellAround_loop]. unfold roleAt. rewrite rp_node_nat, He.
      cbn -[rp_before resolve rp_node Z.of_nat].
      unfold isRole. destruct (bool_decide_reflect (role e.1.1 = Some Rrow)) as [Hrole|Hrole].
      + right.
        destruct (resolve_before_points d pos p (S j) e e' Hw Hres He He')
          as (c & Hc & Hpos & Hpath & Hdepth & Hparent & Hafter).
        exists (S j), e.1.1, e'.1.1, c. split; [lia|]. split; [lia|].
        split; [by rewrite rp_node_nat, He|]. split; [done|].
        split; [replace (Z.of_nat (S j) + 1) with (Z.of_nat (S (S j))) by lia;
                by rewrite rp_node_nat, He'|].
        split; [intros k' n Hk' Hle; lia|].
        assert (Hbefore : rp_before p (Z.of_nat (S j) + 1) = Ok (rp_pos c)).
        { unfold rp_before, resolveDepth.
          destruct (Z.ltb_spec (Z.of_nat (S j) + 1) 0); [lia|].
          destruct (Z.eqb_spec (Z.of_nat (S j) + 1) 0); [lia|].
          destruct (Z.eqb_spec (Z.of_nat (S j) + 1) (rp_depth p + 1)); [lia|].
          replace (Z.of_nat (S j) + 1 - 1) with (Z.of_nat (S j)) by lia.
          rewrite pathEntry_nat, He. simpl. by rewrite Hpos. }
        assert (Htop : rp_node p 0 = Some d).
        { destruct (lookup_lt_is_Some_2 (rp_path p) 0 ltac:(unfold rp_depth in Hj; lia))
            as [e0 He0].
          change 0 with (Z.of_nat 0). rewrite rp_node_nat, He0. simpl.
          by rewrite (resolve_top d pos p e0 Hres He0). }
        rewrite Htop. cbn -[rp_before resolve rp_node Z.of_nat].
        rewrite Hbefore. cbn -[rp_before resolve rp_node Z.of_nat].
        rewrite Hpos, Hc. cbn -[rp_before resolve rp_node Z.of_nat].
        split; [done|]. split; [done|]. split; [done|]. split; [done|].
        split; [done|].
        unfold pointsAtCell. rewrite Hparent. simpl. rewrite Hafter.
        unfold isRole. by rewrite bool_decide_eq_true_2.
      + destruct (IH ltac:(lia)) as [[Hnone Hall] |
          (k & row & cell & c & Hk & Hle & Hn & Hr & Hcell & Hinner & Hloop & Hrest)].
        * left. split; [done|]. intros k n Hk Hle Hn.
          destruct (decide (k = S j)) as [->|Hne].
          -- rewrite rp_node_nat, He in Hn. injection Hn as <-. done.
          -- apply (Hall k n); (done || lia).
        * right. exists k, row, cell, c. split; [done|]. split; [lia|]. split; [done|].
          split; [done|]. split; [done|]. split; [|done].
          intros k' n Hk' Hle' Hn'. destruct (decide (k' = S j)) as [->|Hne].
          -- rewrite rp_node_nat, He in Hn'. injection Hn' as <-. done.
          -- apply (Hinner k' n); (done || lia). }
  destruct (Hgen (Z.to_nat (rp_depth p - 1)) ltac:(lia)) as [[Hnone Hall] |
    (k & row & cell & c & Hk & Hle & Hn & Hr & Hcell & Hinner & Hloop & Hrest)].
  - left. split; [done|]. intros k n Hk Hlt. apply Hall; (done || lia).
  - right. exists k, row, cell, c. split; [done|]. split; [lia|]. split; [done|].
    split; [done|]. split; [done|]. split; [|done].
    intros k' n Hk' Hlt. apply Hinner; (done || lia).
Qed.

(** In the sample the position lies in the paragraph of the second cell
    of the first row. *)
Lemma cellAround_innermost_row_witness :
  exists c, cellAround (at_ d22 9) = Ok (Some c) /\ rp_pos c = 7
    /\ rp_nodeAfter c = Some td /\ pointsAtCell c = Ok true.
Proof.
  destruct (cellAround_innermost_row d22 9 (at_ d22 9) eq_refl eq_refl)
    as [[Hnone _] | (k & row & cell & c & _ & _ & _ & _ & _ & _ & Hc & _ & _ & _ & Ha & Hp)].
  - vm_compute in Hnone. discriminate Hnone.
  - exists c. split; [exact Hc|]. vm_compute in Hc. injection Hc as <-.
    split; [reflexivity|]. split; [reflexivity | exact Hp].
Defined.


(** A chain from an element resolves to itself. *)
Lemma resolve_of_chain t a cs (path : list (Node * Z * Z)) :
  wellSized (Elem t a cs) = true -> isChain (Elem t a cs) 0 path -> path <> [] ->
  exists po,
    resolve (Elem t a cs) (chainEnd path) = Ok (mkResolvedPos (chainEnd path) path po).
Proof.
  intros Hw Hchain Hne.
  destruct (chainEnd_elem path Hne) as (e & He & Hend).
  pose proof (resolve_path_chain t a cs 0 _ Hw Hchain Hne) as Hre.
  rewrite Z.sub_0_r in Hre.
  pose proof (isChain_bounds _ _ _ Hw Hchain) as Hb. rewrite Forall_forall in Hb.
  assert (Hin : e ∈ path).
  { apply last_Some in He as [l' ->]. apply elem_of_app. right. apply list_elem_of_here. }
  specialize (Hb e Hin). rewrite <- Hend in Hb. unfold resolve.
  destruct (Z.leb_spec 0 (chainEnd path)); [|lia].
  destruct (Z.leb_spec (chainEnd path) (fragmentSize (children (Elem t a cs)))); [|lia].
  simpl andb. cbv iota.
  destruct (resolve_path (Elem t a cs) 0 (chainEnd path)) as [p' po']. simpl in Hre. subst p'.
  by exists po'.
Qed.

Lemma resolved_isChain (d : Node) (pos : Z) (c : ResolvedPos) :
  resolve d pos = Ok c -> isChain d 0 (rp_path c) /\ rp_pos c = pos.
Proof.
  intros Hres. unfold resolve in Hres.
  destruct ((0 <=? pos) && (pos <=? fragmentSize (children d))); [|discriminate].
  pose proof (resolve_path_isChain d 0 pos) as Hchain.
  destruct (resolve_path d 0 pos) as [path po0]. by injection Hres as <-.
Qed.

Lemma resolved_Elem (d : Node) (pos : Z) (c : ResolvedPos) :
  resolve d pos = Ok c -> rp_path c <> [] -> exists t a cs, d = Elem t a cs.
Proof.
  intros Hres Hne. unfold resolve in Hres.
  destruct ((0 <=? pos) && (pos <=? fragmentSize (children d))); [|discriminate].
  destruct d as [len|t a|t a cs]; [| |by eexists _, _, _];
    simpl in Hres; injection Hres as <-; done.
Qed.

(** The last entry of a chain may point before any child of its node,
    or at its end. *)
Lemma isChain_move n start init N i off (j : nat) :
  isChain n start (init ++ [(N, i, off)]) -> (j <= length (children N))%nat ->
  isChain n start
    (init ++ [(N, Z.of_nat j,
               off - fragmentSize (take (Z.to_nat i) (children N))
               + fragmentSize (take j (children N)))]).
Proof.
  revert n start. induction init as [|[[m i0] o0] init IH]; intros n start Hchain Hj.
  - destruct Hchain as (-> & pre & post & Hch & -> & -> & _). simpl.
    split; [done|]. exists (take j (children n)), (drop j (children n)).
    split; [by rewrite take_drop|]. split; [rewrite length_take; lia|]. split; [|done].
    rewrite Nat2Z.id, Hch, take_app_length. lia.
  - destruct Hchain as (-> & pre & post & Hch & -> & -> & Hrest). cbn [app isChain].
    split; [done|]. exists pre, post. split; [done|]. split; [done|]. split; [done|].
    destruct init as [|[[m1 i1] o1] init'].
    + cbn [app] in *. destruct Hrest as [Hx Hchain']. split; [done|].
      apply (IH _ _ Hchain' Hj).
    + cbn [app] in *. destruct Hrest as [Hx Hchain']. split; [done|].
      apply (IH _ _ Hchain' Hj).
Qed.

Lemma lastEntry_path (c : ResolvedPos) (e : Node * Z * Z) :
  lastEntry c = Some e -> exists init, rp_path c = init ++ [e]
    /\ rp_depth c = Z.of_nat (length init).
Proof.
  unfold lastEntry, pathEntry, rp_depth. intros He.
  destruct (Z.ltb_spec (Z.of_nat (length (rp_path c)) - 1) 0); [done|].
  assert (Hlast : last (rp_path c) = Some e).
  { rewrite last_lookup. rewrite <- He. f_equal. lia. }
  apply last_Some in Hlast as [init Hinit]. exists init. split; [done|].
  rewrite Hinit, length_app. simpl. lia.
Qed.

Lemma fragmentSize_take_S (l : list Node) (i : nat) (x : Node) :
  l !! i = Some x -> fragmentSize (take (S i) l) = fragmentSize (take i l) + nodeSize x.
Proof.
  intros Hx. rewrite (take_S_r _ _ _ Hx), fragmentSize_app. simpl. lia.
Qed.

(** From the position directly before the child at [index] of its
    parent, the position before the child at [j], or the end of the
    parent, is resolved to the same ancestors. *)
Lemma resolve_sibling (d : Node) (c : ResolvedPos) (parent : Node) (index : Z) (j : nat) :
  wellSized d = true -> resolve d (rp_pos c) = Ok c ->
  lastEntry c = Some (parent, index, rp_pos c) ->
  (j <= length (children parent))%nat ->
  let pos' := rp_pos c - fragmentSize (take (Z.to_nat index) (children parent))
              + fragmentSize (take j (children parent)) in
  exists c', resolve d pos' = Ok c'
    /\ rp_pos c' = pos'
    /\ rp_depth c' = rp_depth c
    /\ (forall k, 0 <= k < rp_depth c -> pathEntry c' k = pathEntry c k)
    /\ rp_node c' 0 = rp_node c 0
    /\ lastEntry c' = Some (parent, Z.of_nat j, pos').
Proof.
  intros Hw Hres Hlast Hj pos'.
  destruct (lastEntry_path c _ Hlast) as (init & Hpath & Hdepth).
  destruct (resolved_isChain d _ c Hres) as [Hchain _].
  destruct (resolved_Elem d _ c Hres) as (t & a & cs & ->);
    [rewrite Hpath; by destruct init|].
  rewrite Hpath in Hchain.
  pose proof (isChain_move _ _ _ _ _ _ j Hchain Hj) as Hchain'. fold pos' in Hchain'.
  destruct (resolve_of_chain t a cs _ Hw Hchain') as (po & Hc'); [by destruct init|].
  assert (Hend : chainEnd (init ++ [(parent, Z.of_nat j, pos')]) = pos').
  { unfold chainEnd. by rewrite last_snoc. }
  rewrite Hend in Hc'. eexists. split; [exact Hc'|]. split; [done|].
  assert (Hdepth' : rp_depth (mkResolvedPos pos' (init ++ [(parent, Z.of_nat j, pos')]) po)
                    = Z.of_nat (length init)).
  { unfold rp_depth. cbn [rp_path]. rewrite length_app. simpl. lia. }
  split; [congruence|]. split.
  - intros k Hk. unfold pathEntry. destruct (Z.ltb_spec k 0); [lia|]. cbn [rp_path].
    rewrite Hpath, !lookup_app_l by lia. done.
  - split.
    + unfold rp_node, resolveDepth, pathEntry. simpl. rewrite Hpath.
      destruct init; done.
    + unfold lastEntry. rewrite Hdepth', pathEntry_nat. cbn [rp_path].
      rewrite lookup_app_r by lia. by rewrite Nat.sub_diag.
Qed.

Lemma childAt_lookup (n : Node) (i : Z) (x : Node) :
  childAt n i = Some x -> 0 <= i /\ children n !! Z.to_nat i = Some x.
Proof. unfold childAt. destruct (Z.ltb_spec i 0); [done|]. by split. Qed.

(** The top node of a position resolved in a document is the document. *)
Lemma resolved_top (d : Node) (c : ResolvedPos) (e : Node * Z * Z) :
  resolve d (rp_pos c) = Ok c -> lastEntry c = Some e -> rp_node c 0 = Some d.
Proof.
  intros Hres Hlast. destruct (lastEntry_path c _ Hlast) as (init & Hpath & _).
  destruct (rp_path c !! 0%nat) as [e0|] eqn:He0; [|rewrite Hpath in He0; by destruct init].
  change 0 with (Z.of_nat 0). rewrite rp_node_nat, He0. simpl.
  by rewrite (resolve_top d _ c e0 Hres He0).
Qed.

(** Resolving the position after the child that a position stands
    before. *)
Lemma resolve_next (d : Node) (c : ResolvedPos) (parent cell : Node) (index : Z) :
  wellSized d = true -> resolve d (rp_pos c) = Ok c ->
  lastEntry c = Some (parent, index, rp_pos c) ->
  childAt parent index = Some cell ->
  exists c', resolve d (rp_pos c + nodeSize cell) = Ok c'
    /\ rp_pos c' = rp_pos c + nodeSize cell
    /\ rp_depth c' = rp_depth c
    /\ (forall k, 0 <= k < rp_depth c -> pathEntry c' k = pathEntry c k)
    /\ lastEntry c' = Some (parent, index + 1, rp_pos c + nodeSize cell).
Proof.
  intros Hw Hres Hlast Hcell.
  destruct (childAt_lookup _ _ _ Hcell) as [Hi Hx].
  pose proof (lookup_lt_Some _ _ _ Hx) as Hlen.
  destruct (resolve_sibling d c parent index (S (Z.to_nat index)) Hw Hres Hlast ltac:(lia))
    as (c' & Hc' & Hpos' & Hdepth' & Hsame & Htop & Hlast').
  rewrite (fragmentSize_take_S _ _ _ Hx) in Hc', Hpos', Hlast'.
  replace (rp_pos c - fragmentSize (take (Z.to_nat index) (children parent))
           + (fragmentSize (take (Z.to_nat index) (children parent)) + nodeSize cell))
    with (rp_pos c + nodeSize cell) in Hc', Hpos', Hlast' by lia.
  replace (Z.of_nat (S (Z.to_nat index))) with (index + 1) in Hlast' by lia.
  by exists c'.
Qed.

(** Where [moveCellForward] resolves. *)
Lemma moveCellForward_resolve (d : Node) (c : ResolvedPos) (parent cell : Node) (index : Z) :
  resolve d (rp_pos c) = Ok c ->
  lastEntry c = Some (parent, index, rp_pos c) ->
  childAt parent index = Some cell ->
  moveCellForward c = resolve d (rp_pos c + nodeSize cell).
Proof.
  intros Hres Hlast Hcell. unfold moveCellForward.
  rewrite (resolved_top d c _ Hres Hlast). unfold rp_nodeAfter.
  by rewrite Hlast, Hcell, Z.sub_diag.
Qed.

(** X23: from a position directly before a node, [moveCellForward]
    gives the position directly after that node: it has the same
    ancestors, the index after in the same parent, that node before it,
    and after it the next child of the parent, if any. *)
Theorem moveCellForward_next (d : Node) (c : ResolvedPos) (parent cell : Node) (index : Z) :
  wellSized d = true -> resolve d (rp_pos c) = Ok c ->
  lastEntry c = Some (parent, index, rp_pos c) ->
  childAt parent index = Some cell ->
  exists c', moveCellForward c = Ok c'
    /\ rp_pos c' = rp_pos c + nodeSize cell
    /\ rp_depth c' = rp_depth c
    /\ (forall k, 0 <= k < rp_depth c -> pathEntry c' k = pathEntry c k)
    /\ lastEntry c' = Some (parent, index + 1, rp_pos c + nodeSize cell)
    /\ rp_nodeBefore c' = Some cell
    /\ rp_nodeAfter c' = childAt parent (index + 1).
Proof.
  intros Hw Hres Hlast Hcell.
  destruct (resolve_next d c parent cell index Hw Hres Hlast Hcell)
    as (c' & Hc' & Hpos' & Hdepth' & Hsame & Hlast').
  exists c'. rewrite (moveCellForward_resolve d c parent cell index Hres Hlast Hcell).
  split; [exact Hc'|]. split; [done|]. split; [done|]. split; [done|]. split; [done|].
  unfold rp_nodeBefore, rp_nodeAfter. rewrite Hlast', Hpos', Z.sub_diag. simpl.
  split; [by replace (index + 1 - 1) with index by lia|].
  by destruct (childAt parent (index + 1)).
Qed.

Lemma moveCellForward_next_witness :
  exists c', moveCellForward (at_ d22 3) = Ok c'
    /\ rp_pos c' = 3 + nodeSize td
    /\ rp_depth c' = rp_depth (at_ d22 3)
    /\ (forall k, 0 <= k < rp_depth (at_ d22 3) -> pathEntry c' k = pathEntry (at_ d22 3) k)
    /\ lastEntry c' = Some (tr_ [td; td], 0 + 1, 3 + nodeSize td)
    /\ rp_nodeBefore c' = Some td
    /\ rp_nodeAfter c' = childAt (tr_ [td; td]) (0 + 1).
Proof.
  apply (moveCellForward_next d22 (at_ d22 3) (tr_ [td; td]) td 0); reflexivity.
Defined.


Lemma lastEntry_index (c : ResolvedPos) (parent : Node) (index off : Z) :
  lastEntry c = Some (parent, index, off) ->
  rp_index c (rp_depth c) = Some index /\ rp_parent c = Some parent /\ 0 <= rp_depth c.
Proof.
  intros Hlast. unfold rp_parent, rp_index, rp_node, resolveDepth.
  assert (0 <= rp_depth c).
  { unfold lastEntry, pathEntry in Hlast. by destruct (Z.ltb_spec (rp_depth c) 0). }
  destruct (Z.ltb_spec (rp_depth c) 0); [lia|].
  unfold lastEntry in Hlast. by rewrite Hlast.
Qed.

Lemma childAt_length (n : Node) (i : Z) (x : Node) :
  childAt n i = Some x -> i < childCount n.
Proof.
  intros Hx. destruct (childAt_lookup _ _ _ Hx) as [Hi Hl].
  apply lookup_lt_Some in Hl. unfold childCount. lia.
Qed.

(** X24: with the selection's cell followed by another cell in its row,
    [goToNextCell(1)] dispatches one transaction without steps that
    selects between the start and the end of that next cell and scrolls
    it into view. *)
Theorem goToNextCell_forward_in_row (state : EditorState) (c : ResolvedPos)
    (row cell next : Node) (index : Z) :
  wellSized (doc state) = true ->
  isInTable state = Ok true ->
  selectionCell state = Ok c ->
  resolve (doc state) (rp_pos c) = Ok c ->
  lastEntry c = Some (row, index, rp_pos c) ->
  childAt row index = Some cell ->
  childAt row (index + 1) = Some next ->
  goToNextCell Forward state true
  = Ok (true, Some (mkTransaction []
                      (Some (SelectTextBetween (rp_pos c + nodeSize cell)
                                               (rp_pos c + nodeSize cell + nodeSize next)))
                      true)).
Proof.
  intros Hw Hin Hsel Hres Hlast Hcell Hnext.
  destruct (lastEntry_index _ _ _ _ Hlast) as (Hidx & Hpar & Hdepth).
  destruct (resolve_next _ _ _ _ _ Hw Hres Hlast Hcell) as (rc & Hrc & Hpos & _ & _ & Hlast').
  rewrite <- Hpos in Hrc, Hlast'.
  destruct (resolve_next _ _ _ _ _ Hw Hrc Hlast' Hnext) as (moved & Hmoved & Hpos' & _).
  pose proof (moveCellForward_resolve _ _ _ _ _ Hrc Hlast' Hnext) as Hmove'.
  rewrite Hmoved in Hmove'.
  unfold goToNextCell. rewrite Hin, Hsel. simpl.
  unfold findNextCell. rewrite Hidx, Hpar. simpl.
  pose proof (childAt_length _ _ _ Hnext) as Hlen.
  destruct (Z.ltb_spec index (childCount row - 1)); [|lia].
  assert (Hafter : rp_nodeAfter c = Some cell).
  { unfold rp_nodeAfter. by rewrite Hlast, Hcell, Z.sub_diag. }
  rewrite Hafter. simpl. rewrite <- Hpos, Hrc. simpl. rewrite Hmove'. simpl.
  unfold dispatched, scrollIntoView, setSelection, emptyTr. simpl.
  by rewrite Hpos'.
Qed.

Lemma goToNextCell_forward_in_row_witness :
  goToNextCell Forward (cursor d22 5) true
  = Ok (true, Some (mkTransaction []
                      (Some (SelectTextBetween (rp_pos (at_ d22 3) + nodeSize td)
                                               (rp_pos (at_ d22 3) + nodeSize td + nodeSize td)))
                      true)).
Proof.
  apply (goToNextCell_forward_in_row (cursor d22 5) (at_ d22 3) (tr_ [td; td]) td td 0);
    reflexivity.
Defined.


(** X25: with the selection's cell preceded by another cell in its row,
    [goToNextCell(-1)] dispatches one transaction without steps that
    selects between the start and the end of that previous cell and
    scrolls it into view. *)
Theorem goToNextCell_backward_in_row (state : EditorState) (c : ResolvedPos)
    (row prev : Node) (index : Z) :
  wellSized (doc state) = true ->
  isInTable state = Ok true ->
  selectionCell state = Ok c ->
  resolve (doc state) (rp_pos c) = Ok c ->
  lastEntry c = Some (row, index, rp_pos c) ->
  childAt row (index - 1) = Some prev ->
  goToNextCell Backward state true
  = Ok (true, Some (mkTransaction []
                      (Some (SelectTextBetween (rp_pos c - nodeSize prev) (rp_pos c)))
                      true)).
Proof.
  intros Hw Hin Hsel Hres Hlast Hprev.
  destruct (childAt_lookup _ _ _ Hprev) as [Hi Hx].
  pose proof (lookup_lt_Some _ _ _ Hx) as Hlen.
  destruct (resolve_sibling (doc state) c row index (Z.to_nat (index - 1)) Hw Hres Hlast
              ltac:(lia)) as (rc & Hrc & Hpos & _ & _ & _ & Hlast').
  replace (Z.to_nat index) with (S (Z.to_nat (index - 1))) in Hrc, Hpos, Hlast' by lia.
  rewrite (fragmentSize_take_S _ _ _ Hx) in Hrc, Hpos, Hlast'.
  replace (rp_pos c
           - (fragmentSize (take (Z.to_nat (index - 1)) (children row)) + nodeSize prev)
           + fragmentSize (take (Z.to_nat (index - 1)) (children row)))
    with (rp_pos c - nodeSize prev) in Hrc, Hpos, Hlast' by lia.
  rewrite Z2Nat.id in Hlast' by lia.
  rewrite <- Hpos in Hrc, Hlast'.
  destruct (resolve_next _ _ _ _ _ Hw Hrc Hlast' Hprev) as (moved & Hmoved & Hpos' & _).
  pose proof (moveCellForward_resolve _ _ _ _ _ Hrc Hlast' Hprev) as Hmove.
  rewrite Hmoved in Hmove.
  unfold goToNextCell. rewrite Hin, Hsel. simpl.
  unfold findNextCell.
  assert (Hbefore : rp_nodeBefore c = Some prev).
  { unfold rp_nodeBefore. by rewrite Hlast, Z.sub_diag. }
  rewrite Hbefore. simpl. rewrite <- Hpos, Hrc. simpl. rewrite Hmove. simpl.
  unfold dispatched, scrollIntoView, setSelection, emptyTr. simpl.
  rewrite Hpos', Hpos.
  by replace (rp_pos c - nodeSize prev + nodeSize prev) with (rp_pos c) by lia.
Qed.

Lemma goToNextCell_backward_in_row_witness :
  goToNextCell Backward (cursor d22 9) true
  = Ok (true, Some (mkTransaction []
                      (Some (SelectTextBetween (rp_pos (at_ d22 7) - nodeSize td)
                                               (rp_pos (at_ d22 7))))
                      true)).
Proof.
  apply (goToNextCell_backward_in_row (cursor d22 9) (at_ d22 7) (tr_ [td; td]) td 1);
    reflexivity.
Defined.


Lemma removeColSpan_other (attrs : Attrs) (pos n : Z) :
  colspan (removeColSpan attrs pos n) = colspan attrs - n
  /\ forall k, k <> "colspan" -> k <> "colwidth" ->
       removeColSpan attrs pos n !! k = attrs !! k.
Proof.
  unfold removeColSpan. cbn zeta.
  destruct (attr (<["colspan" := VNum (colspan attrs - n)]> attrs) "colwidth") as [| | | | |cw];
    try (split; [unfold colspan; by rewrite attr_insert_eq
                | intros k Hk _; by rewrite lookup_insert_ne]).
  destruct (negb (some_positive (splice cw pos n []))).
  - split.
    + unfold colspan. rewrite attr_insert_ne by done. by rewrite attr_insert_eq.
    + intros k Hk Hk'. by rewrite !lookup_insert_ne.
  - split.
    + unfold colspan. rewrite attr_insert_ne by done. by rewrite attr_insert_eq.
    + intros k Hk Hk'. by rewrite !lookup_insert_ne.
Qed.

Section RemoveColumnProperties.
Context `{Collaborators}.

Lemma removeColumn_loop_steps (fuel : nat) (tr : Transaction) (r : TableRect)
    (col : Z) (mapStart : nat) (row : Z) (tr' : Transaction) :
  removeColumn_loop fuel tr r col mapStart row = Ok tr' ->
  exists added,
    steps tr' = steps tr ++ added
    /\ (length added <= fuel)%nat
    /\ Forall (removesFromColumn r col) added
    /\ tr_selection tr' = tr_selection tr
    /\ scrolledIntoView tr' = scrolledIntoView tr.
Proof.
  revert tr row. induction fuel as [|fuel IH]; intros tr row Hloop.
  - simpl in Hloop. destruct (height (tmap r) <=? row); [|done].
    injection Hloop as <-. exists []. rewrite app_nil_r. by repeat split.
  - cbn [removeColumn_loop] in Hloop. cbn zeta in Hloop.
    destruct (height (tmap r) <=? row).
    { injection Hloop as <-. exists []. rewrite app_nil_r. repeat split; (done || simpl; lia). }
    set (index := row * width (tmap r) + col) in *.
    unfold cellAtSlot, nodeAtSlot in Hloop.
    destruct (slot (tmap r) index) as [pos|] eqn:Hslot; [|done].
    destruct (nodeAt (table r) pos) as [[cell|]| |] eqn:Hcell; try done.
    simpl in Hloop.
    fold (spansBeyond (tmap r) col index pos) in Hloop.
    destruct (spansBeyond (tmap r) col index pos) eqn:Hspan.
    + destruct (colCount (tmap r) pos) as [cc| |] eqn:Hcc; try done. simpl in Hloop.
      destruct (IH _ _ Hloop) as (added & Hsteps & Hlen & Hall & Hsel & Hscroll).
      eexists (_ :: added). cbn [steps addStep] in Hsteps. rewrite <- app_assoc in Hsteps.
      split; [exact Hsteps|]. split; [simpl; lia|]. split; [|done].
      constructor; [|done]. exists row, pos, cell. fold index. rewrite Hspan.
      repeat split; try done. eexists _, _. split; [done|]. apply removeColSpan_other.
    + simpl in Hloop.
      destruct (IH _ _ Hloop) as (added & Hsteps & Hlen & Hall & Hsel & Hscroll).
      eexists (_ :: added). cbn [steps addStep] in Hsteps. rewrite <- app_assoc in Hsteps.
      split; [exact Hsteps|]. split; [simpl; lia|]. split; [|done].
      constructor; [|done]. exists row, pos, cell. fold index. rewrite Hspan.
      repeat split; try done. by eexists.
Qed.

(** X26: when [removeColumn] returns, it has added at most one step per
    row of the table and left the selection alone; each step takes the
    column from one cell met in it: a cell that also fills the slot to
    the left or right gets a markup change lowering its colspan by one,
    its other attributes but colwidth kept, and a cell that fills the
    column only is deleted over its whole size. *)
Theorem removeColumn_steps (tr : Transaction) (r : TableRect) (col : Z) (tr' : Transaction) :
  removeColumn tr r col = Ok tr' ->
  exists added,
    steps tr' = steps tr ++ added
    /\ (length added <= Z.to_nat (height (tmap r)))%nat
    /\ Forall (removesFromColumn r col) added
    /\ tr_selection tr' = tr_selection tr.
Proof.
  intros Hrem. unfold removeColumn in Hrem.
  destruct (removeColumn_loop_steps _ _ _ _ _ _ _ Hrem)
    as (added & Hsteps & Hlen & Hall & Hsel & _).
  by exists added.
Qed.

End RemoveColumnProperties.

Lemma removeColumn_steps_witness :
  exists tr' added,
    removeColumn emptyTr rSpan 0 = Ok tr'
    /\ steps tr' = steps emptyTr ++ added
    /\ (length added <= Z.to_nat (height (tmap rSpan)))%nat
    /\ Forall (removesFromColumn rSpan 0) added
    /\ tr_selection tr' = tr_selection emptyTr.
Proof.
  assert (E : exists tr', removeColumn emptyTr rSpan 0 = Ok tr')
    by (eexists; vm_compute; reflexivity).
  destruct E as (tr' & E). exists tr'.
  destruct (removeColumn_steps emptyTr rSpan 0 tr' E) as (added & Hsteps & Hlen & Hall & Hsel).
  exists added. by repeat split.
Defined.


(** ** A row added after the end of a section *)

Lemma isTableSection_Elem (sec : Node) :
  isRowsSection sec -> exists t a c, sec = Elem t a c.
Proof.
  intros [_ Hc]. destruct sec as [len|t a|t a c]; [| |by eexists _, _, _];
    unfold childCount in Hc; simpl in Hc; lia.
Qed.

(** At the end of a section a row fits as the call is written. *)
Lemma fitInsert_section_end (table : Node) (pre : list Node) (sec : Node) (post : list Node) :
  wellSized table = true -> children table = pre ++ sec :: post ->
  isRowsSection sec ->
  fitInsert isTableSection table (sectionEnd pre sec) = Ok (Some (sectionEnd pre sec)).
Proof.
  intros Hw Hch Hsec. destruct (isTableSection_Elem sec Hsec) as (st & sa & sc & ->).
  destruct table as [len|t a|t a c]; [by destruct pre|by destruct pre|].
  set (sec := Elem st sa sc) in *.
  set (path := [(Elem t a c, Z.of_nat (length pre), fragmentSize pre);
                (sec, Z.of_nat (length sc), sectionEnd pre sec)]).
  assert (Hchain : isChain (Elem t a c) 0 path).
  { split; [done|]. exists pre, (sec :: post). split; [done|]. split; [done|].
    split; [lia|]. split; [by eexists _, _, _, _|].
    split; [done|]. exists sc, []. split; [by rewrite app_nil_r|]. split; [done|].
    split; [|done]. unfold sectionEnd. simpl. lia. }
  destruct (resolve_of_chain t a c path Hw Hchain ltac:(done)) as (po & Hres).
  unfold fitInsert. change (chainEnd path) with (sectionEnd pre sec) in Hres.
  rewrite Hres. simpl. destruct Hsec as [-> _]. done.
Qed.

(** From the end of the last cell of the last row of a section a row
    is fitted to the end of the section. *)
Lemma fitInsert_last_cell (table : Node) (pre : list Node) (sec : Node) (post : list Node) :
  wellSized table = true -> children table = pre ++ sec :: post ->
  isRowsSection sec -> endsInCell sec ->
  fitInsert isTableSection table (sectionEnd pre sec - 2) = Ok (Some (sectionEnd pre sec)).
Proof.
  intros Hw Hch Hsec (rows & row & cells & ct & ca & content & Hrows & Hrow & Hcells & Hcell).
  destruct (isTableSection_Elem sec Hsec) as (st & sa & sc & ->).
  destruct table as [len|t a|t a c]; [by destruct pre|by destruct pre|].
  destruct row as [len|rt ra|rt ra rc]; [by destruct cells|by destruct cells|].
  simpl in Hrows, Hcells. subst sc rc.
  set (cell := Elem ct ca content) in *.
  set (row := Elem rt ra (cells ++ [cell])) in *.
  set (sec := Elem st sa (rows ++ [row])) in *.
  set (o1 := fragmentSize pre).
  set (o2 := o1 + 1 + fragmentSize rows).
  set (o3 := o2 + 1 + fragmentSize cells).
  set (o4 := o3 + 1 + fragmentSize content).
  set (path := [(Elem t a c, Z.of_nat (length pre), o1);
                (sec, Z.of_nat (length rows), o2);
                (row, Z.of_nat (length cells), o3);
                (cell, Z.of_nat (length content), o4)]).
  assert (Hchain : isChain (Elem t a c) 0 path).
  { split; [done|]. exists pre, (sec :: post). split; [done|]. split; [done|].
    split; [unfold o1; lia|]. split; [by eexists _, _, _, _|].
    split; [done|]. exists rows, [row]. split; [done|]. split; [done|].
    split; [done|]. split; [by eexists _, _, _, _|].
    split; [done|]. exists cells, [cell]. split; [done|]. split; [done|].
    split; [done|]. split; [by eexists _, _, _, _|].
    split; [done|]. exists content, []. split; [by rewrite app_nil_r|]. by repeat split. }
  destruct (resolve_of_chain t a c path Hw Hchain ltac:(done)) as (po & Hres).
  assert (Hrowsize : nodeSize row = 2 + fragmentSize cells + nodeSize cell).
  { unfold row. rewrite nodeSize_Elem, fragmentSize_app. simpl. lia. }
  assert (Hcellsize : nodeSize cell = 2 + fragmentSize content) by apply nodeSize_Elem.
  assert (Hend : sectionEnd pre sec = o4 + 2).
  { unfold sectionEnd, sec, o4, o3, o2, o1. cbn [children].
    rewrite fragmentSize_app. cbn [fragmentSize]. lia. }
  assert (Hnocell : isTableSection cell = false).
  { unfold isTableSection, role, cell. cbn [nodeType]. unfold isCellRole, isRole in Hcell.
    destruct (tableRole ct) as [[]|]; try done. }
  assert (Hnorow : isTableSection row = false).
  { unfold isTableSection. by rewrite Hrow. }
  change (chainEnd path) with o4 in Hres.
  unfold fitInsert. replace (sectionEnd pre sec - 2) with o4 by lia.
  rewrite Hres. destruct Hsec as [Hsec _]. clearbody sec row cell.
  cbn [mbind rp_path]. simpl. rewrite Hnocell.
  destruct (Z.eqb_spec o4 (o3 + nodeSize cell - 1)); [|lia].
  rewrite Hnorow.
  destruct (Z.eqb_spec (o4 + 1) (o2 + nodeSize row - 1)); [|lia].
  rewrite Hsec. do 2 f_equal. lia.
Qed.

Section RowAfterSection.
Context `{Collaborators}.

(** Where [addRow] hands the row to the host after the last row of a
    section: at the end of the section when another section follows,
    two tokens before it in the last section. *)
Lemma addRow_pos_section_end (r : TableRect) (row : Z) (pre : list Node) (sec : Node)
    (post : list Node) :
  valid_table (table r) ->
  children (table r) = pre ++ sec :: post ->
  isTableSection sec = true ->
  row = rowsOf pre + childCount sec ->
  bottom (rect r) = row ->
  isRowLastInSection (table r) (row - 1) = true ->
  isRowsSection sec
  /\ addRow_pos r row
     = tableStart r + (sectionEnd pre sec - match post with [] => 2 | _ => 0 end).
Proof.
  intros Hv Hch Hsec Hrow Hbottom Hlast.
  destruct (valid_table_split _ pre sec post Hv Hch Hsec) as (cap & secs & _ & _ & Hall).
  apply Forall_app in Hall as [_ Hall]. apply Forall_inv in Hall. split; [done|].
  unfold sectionEnd. destruct post as [|nxt post].
  - assert (Hcount : rowsCount (table r) = row).
    { rewrite rowsCount_rowsOf, Hch, rowsOf_app. cbn [rowsOf]. rewrite Hsec. lia. }
    rewrite <- Hcount in Hbottom, Hlast |- *.
    rewrite (addRow_pos_last_section r pre sec Hv Hch Hbottom Hlast). lia.
  - unfold addRow_pos. rewrite Hbottom, Z.eqb_refl, Hlast. simpl.
    rewrite Hrow, (rowPos_next_section _ pre sec nxt post) by done.
    rewrite (isRowsSection_size sec) by done. lia.
Qed.

(** C5, as amended: in a valid table, for a row index that falls
    directly after the last row of a section and is the bottom of the
    rectangle handed to [addRow], as [addRowAfter] hands it, with
    [isRowLastInSection] true of the row before, [addRow] ends when the
    cells of the grid span at least one column and, when it returns, has
    queued markup changes and then one insertion of the new row. The row
    is handed to the host at the position just before the closing token
    of that section when another section follows. In the last section of
    the table it is handed over two tokens earlier, at the end of the
    last cell of the last row, from where the host's fit of the
    insertion closes that cell and that row. In both cases the fit
    places the row just before the closing token of that section: inside
    that section, not in the following one nor in a container of its
    own. The fit is taken in the table, whose content starts at
    [tableStart] in the document. *)
Theorem addRow_after_section_end (tr : Transaction) (r : TableRect) (row : Z)
    (pre : list Node) (sec : Node) (post : list Node) :
  valid_table (table r) ->
  wellSized (table r) = true ->
  children (table r) = pre ++ sec :: post ->
  isTableSection sec = true ->
  (post = [] -> endsInCell sec) ->
  row = rowsOf pre + childCount sec ->
  bottom (rect r) = row ->
  isRowLastInSection (table r) (row - 1) = true ->
  spansPositive r ->
  addRow tr r row <> Diverge
  /\ forall tr' m', addRow tr r row = Ok (tr', m') ->
       exists markups rowType cells,
         let handedAt := sectionEnd pre sec - match post with [] => 2 | _ => 0 end in
         tableNodeTypes Rrow = Some rowType
         /\ Forall isMarkup markups
         /\ steps tr' = steps tr ++ markups ++
              [StepInsert (tableStart r + handedAt)
                 (Elem rowType (defaultAttrs rowType) cells)]
         /\ fitInsert isTableSection (table r) handedAt = Ok (Some (sectionEnd pre sec)).
Proof.
  intros Hv Hw Hch Hsec Hcells Hrow Hbottom Hlast Hspans.
  destruct (addRow_pos_section_end r row pre sec post Hv Hch Hsec Hrow Hbottom Hlast)
    as [Hrows Hpos].
  assert (Hfit : fitInsert isTableSection (table r)
                   (sectionEnd pre sec - match post with [] => 2 | _ => 0 end)
                 = Ok (Some (sectionEnd pre sec))).
  { destruct post as [|nxt post].
    - apply (fitInsert_last_cell _ pre sec []); auto.
    - rewrite Z.sub_0_r. by apply (fitInsert_section_end _ pre sec (nxt :: post)). }
  unfold addRow. rewrite Hpos.
  pose proof (rowIsHeader_returns (tmap r) (table r) (row + (if 0 <? row then -1 else 0))) as Hh.
  unfold addRow_refRow.
  destruct (rowIsHeader _ _ _) as [hdr| |]; simpl; [|by split|done].
  set (refRow := if hdr then _ else _).
  assert (Href : exists x, refRow = Ok x) by (subst refRow; destruct hdr; eauto).
  destruct Href as [ref ->]. simpl.
  destruct (addRow_loop_markups r row ref Hspans (Z.to_nat (width (tmap r))) tr 0
              (width (tmap r) * row) [] ltac:(lia)) as [Hd Hok].
  destruct (addRow_loop _ _ _ _ _ _ _ _) as [[tr1 cells]| |]; simpl; [|by split|done].
  destruct (Hok tr1 cells eq_refl) as (ms & Hsteps & Hms).
  destruct (tableNodeTypes Rrow) as [rowType|]; simpl; [|by split].
  split; [done|]. intros tr' m' [= <- <-].
  exists ms, rowType, cells. split; [done|]. split; [done|].
  split; [simpl; by rewrite Hsteps, <- app_assoc|]. exact Hfit.
Qed.

End RowAfterSection.

Lemma r22_second_spansPositive : spansPositive r22_second.
Proof.
  intros index cell Hc. unfold cellAtSlot, slot, arrayGet in Hc.
  destruct (index <? 0); [discriminate|].
  destruct (Z.to_nat index) as [|[|[|[|n]]]]; vm_compute in Hc; try discriminate;
    injection Hc as <-; vm_compute; discriminate.
Qed.

Lemma t22_valid : valid_table t22.
Proof.
  exists [], [tbody [tr_ [td; td]; tr_ [td; td]]].
  split; [reflexivity|]. split; [simpl; lia|]. split; [constructor|].
  split; [discriminate|]. repeat constructor; reflexivity.
Qed.

(** Two samples. In the table of two bodies of one row, a row added
    after the only row of the first body is handed over at position 8,
    just before the closing token of that body, which then holds two
    rows. In the table of one body of two rows, a row added after the
    last row is handed over at position 20, the end of the last cell,
    two tokens before the closing token of the body at 22; the fit
    places it there, and the body then holds three rows. *)
Lemma addRow_after_section_end_witness :
  (addRow emptyTr rFirst 1 <> Diverge
   /\ forall tr' m', addRow emptyTr rFirst 1 = Ok (tr', m') ->
        exists markups rowType cells,
          let handedAt := sectionEnd [] (tbody [tr_ [td]]) - 0 in
          tableNodeTypes Rrow = Some rowType
          /\ Forall isMarkup markups
          /\ steps tr' = steps emptyTr ++ markups ++
               [StepInsert (tableStart rFirst + handedAt)
                  (Elem rowType (defaultAttrs rowType) cells)]
          /\ fitInsert isTableSection (table rFirst) handedAt
             = Ok (Some (sectionEnd [] (tbody [tr_ [td]]))))
  /\ (addRow emptyTr r22_second 2 <> Diverge
      /\ forall tr' m', addRow emptyTr r22_second 2 = Ok (tr', m') ->
           exists markups rowType cells,
             let handedAt := sectionEnd [] (tbody [tr_ [td; td]; tr_ [td; td]]) - 2 in
             tableNodeTypes Rrow = Some rowType
             /\ Forall isMarkup markups
             /\ steps tr' = steps emptyTr ++ markups ++
                  [StepInsert (tableStart r22_second + handedAt)
                     (Elem rowType (defaultAttrs rowType) cells)]
             /\ fitInsert isTableSection (table r22_second) handedAt
                = Ok (Some (sectionEnd [] (tbody [tr_ [td; td]; tr_ [td; td]]))))
  /\ (exists tr m', addRow emptyTr rFirst 1 = Ok (tr, m')
        /\ steps tr = [StepInsert 8 (tr_ [td])]
        /\ applySteps (docOf tTwoBodies) (steps tr)
           = Ok (docOf (tableOf [tbody [tr_ [td]; tr_ [td]]; tbody [tr_ [td]]])))
  /\ (exists tr m', addRow emptyTr r22_second 2 = Ok (tr, m')
        /\ steps tr = [StepInsert 20 (tr_ [td; td])]
        /\ applySteps d22 (steps tr)
           = Ok (docOf (tableOf [tbody [tr_ [td; td]; tr_ [td; td]; tr_ [td; td]]]))).
Proof.
  split.
  { apply (addRow_after_section_end emptyTr rFirst 1 [] (tbody [tr_ [td]])
             [tbody [tr_ [td]]]);
      [exact tTwoBodies_valid | reflexivity | reflexivity | reflexivity | discriminate
      | reflexivity | reflexivity | reflexivity | exact rFirst_spansPositive]. }
  split.
  { apply (addRow_after_section_end emptyTr r22_second 2 []
             (tbody [tr_ [td; td]; tr_ [td; td]]) []);
      [exact t22_valid | reflexivity | reflexivity | reflexivity
      | intros _; by exists [tr_ [td; td]], (tr_ [td; td]), [td], cellT, (spans 1 1), [par]
      | reflexivity | reflexivity | reflexivity | exact r22_second_spansPositive]. }
  split; eexists _, _; (split; [vm_compute; reflexivity|]); split; vm_compute; reflexivity.
Defined.
